(** * mp3tolight: the audio feature-extraction pipeline

    A shallow embedding of the analysis code of the audio 3D visualizer
    (audio/basicAnalysis.js, audio/chromaAnalysis.js, audio/beatAnalysis.js,
    audio/spectralAnalysis.js, utils/audioUtils.js and
    hooks/useAudioAnalysis.js) together with the properties its
    specification states about it.

    Conventions.
    - Array indices, lengths and loop counters are [nat] (or [Z] where the
      source subtracts below zero).
    - JavaScript numbers that carry measurements are modelled by exact
      numbers: rationals [Q] where the code only adds, multiplies, divides,
      compares and rounds (beat picking, tempo), reals [R] where it takes
      square roots, logarithms or cosines.  Two computations are modelled
      in double precision, because what they return depends on the
      rounding: the Hann window ([AudioUtils.binary64]) and the guard of
      the FFT constructor ([AudioUtils.Log2_accurate]).  [NaN] and
      [Infinity] are a [None] or a constructor of their own where a
      property depends on what a division by zero gives; the definition
      concerned says so.
    - A loop whose termination depends on its arguments is a [Fixpoint]
      on fuel returning [option]; [None] means the fuel ran out. *)

From Stdlib Require Import String Ascii Bool.
From Stdlib Require Import List Arith ZArith QArith Qround Qminmax Qabs Reals Lqa Lra Lia.
From Stdlib Require Import Permutation.
From Stdlib Require ClassicalChoice.
From stdpp Require gmap strings.
Import ListNotations.

Close Scope Q_scope.
Close Scope R_scope.
Close Scope Z_scope.
Open Scope nat_scope.

(** ** The framing pass

    Every analyzer walks the sample buffer with the same loop header,
    [for (let i = 0; i < channelData.length - windowSize; i += hopSize)]
    (basicAnalysis.js:14, chromaAnalysis.js:13, beatAnalysis.js:52 and :75,
    spectralAnalysis.js:28, frequencyAnalysis.js:32). *)
Module Framing.

Section Frames.
Context {A : Type}.

(** The loop header.  [len - windowSize] is a subtraction of naturals: when
    the buffer is shorter than the window the JavaScript difference is
    negative and [i < len - windowSize] is false for every [i >= 0], as it
    is here, where the difference is cut off at 0. *)
Fixpoint frameLoop (fuel len windowSize hopSize i : nat) : option (list nat) :=
  if i <? len - windowSize then
    match fuel with
    | O => None
    | S fuel' =>
        option_map (cons i) (frameLoop fuel' len windowSize hopSize (i + hopSize))
    end
  else Some [].

(** The offsets visited by the loop, started at 0 with one unit of fuel
    per sample. *)
Definition frameOffsets (len windowSize hopSize : nat) : option (list nat) :=
  frameLoop len len windowSize hopSize 0.

(** [channelData.slice(i, i + windowSize)]. *)
Definition slice (data : list A) (from to : nat) : list A :=
  firstn (to - from) (skipn from data).

(** The frames handed to the loop body, in order. *)
Definition frames (data : list A) (windowSize hopSize : nat) : option (list (list A)) :=
  option_map (map (fun i => slice data i (i + windowSize)))
             (frameOffsets (length data) windowSize hopSize).

(** Number of iterations of the loop: the least [n] with
    [n * hopSize >= len - windowSize]. *)
Definition frameCount (len windowSize hopSize : nat) : nat :=
  (len - windowSize + hopSize - 1) / hopSize.

(** The framing property as the specification words it: for [len >= W] there
    are [floor((len - W) / H) + 1] frames of length [W] at offsets
    [0, H, 2H, ...]; for [len < W] there are none. *)
Definition framing_as_specified (data : list A) (W H : nat) : Prop :=
  exists fs,
    frames data W H = Some fs /\
    (W <= length data -> length fs = (length data - W) / H + 1) /\
    (length data < W -> fs = []) /\
    Forall (fun f => length f = W) fs.

End Frames.

(** *** Properties of the loop *)

Lemma frameLoop_stops (fuel len W H i : nat) :
  len - W <= i -> frameLoop fuel len W H i = Some [].
Proof.
  intros Hi. destruct fuel; simpl.
  - destruct (Nat.ltb_spec i (len - W)); [lia | reflexivity].
  - destruct (Nat.ltb_spec i (len - W)); [lia | reflexivity].
Qed.

(** With a positive hop the loop ends: fuel for the remaining distance is
    enough, and the offsets are [i, i + H, i + 2H, ...]. *)
Lemma frameLoop_runs (H : nat) (HH : 1 <= H) (len W : nat) :
  forall fuel i, len - W - i <= fuel ->
    exists n,
      frameLoop fuel len W H i = Some (map (fun k => i + k * H) (seq 0 n)) /\
      (n = 0 -> len - W <= i) /\
      (forall k, k < n -> i + k * H < len - W) /\
      len - W <= i + n * H.
Proof.
  induction fuel as [|fuel IH]; intros i Hfuel.
  - exists 0. rewrite frameLoop_stops by lia. simpl. repeat split; lia.
  - simpl. destruct (Nat.ltb_spec i (len - W)) as [Hlt|Hge].
    + destruct (IH (i + H)) as (n & E & _ & Hin & Hout); [lia|].
      exists (S n). rewrite E. simpl. repeat split.
      * f_equal. f_equal; [lia|]. rewrite <- seq_shift, map_map.
        apply map_ext. intros k. lia.
      * discriminate.
      * intros [|k] Hk; [lia|]. specialize (Hin k). lia.
      * lia.
    + exists 0. simpl. repeat split; lia.
Qed.

(** With hop 0 and a buffer longer than the window the loop never ends:
    no amount of fuel produces a result. *)
Lemma frameLoop_hop0_diverges (len W : nat) :
  W < len -> forall fuel, frameLoop fuel len W 0 0 = None.
Proof.
  intros Hlen. induction fuel as [|fuel IH]; simpl.
  - destruct (Nat.ltb_spec 0 (len - W)); [reflexivity | lia].
  - destruct (Nat.ltb_spec 0 (len - W)); [|lia].
    simpl. rewrite IH. reflexivity.
Qed.

Lemma frameCount_unique (len W H n : nat) :
  1 <= H ->
  (forall k, k < n -> k * H < len - W) ->
  len - W <= n * H ->
  n = frameCount len W H.
Proof.
  intros HH Hin Hout. unfold frameCount.
  destruct n as [|n].
  - symmetry. apply Nat.div_small. lia.
  - specialize (Hin n (Nat.lt_succ_diag_r n)).
    apply Nat.div_unique with (r := len - W + H - 1 - S n * H); simpl in *; nia.
Qed.

Lemma frameOffsets_closed_form (len W H : nat) :
  1 <= H ->
  frameOffsets len W H = Some (map (fun k => k * H) (seq 0 (frameCount len W H))).
Proof.
  intros HH. unfold frameOffsets.
  destruct (frameLoop_runs H HH len W len 0) as (n & E & _ & Hin & Hout); [lia|].
  rewrite E. f_equal.
  rewrite (frameCount_unique len W H n HH); [reflexivity| |lia].
  intros k Hk. specialize (Hin k Hk). lia.
Qed.

Lemma frames_returns {A} (data : list A) (W H : nat) :
  1 <= H -> exists fs, frames data W H = Some fs.
Proof.
  intros HH. unfold frames. rewrite (frameOffsets_closed_form _ _ _ HH).
  simpl. eexists. reflexivity.
Qed.

Lemma frameCount_inside (len W H k : nat) :
  1 <= H -> k < frameCount len W H -> k * H + W < len.
Proof.
  intros HH Hk. unfold frameCount in Hk.
  assert (Hd : S k <= (len - W + H - 1) / H) by lia.
  assert (Hm : S k * H <= len - W + H - 1).
  { etransitivity; [apply Nat.mul_le_mono_r, Hd|].
    rewrite Nat.mul_comm. apply Nat.Div0.mul_div_le. }
  simpl in Hm. lia.
Qed.

Lemma frameCount_outside (len W H k : nat) :
  1 <= H -> k * H + W < len -> k < frameCount len W H.
Proof.
  intros HH Hk. unfold frameCount.
  apply Nat.div_le_lower_bound; [lia|]. simpl. nia.
Qed.

Lemma slice_length {A} (data : list A) (i W : nat) :
  i + W <= length data -> length (slice data i (i + W)) = W.
Proof.
  intros Hi. unfold slice. rewrite length_firstn, length_skipn. lia.
Qed.

(** C1, as amended: for a hop of at least 1 the framing pass ends and
    yields exactly [ceil((len - W) / H)] frames, each of length exactly [W],
    taken at the offsets [0, H, 2H, ...] for as long as
    [offset + W < len] (strictly); when [len <= W] it yields no frame. *)
Theorem frames_count_length_offsets {A} (data : list A) (W H : nat) :
  1 <= H ->
  exists fs,
    frames data W H = Some fs /\
    length fs = frameCount (length data) W H /\
    Forall (fun f => length f = W) fs /\
    frameOffsets (length data) W H
      = Some (map (fun k => k * H) (seq 0 (frameCount (length data) W H))) /\
    (forall k, k < frameCount (length data) W H <-> k * H + W < length data) /\
    (length data <= W -> fs = []).
Proof.
  intros HH. unfold frames.
  rewrite (frameOffsets_closed_form _ _ _ HH). simpl.
  eexists. split; [reflexivity|].
  split; [now rewrite !length_map, length_seq|].
  split.
  { rewrite map_map. apply Forall_forall. intros f Hf.
    apply in_map_iff in Hf. destruct Hf as (k & <- & Hk).
    apply in_seq in Hk. apply slice_length.
    pose proof (frameCount_inside (length data) W H k HH). lia. }
  split; [reflexivity|].
  split.
  { intros k. split.
    - apply frameCount_inside, HH.
    - apply frameCount_outside, HH. }
  intros Hshort. unfold frameCount.
  replace (length data - W) with 0 by lia.
  rewrite Nat.div_small by lia. reflexivity.
Qed.

Lemma frames_count_length_offsets_witness :
  exists fs,
    frames [1; 2; 3; 4; 5; 6; 7; 8; 9] 4 2 = Some fs /\
    length fs = frameCount 9 4 2 /\
    Forall (fun f => length f = 4) fs /\
    frameOffsets 9 4 2 = Some (map (fun k => k * 2) (seq 0 (frameCount 9 4 2))) /\
    (forall k, k < frameCount 9 4 2 <-> k * 2 + 4 < 9) /\
    (9 <= 4 -> fs = []).
Proof.
  apply (frames_count_length_offsets [1; 2; 3; 4; 5; 6; 7; 8; 9] 4 2). lia.
Defined.

(** C1, as the specification states it, fails when the last window ends
    exactly at the end of the buffer: a buffer of 4 samples framed with
    window 4 and hop 1 has [len >= W] and yields no frame, where
    [floor((4 - 4) / 1) + 1 = 1] is claimed. *)
Lemma framing_as_specified_fails :
  ~ framing_as_specified [1; 2; 3; 4] 4 1.
Proof.
  intros (fs & E & Hcount & _ & _).
  vm_compute in E. injection E as <-.
  specialize (Hcount (le_n 4)). vm_compute in Hcount. discriminate.
Qed.

(** The same input run through the loop: zero frames. *)
Example frames_exact_fit : frames [1; 2; 3; 4] 4 1 = Some [].
Proof. reflexivity. Qed.

Example frames_hop_divides : frames [1; 2; 3; 4; 5; 6; 7; 8] 4 2
  = Some [[1; 2; 3; 4]; [3; 4; 5; 6]].
Proof. reflexivity. Qed.

End Framing.

(** ** The orchestration hook (hooks/useAudioAnalysis.js) and the upload
    handler of the visualizer component

    The hook keeps two pieces of React state, [analysisData] (one slot per
    analysis kind, [null] until filled) and [audioBuffer].  State is
    threaded explicitly: every operation takes the state of the last render
    and returns the next one, so a call sees every update made by the calls
    before it (the component has re-rendered in between).  A third field, [calls], is a log of the
    analyzer invocations; the source has no such field, it is there to
    count computations. *)
Module Hook.
Import stdpp.base stdpp.gmap stdpp.strings.
#[local] Open Scope string_scope.
#[local] Open Scope list_scope.

Section UseAudioAnalysis.

(** A decoded audio buffer and an analysis record.  Records are object
    literals, hence truthy: a slot holding one passes the test
    [if (analysisData[tabId])]. *)
Variables Buffer Result : Type.

(** The two analyzers the hook can load; [None] stands for a thrown
    exception. *)
Variables analyzeBasic analyzeChroma : Buffer -> option Result.

Record state : Type := mkState {
  analysisData : gmap string Result;   (* a missing key is a [null] slot *)
  audioBuffer : option Buffer;
  calls : list (string * Buffer)
}.

(** [useState({basic: null, chroma: null, ...})], [useState(null)]. *)
Definition initial : state :=
  {| analysisData := ∅; audioBuffer := None; calls := [] |}.

(** [loadAnalysisModule]: the cases for beats, frequency, spectral and tempo
    are commented out in the source, so every kind but ["chroma"] gets the
    basic analyzer. *)
Definition loadAnalysisModule (tabId : string) : Buffer -> option Result :=
  if String.eqb tabId "basic" then analyzeBasic
  else if String.eqb tabId "chroma" then analyzeChroma
  else analyzeBasic.

Definition setAudioBuffer (buffer : option Buffer) (st : state) : state :=
  {| analysisData := analysisData st; audioBuffer := buffer; calls := calls st |}.

(** [analyzeForTab(tabId, buffer)]; a [null] or [undefined] buffer is
    [None].  The result is the returned value ([None] for [null]) and the
    next state. *)
Definition analyzeForTab (tabId : string) (buffer : option Buffer) (st : state)
  : option Result * state :=
  match buffer with
  | None => (None, st)
  | Some b =>
      let st1 := setAudioBuffer (Some b) st in
      match analysisData st !! tabId with
      | Some cached => (Some cached, st1)
      | None =>
          let analyzeFunction := loadAnalysisModule tabId in
          let st2 := {| analysisData := analysisData st1;
                        audioBuffer := audioBuffer st1;
                        calls := calls st1 ++ [(tabId, b)] |} in
          match analyzeFunction b with
          | Some result =>
              (Some result,
               {| analysisData := <[tabId := result]> (analysisData st2);
                  audioBuffer := audioBuffer st2;
                  calls := calls st2 |})
          | None => (None, st2)
          end
      end
  end.

Definition clearAnalysisData (st : state) : state :=
  {| analysisData := ∅; audioBuffer := None; calls := calls st |}.

(** [handleFileUpload] of the component.  [decoded] is what
    [loadAudioBuffer(file)] returned: the decoded buffer, or [null]. *)
Definition handleFileUpload (activeTab : string) (decoded : option Buffer) (st : state)
  : state :=
  match decoded with
  | Some buffer => snd (analyzeForTab activeTab (Some buffer) (setAudioBuffer (Some buffer) st))
  | None => st
  end.

(** [handleTabChange] of the component. *)
Definition handleTabChange (tabId : string) (st : state) : state :=
  match audioBuffer st, analysisData st !! tabId with
  | Some b, None => snd (analyzeForTab tabId (Some b) st)
  | _, _ => st
  end.

(** *** The cache *)

(** A hit returns the slot and runs nothing. *)
Lemma analyzeForTab_hit (tabId : string) (b : Buffer) (st : state) (r : Result) :
  analysisData st !! tabId = Some r ->
  analyzeForTab tabId (Some b) st = (Some r, setAudioBuffer (Some b) st).
Proof. intros E. unfold analyzeForTab. now rewrite E. Qed.

(** A miss runs the analyzer once and fills the slot. *)
Lemma analyzeForTab_miss (tabId : string) (b : Buffer) (st : state) (r : Result) :
  analysisData st !! tabId = None ->
  loadAnalysisModule tabId b = Some r ->
  analyzeForTab tabId (Some b) st
  = (Some r, {| analysisData := <[tabId := r]> (analysisData st);
                audioBuffer := Some b;
                calls := calls st ++ [(tabId, b)] |}).
Proof. intros E1 E2. unfold analyzeForTab. rewrite E1. simpl. now rewrite E2. Qed.

(** Two requests for the same buffer and kind in a row, the first of which
    produced a record: the analyzer ran once. *)
Lemma analyzeForTab_twice (tabId : string) (b : Buffer) (st : state) (r : Result) :
  analysisData st !! tabId = None ->
  loadAnalysisModule tabId b = Some r ->
  let '(r1, st1) := analyzeForTab tabId (Some b) st in
  let '(r2, st2) := analyzeForTab tabId (Some b) st1 in
  r1 = Some r /\ r2 = Some r /\ calls st2 = calls st ++ [(tabId, b)].
Proof.
  intros E1 E2. rewrite (analyzeForTab_miss _ _ _ r E1 E2).
  erewrite analyzeForTab_hit by (simpl; apply lookup_insert_eq).
  simpl. auto.
Qed.

(** C10: whatever the analysis kind, [analyzeForTab] called with a null
    (or undefined) buffer returns null at once: the state it leaves is the
    state it found, so no analyzer was invoked and every cached analysis
    result is as it was. *)
Theorem analyzeForTab_null_buffer (tabId : string) (st : state) :
  analyzeForTab tabId None st = (None, st).
Proof. reflexivity. Qed.

(** C2, where the code departs from it: a file is uploaded and analysed
    for a tab, then a second file is uploaded while the same tab is active.
    The slot filled for the first buffer survives the swap, the request for
    the second buffer is answered with it, and the analyzer never runs on
    the second buffer. *)
Theorem upload_keeps_stale_analysis (tab : string) (a b : Buffer) (ra : Result) :
  loadAnalysisModule tab a = Some ra ->
  let st1 := handleFileUpload tab (Some a) initial in
  let st2 := handleFileUpload tab (Some b) st1 in
  audioBuffer st2 = Some b /\
  analysisData st2 !! tab = Some ra /\
  fst (analyzeForTab tab (Some b) st2) = Some ra /\
  calls (snd (analyzeForTab tab (Some b) st2)) = [(tab, a)].
Proof.
  intros Ea st1 st2.
  assert (E1 : st1 = {| analysisData := <[tab := ra]> ∅;
                        audioBuffer := Some a;
                        calls := [(tab, a)] |}).
  { unfold st1, handleFileUpload.
    rewrite (analyzeForTab_miss tab a _ ra); [reflexivity|apply lookup_empty|exact Ea]. }
  assert (E2 : st2 = {| analysisData := <[tab := ra]> ∅;
                        audioBuffer := Some b;
                        calls := [(tab, a)] |}).
  { unfold st2, handleFileUpload. rewrite E1.
    erewrite analyzeForTab_hit by (simpl; apply lookup_insert_eq). reflexivity. }
  rewrite E2.
  erewrite analyzeForTab_hit by (simpl; apply lookup_insert_eq). simpl.
  rewrite lookup_insert_eq. auto.
Qed.

End UseAudioAnalysis.

(** An instance to run the hook on: buffers are sample lists, a record is
    the number of samples analysed, and the chroma analyzer throws. *)
Definition countSamples (b : list nat) : option nat := Some (length b).
Definition alwaysThrows (b : list nat) : option nat := None.

Lemma upload_keeps_stale_analysis_witness :
  let st1 := handleFileUpload _ _ countSamples alwaysThrows "basic" (Some [1; 2; 3]) (initial _ _) in
  let st2 := handleFileUpload _ _ countSamples alwaysThrows "basic" (Some [4; 5]) st1 in
  audioBuffer _ _ st2 = Some [4; 5] /\
  analysisData _ _ st2 !! "basic" = Some 3 /\
  fst (analyzeForTab _ _ countSamples alwaysThrows "basic" (Some [4; 5]) st2) = Some 3 /\
  calls _ _ (snd (analyzeForTab _ _ countSamples alwaysThrows "basic" (Some [4; 5]) st2))
    = [("basic", [1; 2; 3])].
Proof.
  apply (upload_keeps_stale_analysis _ _ countSamples alwaysThrows "basic" [1; 2; 3] [4; 5] 3).
  reflexivity.
Defined.

(** The record returned for the two-sample buffer is the one computed from
    the three-sample buffer, not the one its own analysis would give. *)
Example stale_record_differs :
  fst (analyzeForTab _ _ countSamples alwaysThrows "basic" (Some [4; 5])
         (handleFileUpload _ _ countSamples alwaysThrows "basic" (Some [4; 5])
            (handleFileUpload _ _ countSamples alwaysThrows "basic" (Some [1; 2; 3])
               (initial _ _))))
  = Some 3
  /\ countSamples [4; 5] = Some 2.
Proof. split; reflexivity. Qed.

(** Clearing is what empties the slots; the upload path never calls it. *)
Example clear_then_upload_recomputes :
  fst (analyzeForTab _ _ countSamples alwaysThrows "basic" (Some [4; 5])
         (clearAnalysisData _ _
            (handleFileUpload _ _ countSamples alwaysThrows "basic" (Some [1; 2; 3])
               (initial _ _))))
  = Some 2.
Proof. reflexivity. Qed.

End Hook.

(** ** Beat detection (audio/beatAnalysis.js)

    [findBeats] and [calculateTempo] only add, multiply, divide, compare,
    floor and round, so numbers are rationals here and the definitions
    compute.  Where the source can divide by zero the quotient is not a
    number any more ([NaN] or an infinity); these places carry an [option],
    [None] standing for a value on which every comparison [x > y] with the
    value on the left is false. *)
Module Beat.
Import Lqa.
#[local] Open Scope Q_scope.

(** [Math.max(...l)]; the empty spread gives [-Infinity], here [None]. *)
Definition Math_max (l : list Q) : option Q :=
  match l with
  | [] => None
  | x :: r => Some (fold_left Qmax r x)
  end.

(** [x > y]. *)
Definition gtb (x y : Q) : bool := negb (Qle_bool x y).

(** [arr.map((v, i) => f(v, i))]. *)
Fixpoint mapi_from {A B : Type} (f : A -> nat -> B) (i : nat) (l : list A) : list B :=
  match l with
  | [] => []
  | v :: r => f v i :: mapi_from f (S i) r
  end.

(** [for (let i = from; i < to; i++)]: the values [i] takes. *)
Definition rangeZ (from to : Z) : list Z :=
  map (fun k => (from + Z.of_nat k)%Z) (seq 0 (Z.to_nat (to - from))).

(** [arr[i]] for an integer [i]; out of range is [undefined]. *)
Definition lookupZ {A : Type} (l : list A) (i : Z) : option A :=
  if (i <? 0)%Z then None else nth_error l (Z.to_nat i).

(** [combinedData.map(value => value / maxValue)].  With [maxValue = 0]
    every value is at most 0 and the quotient is [NaN] or [-Infinity]. *)
Definition normalize (combinedData : list Q) : list (option Q) :=
  match Math_max combinedData with
  | None => []
  | Some maxValue =>
      map (fun value => if Qeq_bool maxValue 0 then None else Some (value / maxValue))
          combinedData
  end.

(** The inner loop [for (let j = i - windowSize; j < i + windowSize; j++)
    localSum += normalizedData[j]]. *)
Definition localSum (normalizedData : list (option Q)) (i windowSize : Z) : option Q :=
  fold_left
    (fun acc j =>
       match acc, lookupZ normalizedData j with
       | Some s, Some (Some v) => Some (s + v)
       | _, _ => None
       end)
    (rangeZ (i - windowSize) (i + windowSize)) (Some 0).

(** [Math.max(threshold, localSum / (2 * windowSize) * 1.3)]; with
    [windowSize = 0] the average is [0 / 0]. *)
Definition adaptiveThreshold (threshold : Q) (normalizedData : list (option Q))
           (i windowSize : Z) : option Q :=
  match localSum normalizedData i windowSize with
  | Some s =>
      if (2 * windowSize =? 0)%Z then None
      else Some (Qmax threshold (s / inject_Z (2 * windowSize) * (13 # 10)))
  | None => None
  end.

(** The peak test of the loop body. *)
Definition isPeak (threshold : Q) (normalizedData : list (option Q))
           (i windowSize : Z) : bool :=
  match lookupZ normalizedData i,
        adaptiveThreshold threshold normalizedData i windowSize,
        lookupZ normalizedData (i - 1),
        lookupZ normalizedData (i + 1) with
  | Some (Some x), Some t, Some (Some before), Some (Some after) =>
      gtb x t && gtb x before && gtb x after
  | _, _, _, _ => false
  end.

(** One turn of the main loop: [beats] is the array built so far. *)
Definition pushBeat (peak : Z -> bool) (minBeatInterval : Z) (beats : list Z) (i : Z)
  : list Z :=
  if peak i then
    match beats with
    | [] => beats ++ [i]
    | _ :: _ =>
        if (minBeatInterval <? i - last beats 0%Z)%Z then beats ++ [i] else beats
    end
  else beats.

(** The frame indices accepted as beats. *)
Definition beatFrames (energyData onsetData : list Q) (sampleRate hopSize : Q) : list Z :=
  let threshold := 3 # 10 in
  let minBeatInterval := Qfloor ((3 # 10) * sampleRate / hopSize) in
  let combinedData :=
    mapi_from (fun energy i => energy * (7 # 10) + nth i onsetData 0 * (3 # 10))
              0 energyData in
  let normalizedData := normalize combinedData in
  let windowSize := Qfloor (sampleRate / hopSize) in
  fold_left (pushBeat (fun i => isPeak threshold normalizedData i windowSize)
                      minBeatInterval)
            (rangeZ windowSize (Z.of_nat (length normalizedData) - windowSize))
            [].

(** [findBeats]: the accepted frames as time stamps in seconds. *)
Definition findBeats (energyData onsetData : list Q) (sampleRate hopSize : Q) : list Q :=
  map (fun frameIndex => inject_Z frameIndex * hopSize / sampleRate)
      (beatFrames energyData onsetData sampleRate hopSize).

(** [intervals.sort((a, b) => a - b)]: ascending numeric order. *)
Fixpoint insertNumeric (x : Q) (l : list Q) : list Q :=
  match l with
  | [] => [x]
  | y :: r => if Qle_bool x y then x :: l else y :: insertNumeric x r
  end.

Definition sortNumeric (l : list Q) : list Q := fold_right insertNumeric [] l.

(** [for (let i = 1; i < beats.length; i++)
      intervals.push(beats[i] - beats[i - 1])]. *)
Fixpoint beatIntervals (beats : list Q) : list Q :=
  match beats with
  | a :: (b :: _) as rest => (b - a) :: beatIntervals rest
  | _ => []
  end.

(** [Math.round]: the nearest integer, halves upwards. *)
Definition Math_round (x : Q) : Q := inject_Z (Qfloor (x + (1 # 2))).

Definition medianInterval (beats : list Q) : Q :=
  let intervals := sortNumeric (beatIntervals beats) in
  nth (length intervals / 2) intervals 0.

(** A number that is a rational or [Infinity]. *)
Inductive Number : Type :=
  | Finite (q : Q)
  | Infinity.

(** [60 / medianInterval].  The intervals are differences of time stamps;
    a median interval of 0 (two beats at the same time) makes the quotient
    [60 / 0], which is [Infinity]. *)
Definition rawBpm (beats : list Q) : Number :=
  let medianInterval := medianInterval beats in
  if Qeq_bool medianInterval 0 then Infinity else Finite (60 / medianInterval).

(** [x < y]. *)
Definition ltb (x y : Q) : bool := negb (Qle_bool y x).

(** [calculateTempo(beats, duration)]; [duration] is not used by the
    source.  For [bpm = Infinity] the test [bpm < 60] is false, [bpm > 200]
    and [bpm / 2 >= 60] are true, and [bpm / 2] is [Infinity] again. *)
Definition calculateTempo (beats : list Q) : Number :=
  if (length beats <? 2)%nat then Finite 0
  else
    match rawBpm beats with
    | Infinity => Infinity
    | Finite bpm =>
        if ltb bpm 60 || gtb bpm 200 then
          if ltb bpm 60 && Qle_bool (bpm * 2) 200 then Finite (bpm * 2)
          else if gtb bpm 200 && Qle_bool 60 (bpm / 2) then Finite (bpm / 2)
          else Finite (Math_round bpm)
        else Finite (Math_round bpm)
    end.

(** *** Beat ordering *)

(** Consecutive entries of an index list are more than [m] apart. *)
Fixpoint spaced (m : Z) (l : list Z) : Prop :=
  match l with
  | x :: ((y :: _) as rest) => (m < y - x)%Z /\ spaced m rest
  | _ => True
  end.

Lemma spaced_snoc (m : Z) (l : list Z) (i : Z) :
  spaced m l -> (l = [] \/ (m < i - last l 0%Z)%Z) -> spaced m (l ++ [i]).
Proof.
  induction l as [|x [|y l] IH]; intros Hs Hi.
  - exact I.
  - destruct Hi as [Hi|Hi]; [discriminate|]. simpl in *. auto.
  - destruct Hs as [Hxy Hs]. split; [exact Hxy|].
    apply IH; [exact Hs|]. right.
    destruct Hi as [Hi|Hi]; [discriminate|]. exact Hi.
Qed.

Lemma pushBeat_spaced (peak : Z -> bool) (m : Z) (beats : list Z) (i : Z) :
  spaced m beats -> spaced m (pushBeat peak m beats i).
Proof.
  intros Hs. unfold pushBeat.
  destruct (peak i); [|exact Hs].
  destruct beats as [|b beats]; [exact I|].
  destruct (Z.ltb_spec m (i - last (b :: beats) 0%Z)); [|exact Hs].
  apply spaced_snoc; auto.
Qed.

Lemma fold_pushBeat_spaced (peak : Z -> bool) (m : Z) (range beats : list Z) :
  spaced m beats -> spaced m (fold_left (pushBeat peak m) range beats).
Proof.
  revert beats. induction range as [|i range IH]; intros beats Hs; simpl.
  - exact Hs.
  - apply IH, pushBeat_spaced, Hs.
Qed.

Lemma spaced_nth (m : Z) (l : list Z) :
  spaced m l ->
  forall k x y, nth_error l k = Some x -> nth_error l (S k) = Some y -> (m < y - x)%Z.
Proof.
  induction l as [|a [|b l] IH]; intros Hs k x y Hx Hy.
  - destruct k; discriminate.
  - destruct k as [|[|k]]; discriminate.
  - destruct Hs as [Hab Hs]. destruct k as [|k].
    + simpl in Hx, Hy. injection Hx as <-. injection Hy as <-. exact Hab.
    + apply (IH Hs k); assumption.
Qed.

Lemma beatFrames_spaced (energyData onsetData : list Q) (sampleRate hopSize : Q) :
  spaced (Qfloor ((3 # 10) * sampleRate / hopSize))
         (beatFrames energyData onsetData sampleRate hopSize).
Proof. unfold beatFrames. apply fold_pushBeat_spaced. exact I. Qed.

(** Frames more than [floor(0.3 * sampleRate / hopSize)] apart are more than
    0.3 seconds apart. *)
Lemma frame_gap_in_seconds (sampleRate hopSize : Q) (x y : Z) :
  0 < sampleRate -> 0 < hopSize ->
  (Qfloor ((3 # 10) * sampleRate / hopSize) < y - x)%Z ->
  3 # 10 < inject_Z y * hopSize / sampleRate - inject_Z x * hopSize / sampleRate.
Proof.
  intros Hsr Hhop Hgap.
  set (c := (3 # 10) * sampleRate / hopSize) in *.
  assert (Hc : c < inject_Z (y - x)).
  { apply Qlt_le_trans with (inject_Z (Qfloor c + 1)).
    - apply Qlt_floor.
    - rewrite <- Zle_Qle. lia. }
  assert (Hpos : 0 < hopSize / sampleRate).
  { apply Qlt_shift_div_l; [exact Hsr|]. rewrite Qmult_0_l. exact Hhop. }
  assert (E1 : inject_Z y * hopSize / sampleRate - inject_Z x * hopSize / sampleRate
               == inject_Z (y - x) * (hopSize / sampleRate)).
  { unfold Z.sub. rewrite inject_Z_plus, inject_Z_opp. field. lra. }
  assert (E2 : 3 # 10 == c * (hopSize / sampleRate)).
  { unfold c. field. split; lra. }
  rewrite E1, E2. apply Qmult_lt_compat_r; assumption.
Qed.

(** C6: in every beat sequence returned by the beat detector (positive
    sample rate and hop size), the times are strictly increasing and two
    consecutive beats are at least 300 ms apart. *)
Theorem findBeats_increasing_300ms
        (energyData onsetData : list Q) (sampleRate hopSize : Q) (k : nat) (t1 t2 : Q) :
  0 < sampleRate -> 0 < hopSize ->
  nth_error (findBeats energyData onsetData sampleRate hopSize) k = Some t1 ->
  nth_error (findBeats energyData onsetData sampleRate hopSize) (S k) = Some t2 ->
  t1 < t2 /\ 3 # 10 <= t2 - t1.
Proof.
  intros Hsr Hhop H1 H2. unfold findBeats in H1, H2.
  rewrite nth_error_map in H1, H2.
  destruct (nth_error _ k) as [x|] eqn:Ex; [|discriminate].
  destruct (nth_error _ (S k)) as [y|] eqn:Ey; [|discriminate].
  simpl in H1, H2. injection H1 as <-. injection H2 as <-.
  pose proof (spaced_nth _ _ (beatFrames_spaced energyData onsetData sampleRate hopSize)
                         k x y Ex Ey) as Hgap.
  pose proof (frame_gap_in_seconds sampleRate hopSize x y Hsr Hhop Hgap) as Hsec.
  revert Hsec.
  generalize (inject_Z x * hopSize / sampleRate), (inject_Z y * hopSize / sampleRate).
  intros a b Hsec. split; lra.
Qed.

(** A run with three peaks, at frames 8, 10 and 13, at 8 frames per
    second: the peak at frame 10 comes 250 ms after the beat at frame 8 and
    is dropped. *)
Definition clicks : list Q :=
  [0; 0; 0; 0; 0; 0; 0; 0; 1; 0; 1; 0; 0; 1; 0; 0; 0; 0; 0; 0; 0; 0; 0; 0; 0].

Example findBeats_clicks : findBeats clicks [] 8 1 = [8 # 8; 13 # 8].
Proof. vm_compute. reflexivity. Qed.

Lemma findBeats_increasing_300ms_witness :
  (8 # 8) < (13 # 8) /\ 3 # 10 <= (13 # 8) - (8 # 8).
Proof.
  apply (findBeats_increasing_300ms clicks [] 8 1 0%nat (8 # 8) (13 # 8)).
  - reflexivity.
  - reflexivity.
  - vm_compute. reflexivity.
  - vm_compute. reflexivity.
Defined.

(** Silence: all energies 0, so [maxValue] is 0 and no frame is a peak. *)
Example findBeats_silence :
  findBeats (repeat 0 40) (repeat 0 40) 8 1 = [].
Proof. vm_compute. reflexivity. Qed.

(** *** Tempo *)

Lemma ltb_spec (x y : Q) : reflect (x < y) (ltb x y).
Proof.
  unfold ltb. destruct (Qle_bool y x) eqn:E; constructor.
  - apply Qle_bool_iff in E. lra.
  - apply Qnot_le_lt. intros H. apply Qle_bool_iff in H. congruence.
Qed.

Lemma gtb_spec (x y : Q) : reflect (y < x) (gtb x y).
Proof. apply (ltb_spec y x). Qed.

Lemma Qle_bool_spec (x y : Q) : reflect (x <= y) (Qle_bool x y).
Proof.
  destruct (Qle_bool x y) eqn:E; constructor.
  - now apply Qle_bool_iff.
  - intros H. apply Qle_bool_iff in H. congruence.
Qed.

Lemma Math_round_in_range (x : Q) :
  60 <= x <= 200 -> 60 <= Math_round x <= 200.
Proof.
  intros [Hlo Hhi]. unfold Math_round. split.
  - change 60 with (inject_Z (Qfloor (60 + (1 # 2)))).
    rewrite <- Zle_Qle. apply Qfloor_resp_le. lra.
  - change 200 with (inject_Z (Qfloor (200 + (1 # 2)))).
    rewrite <- Zle_Qle. apply Qfloor_resp_le. lra.
Qed.

(** The tempo property as the specification words it: with at least two
    beats the value returned has been folded into [[60, 200]], or else it
    is the raw value [60 / medianInterval]. *)
Definition tempo_as_specified (beats : list Q) : Prop :=
  (2 <= length beats)%nat ->
  match calculateTempo beats, rawBpm beats with
  | Finite tempo, Finite raw => 60 <= tempo <= 200 \/ tempo == raw
  | Infinity, Infinity => True
  | _, _ => False
  end.

Lemma rawBpm_nonzero (beats : list Q) (raw : Q) :
  rawBpm beats = Finite raw -> ~ raw == 0.
Proof.
  unfold rawBpm. destruct (Qeq_bool (medianInterval beats) 0) eqn:E; [discriminate|].
  intros H. injection H as <-. apply Qeq_bool_neq in E. intros H0.
  assert (H60 : 60 / medianInterval beats * medianInterval beats == 60) by (field; exact E).
  rewrite H0 in H60. lra.
Qed.

(** What [calculateTempo] returns, case by case: fewer than two beats give
    0; an infinite raw tempo is returned as it is; a raw tempo below 60 is
    doubled and one above 200 is halved, whatever the result, since the
    inner guards [bpm * 2 <= 200] and [bpm / 2 >= 60] hold whenever the
    outer tests do; a raw tempo inside [[60, 200]] is rounded. *)
Lemma calculateTempo_folds_once (beats : list Q) :
  ((length beats < 2)%nat /\ calculateTempo beats = Finite 0)
  \/
  ((2 <= length beats)%nat /\
   match rawBpm beats with
   | Infinity => calculateTempo beats = Infinity
   | Finite raw =>
       (raw < 60 /\ calculateTempo beats = Finite (raw * 2))
       \/ (200 < raw /\ calculateTempo beats = Finite (raw / 2))
       \/ (60 <= raw <= 200 /\ calculateTempo beats = Finite (Math_round raw))
   end).
Proof.
  unfold calculateTempo.
  destruct (Nat.ltb_spec (length beats) 2) as [Hshort|Hlong].
  - left. split; [exact Hshort | reflexivity].
  - right. split; [exact Hlong|].
    destruct (rawBpm beats) as [bpm|]; [|reflexivity].
    assert (Ehalf : bpm / 2 == bpm * (1 # 2)) by field.
    destruct (ltb_spec bpm 60) as [Hlt|Hge]; simpl.
    + destruct (Qle_bool_spec (bpm * 2) 200) as [_|Hdbl]; [|exfalso; lra].
      left. split; [exact Hlt | reflexivity].
    + destruct (gtb_spec bpm 200) as [Hgt|Hle]; simpl.
      * destruct (Qle_bool_spec 60 (bpm / 2)) as [_|Hhalf];
          [|exfalso; rewrite Ehalf in Hhalf; lra].
        right. left. split; [exact Hgt | reflexivity].
      * right. right. split; [lra | reflexivity].
Qed.

(** C7, where the code departs from it.  Under its comment "Try double or
    half tempo" the code guards the doubling with [bpm * 2 <= 200] and the
    halving with [bpm / 2 >= 60]: each tests the bound the fold cannot
    miss.  So with at least two beats a raw tempo below 30 is doubled
    although the double stays below 60, and a raw tempo above 400 is halved
    although the half stays above 200; in both cases the value returned is
    outside [[60, 200]] and is not the raw value. *)
Theorem calculateTempo_fold_leaves_range (beats : list Q) (raw : Q) :
  (2 <= length beats)%nat ->
  rawBpm beats = Finite raw ->
  (raw < 30 ->
   calculateTempo beats = Finite (raw * 2) /\ raw * 2 < 60 /\ ~ raw * 2 == raw) /\
  (400 < raw ->
   calculateTempo beats = Finite (raw / 2) /\ 200 < raw / 2 /\ ~ raw / 2 == raw).
Proof.
  intros Hlong Hraw.
  pose proof (rawBpm_nonzero beats raw Hraw) as Hnz.
  assert (Ehalf : raw / 2 == raw * (1 # 2)) by field.
  destruct (calculateTempo_folds_once beats) as [[Hshort _]|[_ Hcases]]; [lia|].
  rewrite Hraw in Hcases.
  split; intros Hout.
  - destruct Hcases as [[_ E]|[[H _]|[H _]]]; [|lra|lra].
    split; [exact E|]. split; [lra|]. intros H. apply Hnz. lra.
  - destruct Hcases as [[H _]|[[_ E]|[H _]]]; [lra| |lra].
    split; [exact E|]. split; [lra|]. intros H. apply Hnz. lra.
Qed.

(** Two beats three seconds apart: the raw tempo is 20 BPM and the value
    returned is 40. *)
Lemma calculateTempo_fold_leaves_range_witness :
  (60 / 3 < 30 ->
   calculateTempo [0; 3] = Finite (60 / 3 * 2)
   /\ 60 / 3 * 2 < 60 /\ ~ 60 / 3 * 2 == 60 / 3) /\
  (400 < 60 / 3 ->
   calculateTempo [0; 3] = Finite (60 / 3 / 2)
   /\ 200 < 60 / 3 / 2 /\ ~ 60 / 3 / 2 == 60 / 3).
Proof.
  apply (calculateTempo_fold_leaves_range [0; 3] (60 / 3)).
  - simpl. lia.
  - reflexivity.
Defined.

(** The property as the specification states it fails there: 40 is neither
    inside [[60, 200]] nor the raw value 20. *)
Lemma tempo_as_specified_fails : ~ tempo_as_specified [0; 3].
Proof.
  intros H. specialize (H (le_n 2)).
  change (calculateTempo [0; 3]) with (Finite (60 / 3 * 2)) in H.
  change (rawBpm [0; 3]) with (Finite (60 / 3)) in H.
  destruct H as [[Hlo _]|Heq].
  - vm_compute in Hlo. apply Hlo. reflexivity.
  - vm_compute in Heq. discriminate.
Qed.

Example calculateTempo_slow :
  exists tempo, calculateTempo [0; 3] = Finite tempo /\ tempo == 40.
Proof. eexists. split; reflexivity. Qed.

Example calculateTempo_fast :
  exists tempo, calculateTempo [0; 1 # 10; 2 # 10] = Finite tempo /\ tempo == 300.
Proof. eexists. split; reflexivity. Qed.

Example calculateTempo_rounds :
  exists tempo, calculateTempo [0; 7 # 10; 14 # 10] = Finite tempo /\ tempo == 86.
Proof. eexists. split; reflexivity. Qed.

Example calculateTempo_one_beat : calculateTempo [5] = Finite 0.
Proof. reflexivity. Qed.

(** Two beats at the same time: the raw tempo is [60 / 0]. *)
Example calculateTempo_same_time : calculateTempo [1; 1] = Infinity.
Proof. reflexivity. Qed.

(** The numeric sort is a sort. *)
Lemma insertNumeric_perm (x : Q) (l : list Q) : Permutation (x :: l) (insertNumeric x l).
Proof.
  induction l as [|y l IH]; simpl.
  - apply Permutation_refl.
  - destruct (Qle_bool x y).
    + apply Permutation_refl.
    + eapply perm_trans; [apply perm_swap|]. apply perm_skip, IH.
Qed.

Lemma sortNumeric_perm (l : list Q) : Permutation l (sortNumeric l).
Proof.
  induction l as [|x l IH]; simpl.
  - apply perm_nil.
  - eapply perm_trans; [apply perm_skip, IH | apply insertNumeric_perm].
Qed.

Fixpoint ascending (l : list Q) : Prop :=
  match l with
  | x :: ((y :: _) as rest) => x <= y /\ ascending rest
  | _ => True
  end.

Lemma insertNumeric_ascending (x : Q) (l : list Q) :
  ascending l -> ascending (insertNumeric x l).
Proof.
  induction l as [|y l IH]; intros Hl; simpl.
  - exact I.
  - destruct (Qle_bool_spec x y) as [Hxy|Hxy].
    + split; assumption.
    + assert (Hyx : y <= x) by lra.
      destruct l as [|z l]; simpl in *.
      * split; [exact Hyx | exact I].
      * destruct Hl as [Hyz Hl]. specialize (IH Hl).
        destruct (Qle_bool_spec x z); split; assumption.
Qed.

Lemma sortNumeric_ascending (l : list Q) : ascending (sortNumeric l).
Proof.
  induction l as [|x l IH]; simpl.
  - exact I.
  - apply insertNumeric_ascending, IH.
Qed.

End Beat.

(** ** JavaScript's [Math] over the reals

    Used by the analyzers whose numbers are reals. *)
Module JSMath.
#[local] Open Scope R_scope.

(** [Math.max(...l)]; the empty spread gives [-Infinity], here [None]. *)
Definition Math_max (l : list R) : option R :=
  match l with
  | [] => None
  | x :: r => Some (fold_left Rmax r x)
  end.

(** [Math.round]: the nearest integer, halves upwards. *)
Definition Math_round (x : R) : Z := Int_part (x + 0.5).

(** [Math.log2]. *)
Definition Math_log2 (x : R) : R := ln x / ln 2.

Lemma fold_left_Rmax_spec (r : list R) (x : R) :
  let m := fold_left Rmax r x in
  x <= m /\ Forall (fun y => y <= m) r /\ (m = x \/ In m r).
Proof.
  revert x. induction r as [|y r IH]; intros x; simpl.
  - split; [lra|]. split; [constructor | now left].
  - destruct (IH (Rmax x y)) as (Hge & Hall & Hin).
    pose proof (Rmax_l x y). pose proof (Rmax_r x y).
    split; [lra|]. split.
    + constructor; [lra | exact Hall].
    + destruct Hin as [Hin|Hin]; [|now right; right].
      rewrite Hin. unfold Rmax. destruct (Rle_dec x y); [right; now left | now left].
Qed.

Lemma Math_max_spec (l : list R) (m : R) :
  Math_max l = Some m -> In m l /\ Forall (fun y => y <= m) l.
Proof.
  destruct l as [|x r]; [discriminate|]. simpl. intros [= <-].
  destruct (fold_left_Rmax_spec r x) as (Hge & Hall & Hin). split.
  - destruct Hin as [->|Hin]; [now left | now right].
  - constructor; assumption.
Qed.

Lemma Math_max_unique (l : list R) (m : R) :
  In m l -> Forall (fun y => y <= m) l -> Math_max l = Some m.
Proof.
  intros Hin Hall. destruct (Math_max l) as [m'|] eqn:E.
  - destruct (Math_max_spec l m' E) as [Hin' Hall'].
    rewrite List.Forall_forall in Hall, Hall'.
    pose proof (Hall m' Hin'). pose proof (Hall' m Hin).
    f_equal. lra.
  - destruct l; [destruct Hin | discriminate].
Qed.

(** Dividing non-negative numbers by their positive maximum lands in
    [[0, 1]]. *)
Lemma divide_by_max_unit (l : list R) (m : R) :
  Forall (fun a => 0 <= a) l -> Math_max l = Some m -> 0 < m ->
  Forall (fun a => 0 <= a <= 1) (map (fun a => a / m) l).
Proof.
  intros Hpos Hmax Hm.
  destruct (Math_max_spec _ _ Hmax) as [_ Hall].
  apply Forall_forall. intros a Ha. apply in_map_iff in Ha.
  destruct Ha as (x & <- & Hx).
  rewrite Forall_forall in Hpos, Hall.
  pose proof (Hpos x Hx). pose proof (Hall x Hx). split.
  - apply Rmult_le_pos; [lra|]. left. now apply Rinv_0_lt_compat.
  - apply Rmult_le_reg_r with m; [exact Hm|]. unfold Rdiv.
    rewrite Rmult_assoc, Rinv_l by lra. lra.
Qed.

Lemma nth_Forall_default (P : R -> Prop) (l : list R) (i : nat) :
  P 0 -> Forall P l -> P (nth i l 0).
Proof.
  intros H0 Hl. destruct (Nat.lt_ge_cases i (length l)) as [Hi|Hi].
  - rewrite Forall_forall in Hl. apply Hl, nth_In, Hi.
  - now rewrite nth_overflow.
Qed.

Lemma Forall_repeat_const (P : R -> Prop) (x : R) (n : nat) :
  P x -> Forall P (repeat x n).
Proof. intros Hx. induction n; simpl; constructor; assumption. Qed.

End JSMath.

(** ** Amplitude analysis (audio/basicAnalysis.js)

    Samples and amplitudes are real numbers; [Math.sqrt] is [sqrt].  The
    sample rate only feeds [Math.floor(sampleRate * 0.1)] and is a positive
    rational. *)
Module Basic.
Import stdpp.base stdpp.list.
Import JSMath.
#[local] Open Scope R_scope.

Record AudioBuffer : Type := mkAudioBuffer {
  channelData : list R;          (* getChannelData(0) *)
  sampleRate : Q;
  duration : R
}.

(** The record returned by [analyzeBasic].  [maxAmplitude] is
    [Math.max(...amplitudes)], which is [-Infinity], here [None], when
    there is no frame. *)
Record BasicResult : Type := mkBasicResult {
  type : string;
  amplitude : list R;
  resultSampleRate : Q;
  resultDuration : R;
  windowSize : nat;
  hopSize : nat;
  maxAmplitude : option R
}.

(** The inner loop of [analyzeBasic]:
    [for (let j = 0; j < windowSize; j++)
       sum += channelData[i + j] * channelData[i + j]]. *)
Definition sumSquares (channelData : list R) (i windowSize : nat) : R :=
  fold_left (fun sum j => sum + nth (i + j) channelData 0 * nth (i + j) channelData 0)
            (seq 0 windowSize) 0.

(** The RMS amplitude pushed for each offset of the framing pass. *)
Definition rmsAmplitudes (channelData : list R) (windowSize : nat) (offsets : list nat)
  : list R :=
  map (fun i => sqrt (sumSquares channelData i windowSize / INR windowSize)) offsets.

(** [maxAmp > 0 ? amplitudes.map(amp => amp / maxAmp) : amplitudes]. *)
Definition normalizeAmplitudes (amplitudes : list R) : list R :=
  match Math_max amplitudes with
  | Some maxAmp =>
      if Rlt_dec 0 maxAmp then map (fun amp => amp / maxAmp) amplitudes else amplitudes
  | None => amplitudes
  end.

(** [smoothArray(arr, factor)]: the copy is updated in place from left to
    right, so [smoothed[i - 1]] is already the new value when [smoothed[i]]
    is computed. *)
Definition smoothStep (factor : R) (smoothed : list R) (i : nat) : list R :=
  <[i := nth i smoothed 0 * (1 - factor)
         + (nth (i - 1) smoothed 0 + nth (i + 1) smoothed 0) * factor * 0.5]> smoothed.

Definition smoothArray (arr : list R) (factor : R) : list R :=
  if Rle_dec factor 0 then arr
  else fold_left (smoothStep factor) (seq 1 (length arr - 2)) arr.

(** [analyzeBasic(audioBuffer)]; [None] when the framing loop does not end
    (hop size 0 on a buffer longer than the window). *)
Definition analyzeBasic (audioBuffer : AudioBuffer) : option BasicResult :=
  let channelData := channelData audioBuffer in
  let sampleRate := sampleRate audioBuffer in
  let windowSize := Z.to_nat (Qfloor (sampleRate * (1 # 10))) in
  let hopSize := (windowSize / 4)%nat in
  match Framing.frameOffsets (length channelData) windowSize hopSize with
  | None => None
  | Some offsets =>
      let amplitudes := rmsAmplitudes channelData windowSize offsets in
      let maxAmp := Math_max amplitudes in
      let normalizedAmplitudes := normalizeAmplitudes amplitudes in
      let smoothedAmplitudes := smoothArray normalizedAmplitudes 0.8 in
      Some {| type := "basic";
              amplitude := smoothedAmplitudes;
              resultSampleRate := sampleRate;
              resultDuration := duration audioBuffer;
              windowSize := windowSize;
              hopSize := hopSize;
              maxAmplitude := maxAmp |}
  end.

(** The sequence before smoothing, as a function of the buffer. *)
Definition normalizedAmplitudes (audioBuffer : AudioBuffer) : option (list R) :=
  let channelData := channelData audioBuffer in
  let windowSize := Z.to_nat (Qfloor (sampleRate audioBuffer * (1 # 10))) in
  let hopSize := (windowSize / 4)%nat in
  option_map (fun offsets => normalizeAmplitudes (rmsAmplitudes channelData windowSize offsets))
             (Framing.frameOffsets (length channelData) windowSize hopSize).

(** *** Normalization *)

Lemma rmsAmplitudes_nonneg (channelData : list R) (W : nat) (offsets : list nat) :
  Forall (fun a => 0 <= a) (rmsAmplitudes channelData W offsets).
Proof.
  unfold rmsAmplitudes. apply List.Forall_forall. intros a Ha.
  apply in_map_iff in Ha. destruct Ha as (i & <- & _). apply sqrt_pos.
Qed.

Lemma normalizeAmplitudes_length (amplitudes : list R) :
  length (normalizeAmplitudes amplitudes) = length amplitudes.
Proof.
  unfold normalizeAmplitudes. destruct (Math_max amplitudes); [|reflexivity].
  destruct (Rlt_dec 0 r); [apply length_map | reflexivity].
Qed.

(** With a positive maximum the normalized sequence lies in [[0, 1]] and
    its maximum is exactly 1. *)
Lemma normalizeAmplitudes_max_1 (amplitudes : list R) (maxAmp : R) :
  Forall (fun a => 0 <= a) amplitudes ->
  Math_max amplitudes = Some maxAmp -> 0 < maxAmp ->
  Math_max (normalizeAmplitudes amplitudes) = Some 1 /\
  Forall (fun a => 0 <= a <= 1) (normalizeAmplitudes amplitudes).
Proof.
  intros Hpos Hmax Hm. unfold normalizeAmplitudes. rewrite Hmax.
  destruct (Rlt_dec 0 maxAmp) as [_|]; [|contradiction].
  destruct (Math_max_spec _ _ Hmax) as [Hin Hall].
  pose proof (divide_by_max_unit amplitudes maxAmp Hpos Hmax Hm) as Hunit.
  split; [|exact Hunit].
  apply Math_max_unique.
  - apply in_map_iff. exists maxAmp. split; [|exact Hin]. field. lra.
  - eapply List.Forall_impl; [|exact Hunit]. simpl. intros a Ha. lra.
Qed.

(** *** Smoothing *)

Lemma smoothStep_length (factor : R) (smoothed : list R) (i : nat) :
  length (smoothStep factor smoothed i) = length smoothed.
Proof. unfold smoothStep. apply length_insert. Qed.

(** A property kept by every single update is kept by the whole pass. *)
Lemma smoothArray_invariant (P : R -> Prop) (factor : R) :
  P 0 ->
  (forall cur before after,
     P cur -> P before -> P after ->
     P (cur * (1 - factor) + (before + after) * factor * 0.5)) ->
  forall arr, Forall P arr -> Forall P (smoothArray arr factor).
Proof.
  intros H0 Hstep arr Harr. unfold smoothArray.
  destruct (Rle_dec factor 0); [exact Harr|].
  generalize (seq 1 (length arr - 2)). intros indices.
  revert arr Harr. induction indices as [|i indices IH]; intros arr Harr; simpl.
  - exact Harr.
  - apply IH. unfold smoothStep. apply Forall_insert; [exact Harr|].
    apply Hstep; apply nth_Forall_default; assumption.
Qed.

Lemma smoothArray_length (arr : list R) (factor : R) :
  length (smoothArray arr factor) = length arr.
Proof.
  unfold smoothArray. destruct (Rle_dec factor 0); [reflexivity|].
  generalize (seq 1 (length arr - 2)). intros indices.
  revert arr. induction indices as [|i indices IH]; intros arr; simpl.
  - reflexivity.
  - rewrite IH. apply smoothStep_length.
Qed.

Lemma smoothArray_unit (arr : list R) :
  Forall (fun a => 0 <= a <= 1) arr ->
  Forall (fun a => 0 <= a <= 1) (smoothArray arr 0.8).
Proof.
  apply (smoothArray_invariant (fun a => 0 <= a <= 1)); [lra|].
  intros cur before after Hc Hb Ha. lra.
Qed.

Lemma smoothArray_zero (arr : list R) :
  Forall (fun a => a = 0) arr -> Forall (fun a => a = 0) (smoothArray arr 0.8).
Proof.
  apply (smoothArray_invariant (fun a => a = 0)); [reflexivity|].
  intros cur before after -> -> ->. lra.
Qed.

(** *** Silence *)

Lemma sumSquares_zero (channelData : list R) (i W : nat) :
  Forall (fun s => s = 0) channelData -> sumSquares channelData i W = 0.
Proof.
  intros Hz. unfold sumSquares.
  assert (Hfold : forall js acc, acc = 0 ->
            fold_left (fun sum j => sum + nth (i + j) channelData 0
                                          * nth (i + j) channelData 0) js acc = 0).
  { induction js as [|j js IH]; intros acc Hacc; simpl; [exact Hacc|].
    apply IH. rewrite Hacc.
    rewrite (nth_Forall_default (fun s => s = 0) channelData (i + j) eq_refl Hz). lra. }
  now apply Hfold.
Qed.

Lemma rmsAmplitudes_zero (channelData : list R) (W : nat) (offsets : list nat) :
  Forall (fun s => s = 0) channelData ->
  Forall (fun a => a = 0) (rmsAmplitudes channelData W offsets).
Proof.
  intros Hz. unfold rmsAmplitudes. apply List.Forall_forall. intros a Ha.
  apply in_map_iff in Ha. destruct Ha as (i & <- & _).
  rewrite sumSquares_zero by exact Hz.
  unfold Rdiv. rewrite Rmult_0_l. apply sqrt_0.
Qed.

Lemma normalizeAmplitudes_zero (amplitudes : list R) :
  Forall (fun a => a = 0) amplitudes ->
  Forall (fun a => a = 0) (normalizeAmplitudes amplitudes).
Proof.
  intros Hz. unfold normalizeAmplitudes.
  destruct (Math_max amplitudes) as [maxAmp|]; [|exact Hz].
  destruct (Rlt_dec 0 maxAmp); [|exact Hz].
  apply List.Forall_forall. intros a Ha.
  apply in_map_iff in Ha. destruct Ha as (x & <- & Hx).
  rewrite List.Forall_forall in Hz. rewrite (Hz x Hx).
  unfold Rdiv. apply Rmult_0_l.
Qed.

(** *** The amplitude sequence of [analyzeBasic] *)

(** The amplitude property as the specification words it: when some frame
    has a non-zero RMS value, the maximum of the returned sequence is 1.0
    within epsilon (taken generously as 0.001). *)
Definition amplitude_max_as_specified (audioBuffer : AudioBuffer) : Prop :=
  forall result maxAmp,
    analyzeBasic audioBuffer = Some result ->
    maxAmplitude result = Some maxAmp -> 0 < maxAmp ->
    exists m, Math_max (amplitude result) = Some m /\ Rabs (m - 1) <= 1 / 1000.

(** A sample rate of at least 40 Hz gives a window of at least 4 samples
    and a hop of at least 1. *)
Lemma hop_positive (sampleRate : Q) :
  (40 <= sampleRate)%Q ->
  (1 <= Z.to_nat (Qfloor (sampleRate * (1 # 10))) / 4)%nat.
Proof.
  intros Hsr.
  assert (Hfloor : (4 <= Qfloor (sampleRate * (1 # 10)))%Z).
  { change 4%Z with (Qfloor (40 * (1 # 10))).
    apply Qfloor_resp_le. apply Qmult_le_compat_r; [exact Hsr | discriminate]. }
  change 1%nat with (4 / 4)%nat. apply Nat.Div0.div_le_mono. lia.
Qed.

(** C3, as amended: for a sample rate of at least 40 Hz (hop size at least
    1) [analyzeBasic] returns.  When some frame has a non-zero RMS value
    ([maxAmplitude > 0]) the normalized sequence has maximum exactly 1.0
    before smoothing, and the returned sequence, which is that sequence
    smoothed, has every entry in [[0, 1]].  For an all-zero buffer the
    returned sequence is all zeros. *)
Theorem amplitude_normalized_then_smoothed (audioBuffer : AudioBuffer) :
  (40 <= sampleRate audioBuffer)%Q ->
  exists result normalized,
    analyzeBasic audioBuffer = Some result /\
    normalizedAmplitudes audioBuffer = Some normalized /\
    amplitude result = smoothArray normalized 0.8 /\
    (forall maxAmp, maxAmplitude result = Some maxAmp -> 0 < maxAmp ->
       Math_max normalized = Some 1 /\
       Forall (fun a => 0 <= a <= 1) (amplitude result)) /\
    (Forall (fun s => s = 0) (channelData audioBuffer) ->
       Forall (fun a => a = 0) (amplitude result)).
Proof.
  intros Hsr. pose proof (hop_positive _ Hsr) as Hhop.
  unfold analyzeBasic, normalizedAmplitudes.
  set (W := Z.to_nat (Qfloor (sampleRate audioBuffer * (1 # 10)))) in *.
  rewrite (Framing.frameOffsets_closed_form _ W (W / 4) Hhop).
  set (offsets := map _ (seq 0 _)).
  eexists. eexists. split; [reflexivity|]. split; [reflexivity|]. simpl.
  split; [reflexivity|]. split.
  - intros maxAmp Hmax Hpos.
    destruct (normalizeAmplitudes_max_1 _ maxAmp
                (rmsAmplitudes_nonneg (channelData audioBuffer) W offsets) Hmax Hpos)
      as [Hone Hunit].
    split; [exact Hone|]. apply smoothArray_unit, Hunit.
  - intros Hz. apply smoothArray_zero, normalizeAmplitudes_zero, rmsAmplitudes_zero, Hz.
Qed.

(** A buffer of ten samples at 40 Hz with one impulse: window 4, hop 1,
    six frames. *)
Definition impulse : AudioBuffer :=
  {| channelData := [0; 0; 0; 0; 1; 0; 0; 0; 0; 0];
     sampleRate := 40%Q;
     duration := 1 / 4 |}.

(** Equality of two explicit lists of reals, entry by entry. *)
Ltac list_lra := repeat (apply (f_equal2 cons); [lra|]); reflexivity.

Lemma sqrt_quarter : sqrt (1 / 4) = 1 / 2.
Proof.
  replace (1 / 4) with ((1 / 2) * (1 / 2)) by lra. apply sqrt_square. lra.
Qed.

Lemma rmsAmplitudes_impulse :
  rmsAmplitudes (channelData impulse) 4 [0; 1; 2; 3; 4; 5]%nat
  = [0; 1 / 2; 1 / 2; 1 / 2; 1 / 2; 0].
Proof.
  unfold rmsAmplitudes, sumSquares. simpl.
  repeat match goal with
         | |- context [sqrt ?x] =>
             first [ replace x with 0 by lra; rewrite sqrt_0
                   | replace x with (1 / 4) by lra; rewrite sqrt_quarter ]
         end.
  reflexivity.
Qed.

Lemma normalizeAmplitudes_impulse :
  normalizeAmplitudes [0; 1 / 2; 1 / 2; 1 / 2; 1 / 2; 0] = [0; 1; 1; 1; 1; 0].
Proof.
  assert (Hmax : Math_max [0; 1 / 2; 1 / 2; 1 / 2; 1 / 2; 0] = Some (1 / 2)).
  { apply Math_max_unique; [right; now left|].
    repeat constructor; lra. }
  unfold normalizeAmplitudes. rewrite Hmax.
  destruct (Rlt_dec 0 (1 / 2)); [|lra]. simpl. list_lra.
Qed.

Lemma smoothArray_impulse :
  smoothArray [0; 1; 1; 1; 1; 0] 0.8
  = [0; 3 / 5; 21 / 25; 117 / 125; 359 / 625; 0].
Proof.
  unfold smoothArray. destruct (Rle_dec 0.8 0); [lra|].
  unfold smoothStep. simpl. list_lra.
Qed.

Lemma analyzeBasic_impulse :
  analyzeBasic impulse
  = Some {| type := "basic";
            amplitude := [0; 3 / 5; 21 / 25; 117 / 125; 359 / 625; 0];
            resultSampleRate := 40%Q;
            resultDuration := 1 / 4;
            windowSize := 4;
            hopSize := 1;
            maxAmplitude := Some (1 / 2) |}.
Proof.
  unfold analyzeBasic.
  change (Z.to_nat (Qfloor (sampleRate impulse * (1 # 10)))) with 4%nat.
  change (Framing.frameOffsets (length (channelData impulse)) 4 (4 / 4))
    with (Some [0; 1; 2; 3; 4; 5]%nat).
  cbv beta iota zeta.
  rewrite rmsAmplitudes_impulse, normalizeAmplitudes_impulse, smoothArray_impulse.
  f_equal. f_equal.
  apply Math_max_unique; [right; now left|].
  repeat constructor; lra.
Qed.

(** C3, as the specification states it, fails on [impulse]: a frame has
    RMS 0.5, and the maximum of the returned sequence is 0.936. *)
Lemma amplitude_max_as_specified_fails : ~ amplitude_max_as_specified impulse.
Proof.
  intros H.
  destruct (H _ (1 / 2) analyzeBasic_impulse eq_refl) as (m & Hm & Hclose); [lra|].
  cbn [amplitude] in Hm. apply Math_max_spec in Hm. destruct Hm as [Hin _].
  unfold Rabs in Hclose. destruct (Rcase_abs (m - 1)).
  - simpl in Hin. repeat (destruct Hin as [<-|Hin]; [lra|]). exact Hin.
  - simpl in Hin. repeat (destruct Hin as [<-|Hin]; [lra|]). exact Hin.
Qed.

Lemma amplitude_normalized_then_smoothed_witness :
  exists result normalized,
    analyzeBasic impulse = Some result /\
    normalizedAmplitudes impulse = Some normalized /\
    amplitude result = smoothArray normalized 0.8 /\
    (forall maxAmp, maxAmplitude result = Some maxAmp -> 0 < maxAmp ->
       Math_max normalized = Some 1 /\
       Forall (fun a => 0 <= a <= 1) (amplitude result)) /\
    (Forall (fun s => s = 0) (channelData impulse) ->
       Forall (fun a => a = 0) (amplitude result)).
Proof.
  apply (amplitude_normalized_then_smoothed impulse).
  vm_compute. discriminate.
Defined.

End Basic.

(** ** Chroma analysis (audio/chromaAnalysis.js) *)
Module Chroma.
Import stdpp.base stdpp.list.
Import JSMath.
#[local] Open Scope R_scope.

(** An entry [{ real, imag }] of the transform. *)
Record Complex : Type := mkComplex { real : R; imag : R }.

Record ChromaResult : Type := mkChromaResult {
  type : string;
  chromaFeatures : list (list R);
  resultSampleRate : Q;
  resultDuration : R;
  fftSize : nat;
  hopSize : nat;
  noteNames : list string
}.

(** [performFFT(buffer)]: the direct summation
    [for k < N: for n < N: real += buffer[n] * cos(angle);
                           imag += buffer[n] * sin(angle)]
    with [angle = -2 * PI * k * n / N]. *)
Definition performFFT (buffer : list R) : list Complex :=
  let N := length buffer in
  map (fun k =>
         fold_left
           (fun acc n =>
              let angle := -2 * PI * INR k * INR n / INR N in
              {| real := real acc + nth n buffer 0 * cos angle;
                 imag := imag acc + nth n buffer 0 * sin angle |})
           (seq 0 N) {| real := 0; imag := 0 |})
      (seq 0 N).

(** The body of the loop over the bins of [calculateChromaFromFFT]. *)
Definition chromaStep (fft : list Complex) (sampleRate : R) (fftSize : nat)
           (chroma : list R) (i : nat) : list R :=
  let freq := (INR i * sampleRate) / INR fftSize in
  if Rle_dec 80 freq then
    if Rle_dec freq 2000 then
      let bin := nth i fft {| real := 0; imag := 0 |} in
      let magnitude := sqrt (real bin * real bin + imag bin * imag bin) in
      let midiNote := 69 + 12 * Math_log2 (freq / 440) in
      let chromaIndex := Z.rem (Math_round midiNote) 12 in
      let normalizedChromaIndex := Z.to_nat (Z.rem (chromaIndex + 12) 12) in
      <[normalizedChromaIndex := nth normalizedChromaIndex chroma 0 + magnitude]> chroma
    else chroma
  else chroma.

(** The chroma array after the loop
    [for (let i = 1; i < fft.length / 2; i++)]: [i] runs over the
    [(length - 1) / 2] integers from 1 that stay below half the length. *)
Definition accumulateChroma (fft : list Complex) (sampleRate : R) (fftSize : nat) : list R :=
  fold_left (chromaStep fft sampleRate fftSize)
            (seq 1 ((length fft - 1) / 2))
            (repeat 0 12).

(** [calculateChromaFromFFT(fft, sampleRate, fftSize)]. *)
Definition calculateChromaFromFFT (fft : list Complex) (sampleRate : R) (fftSize : nat)
  : list R :=
  let chroma := accumulateChroma fft sampleRate fftSize in
  match Math_max chroma with
  | Some maxChroma =>
      if Rlt_dec 0 maxChroma then map (fun c => c / maxChroma) chroma
      else repeat 0 12
  | None => repeat 0 12
  end.

(** [analyzeChroma(audioBuffer)]: window 2048, hop 1024. *)
Definition analyzeChroma (audioBuffer : Basic.AudioBuffer) : option ChromaResult :=
  let channelData := Basic.channelData audioBuffer in
  let sampleRate := Basic.sampleRate audioBuffer in
  let fftSize := 2048%nat in
  let hopSize := (fftSize / 2)%nat in
  match Framing.frames channelData fftSize hopSize with
  | None => None
  | Some windows =>
      let chromaValues :=
        map (fun window =>
               calculateChromaFromFFT (performFFT window) (Q2R sampleRate) fftSize)
            windows in
      Some {| type := "chroma";
              chromaFeatures := chromaValues;
              resultSampleRate := sampleRate;
              resultDuration := Basic.duration audioBuffer;
              fftSize := fftSize;
              hopSize := hopSize;
              noteNames := ["C"; "C#"; "D"; "D#"; "E"; "F"; "F#"; "G"; "G#"; "A"; "A#"; "B"]%string |}
  end.

(** *** The chroma array *)

Lemma chromaStep_length fft sampleRate fftSize (chroma : list R) (i : nat) :
  length (chromaStep fft sampleRate fftSize chroma i) = length chroma.
Proof.
  unfold chromaStep.
  destruct (Rle_dec 80 _); [|reflexivity].
  destruct (Rle_dec _ 2000); [|reflexivity].
  apply length_insert.
Qed.

Lemma chromaStep_nonneg fft sampleRate fftSize (chroma : list R) (i : nat) :
  Forall (fun c => 0 <= c) chroma ->
  Forall (fun c => 0 <= c) (chromaStep fft sampleRate fftSize chroma i).
Proof.
  intros Hc. unfold chromaStep.
  destruct (Rle_dec 80 _); [|exact Hc].
  destruct (Rle_dec _ 2000); [|exact Hc].
  apply Forall_insert; [exact Hc|].
  match goal with |- 0 <= nth ?n chroma 0 + sqrt ?x =>
    pose proof (nth_Forall_default (fun c => 0 <= c) chroma n (Rle_refl 0) Hc);
    pose proof (sqrt_pos x)
  end. lra.
Qed.

Lemma chromaStep_silent fft sampleRate fftSize (chroma : list R) (i : nat) :
  Forall (fun z => real z = 0 /\ imag z = 0) fft ->
  Forall (fun c => c = 0) chroma ->
  Forall (fun c => c = 0) (chromaStep fft sampleRate fftSize chroma i).
Proof.
  intros Hfft Hc. unfold chromaStep.
  destruct (Rle_dec 80 _); [|exact Hc].
  destruct (Rle_dec _ 2000); [|exact Hc].
  apply Forall_insert; [exact Hc|].
  rewrite (nth_Forall_default (fun c => c = 0) chroma _ eq_refl Hc).
  assert (Hbin : real (nth i fft {| real := 0; imag := 0 |}) = 0 /\
                 imag (nth i fft {| real := 0; imag := 0 |}) = 0).
  { destruct (Nat.lt_ge_cases i (length fft)) as [Hi|Hi].
    - rewrite List.Forall_forall in Hfft. apply Hfft, nth_In, Hi.
    - rewrite nth_overflow by exact Hi. split; reflexivity. }
  destruct Hbin as [-> ->].
  replace (0 * 0 + 0 * 0) with 0 by lra. rewrite sqrt_0. lra.
Qed.

Lemma accumulateChroma_invariant (P : list R -> Prop) fft sampleRate fftSize :
  P (repeat 0 12) ->
  (forall chroma i, P chroma -> P (chromaStep fft sampleRate fftSize chroma i)) ->
  P (accumulateChroma fft sampleRate fftSize).
Proof.
  intros H0 Hstep. unfold accumulateChroma.
  generalize (seq 1 ((length fft - 1) / 2)). intros bins.
  generalize dependent (repeat 0 12).
  induction bins as [|i bins IH]; intros chroma Hc; simpl.
  - exact Hc.
  - apply IH, Hstep, Hc.
Qed.

Lemma accumulateChroma_length fft sampleRate fftSize :
  length (accumulateChroma fft sampleRate fftSize) = 12%nat.
Proof.
  apply (accumulateChroma_invariant (fun c => length c = 12%nat)).
  - reflexivity.
  - intros chroma i Hc. now rewrite chromaStep_length.
Qed.

Lemma accumulateChroma_nonneg fft sampleRate fftSize :
  Forall (fun c => 0 <= c) (accumulateChroma fft sampleRate fftSize).
Proof.
  apply (accumulateChroma_invariant (Forall (fun c => 0 <= c))).
  - apply Forall_repeat_const. lra.
  - intros chroma i. apply chromaStep_nonneg.
Qed.

Lemma accumulateChroma_silent fft sampleRate fftSize :
  Forall (fun z => real z = 0 /\ imag z = 0) fft ->
  Forall (fun c => c = 0) (accumulateChroma fft sampleRate fftSize).
Proof.
  intros Hfft. apply (accumulateChroma_invariant (Forall (fun c => c = 0))).
  - now apply Forall_repeat_const.
  - intros chroma i. now apply chromaStep_silent.
Qed.

(** *** One chroma vector *)

Lemma calculateChromaFromFFT_length fft sampleRate fftSize :
  length (calculateChromaFromFFT fft sampleRate fftSize) = 12%nat.
Proof.
  unfold calculateChromaFromFFT.
  destruct (Math_max _) as [maxChroma|]; [|reflexivity].
  destruct (Rlt_dec 0 maxChroma); [|reflexivity].
  rewrite length_map. apply accumulateChroma_length.
Qed.

Lemma calculateChromaFromFFT_unit fft sampleRate fftSize :
  Forall (fun c => 0 <= c <= 1) (calculateChromaFromFFT fft sampleRate fftSize).
Proof.
  unfold calculateChromaFromFFT.
  destruct (Math_max _) as [maxChroma|] eqn:Hmax.
  - destruct (Rlt_dec 0 maxChroma) as [Hpos|_].
    + apply (divide_by_max_unit _ maxChroma); [|exact Hmax|exact Hpos].
      apply accumulateChroma_nonneg.
    + apply Forall_repeat_const. lra.
  - apply Forall_repeat_const. lra.
Qed.

(** No accumulated energy: the maximum is not positive and the literal
    zero vector is returned, without any division. *)
Lemma calculateChromaFromFFT_no_energy fft sampleRate fftSize :
  Forall (fun c => c = 0) (accumulateChroma fft sampleRate fftSize) ->
  calculateChromaFromFFT fft sampleRate fftSize = repeat 0 12.
Proof.
  intros Hz. unfold calculateChromaFromFFT.
  destruct (Math_max _) as [maxChroma|] eqn:Hmax; [|reflexivity].
  destruct (Rlt_dec 0 maxChroma) as [Hpos|_]; [|reflexivity].
  destruct (Math_max_spec _ _ Hmax) as [Hin _].
  rewrite List.Forall_forall in Hz. rewrite (Hz _ Hin) in Hpos. lra.
Qed.

Lemma performFFT_silent (buffer : list R) :
  Forall (fun s => s = 0) buffer ->
  Forall (fun z => real z = 0 /\ imag z = 0) (performFFT buffer).
Proof.
  intros Hz. unfold performFFT. apply List.Forall_forall. intros z Hin.
  apply in_map_iff in Hin. destruct Hin as (k & <- & _).
  generalize (seq 0 (length buffer)). intros ns.
  assert (Hfold : forall acc, real acc = 0 /\ imag acc = 0 ->
    let r := fold_left
               (fun acc n =>
                  let angle := -2 * PI * INR k * INR n / INR (length buffer) in
                  {| real := real acc + nth n buffer 0 * cos angle;
                     imag := imag acc + nth n buffer 0 * sin angle |}) ns acc in
    real r = 0 /\ imag r = 0).
  { induction ns as [|n ns IH]; intros acc Hacc; simpl; [exact Hacc|].
    apply IH. simpl.
    rewrite (nth_Forall_default (fun s => s = 0) buffer n eq_refl Hz).
    destruct Hacc as [-> ->]. split; lra. }
  apply Hfold. split; reflexivity.
Qed.

(** *** Every frame of the analyzer *)

(** What holds of the chroma vector computed from one window. *)
Definition chroma_frame_ok (sampleRate : R) (window chroma : list R) : Prop :=
  length chroma = 12%nat /\
  Forall (fun c => 0 <= c <= 1) chroma /\
  (Forall (fun c => c = 0) (accumulateChroma (performFFT window) sampleRate 2048) ->
   chroma = repeat 0 12) /\
  (Forall (fun s => s = 0) window -> chroma = repeat 0 12).

Lemma calculateChromaFromFFT_frame_ok (sampleRate : R) (window : list R) :
  chroma_frame_ok sampleRate window
                  (calculateChromaFromFFT (performFFT window) sampleRate 2048).
Proof.
  split; [apply calculateChromaFromFFT_length|].
  split; [apply calculateChromaFromFFT_unit|].
  split; [apply calculateChromaFromFFT_no_energy|].
  intros Hsilent.
  apply calculateChromaFromFFT_no_energy, accumulateChroma_silent, performFFT_silent, Hsilent.
Qed.

(** C5: the chroma analyzer returns, and every chroma vector it produces,
    one per frame, has exactly 12 entries, each in [[0, 1]]; a frame whose
    accumulated chroma energy is zero, an all-silent frame in particular,
    yields the all-zero 12-vector (a literal zero vector: nothing is
    divided, so nothing can be NaN). *)
Theorem chroma_frames_invariant (audioBuffer : Basic.AudioBuffer) :
  exists result windows,
    analyzeChroma audioBuffer = Some result /\
    Framing.frames (Basic.channelData audioBuffer) 2048 1024 = Some windows /\
    Forall2 (chroma_frame_ok (Q2R (Basic.sampleRate audioBuffer)))
            windows (chromaFeatures result).
Proof.
  unfold analyzeChroma.
  change (2048 / 2)%nat with 1024%nat.
  destruct (Framing.frames_returns (Basic.channelData audioBuffer) 2048 1024)
    as [windows E]; [lia|].
  rewrite E. eexists. exists windows.
  split; [reflexivity|]. split; [reflexivity|]. simpl.
  clear E. induction windows as [|window windows IH]; simpl; constructor.
  - apply calculateChromaFromFFT_frame_ok.
  - exact IH.
Qed.

(** A transform with one bin of magnitude 5 at 100 Hz (bin 1 of 4 at a
    sample rate of 400): the chroma array holds 5 in one place, and the
    vector returned holds 1 there and 0 elsewhere. *)
Example accumulateChroma_one_bin :
  Math_max (accumulateChroma [ {| real := 0; imag := 0 |}; {| real := 3; imag := 4 |};
                               {| real := 0; imag := 0 |}; {| real := 0; imag := 0 |} ]
                             400 4)
  = Some 5.
Proof.
  unfold accumulateChroma. simpl. unfold chromaStep.
  replace (INR 1 * 400 / INR 4) with 100 by (simpl; lra).
  destruct (Rle_dec 80 100); [|lra]. destruct (Rle_dec 100 2000); [|lra].
  set (n := Z.to_nat _).
  assert (Hn : (n < 12)%nat).
  { unfold n. generalize (Math_round (69 + 12 * Math_log2 (100 / 440))). intros z.
    pose proof (Z.rem_bound_abs z 12).
    pose proof (Z.rem_bound_abs (Z.rem z 12 + 12) 12).
    pose proof (Z.rem_nonneg (Z.rem z 12 + 12) 12).
    lia. }
  clearbody n.
  change (nth 1 _ _) with {| real := 3; imag := 4 |}. cbn [real imag].
  replace (3 * 3 + 4 * 4) with (5 * 5) by lra. rewrite sqrt_square by lra.
  do 12 (destruct n as [|n];
         [apply Math_max_unique; simpl; rewrite Rplus_0_l;
          [tauto | repeat (apply List.Forall_cons; [lra|]); apply List.Forall_nil]|]).
  lia.
Qed.

End Chroma.

(** ** Spectral statistics (audio/spectralAnalysis.js) *)
Module Spectral.
Import JSMath.
#[local] Open Scope R_scope.

(** The ten features computed for one frame. *)
Record SpectralFeatures : Type := mkSpectralFeatures {
  centroid : R;
  bandwidth : R;
  rolloff : R;
  flux : R;
  flatness : R;
  crest : R;
  energy : R;
  slope : R;
  kurtosis : R;
  skewness : R
}.

(** [arr.reduce((sum, x) => sum + f(x), 0)]. *)
Definition reduceSum {A : Type} (f : A -> R) (l : list A) : R :=
  fold_left (fun sum x => sum + f x) l 0.

(** [calculateSpectrum(window)]: Hann window, then the magnitudes of the
    direct transform for [k < N / 2]. *)
Definition calculateSpectrum (window : list R) : list R :=
  let N := length window in
  let windowedData :=
    map (fun '(i, sample) => sample * 0.5 * (1 - cos (2 * PI * INR i / (INR N - 1))))
        (combine (seq 0 N) window) in
  map (fun k =>
         let real := reduceSum (fun n => nth n windowedData 0
                                          * cos (-2 * PI * INR k * INR n / INR N)) (seq 0 N) in
         let imag := reduceSum (fun n => nth n windowedData 0
                                          * sin (-2 * PI * INR k * INR n / INR N)) (seq 0 N) in
         sqrt (real * real + imag * imag))
      (seq 0 ((N + 1) / 2)).

(** [spectrum.map((_, i) => (i * sampleRate) / fftSize)]. *)
Definition binFrequencies (spectrum : list R) (sampleRate : R) (fftSize : nat) : list R :=
  map (fun i => (INR i * sampleRate) / INR fftSize) (seq 0 (length spectrum)).

(** [spectrum.reduce((sum, mag) => sum + mag * mag, 0)]. *)
Definition totalEnergy (spectrum : list R) : R :=
  reduceSum (fun mag => mag * mag) spectrum.

(** The rolloff loop: the frequency of the first bin at which the running
    energy reaches the threshold, 0 if none does. *)
Fixpoint rolloffFrom (rolloffThreshold energySum : R) (bins : list (R * R)) : R :=
  match bins with
  | [] => 0
  | (magnitude, frequency) :: rest =>
      let energySum := energySum + magnitude * magnitude in
      if Rge_dec energySum rolloffThreshold then frequency
      else rolloffFrom rolloffThreshold energySum rest
  end.

(** [calculateSpectralSlope(spectrum, frequencies)].  [isFinite(slope)] is
    false exactly when the denominator of the regression is 0. *)
Definition calculateSpectralSlope (spectrum frequencies : list R) : R :=
  let logMagnitudes := map (fun mag => ln (Rmax mag 1e-10)) spectrum in
  let logFrequencies := map (fun freq => ln (Rmax freq 1)) frequencies in
  let n := INR (length logMagnitudes) in
  let sumX := reduceSum (fun x => x) logFrequencies in
  let sumY := reduceSum (fun y => y) logMagnitudes in
  let sumXY := reduceSum (fun '(i, x) => x * nth i logMagnitudes 0)
                         (combine (seq 0 (length logFrequencies)) logFrequencies) in
  let sumXX := reduceSum (fun x => x * x) logFrequencies in
  if Req_dec_T (n * sumXX - sumX * sumX) 0 then 0
  else (n * sumXY - sumX * sumY) / (n * sumXX - sumX * sumX).

(** [calculateSpectralMoments]: the pair [(kurtosis, skewness)]. *)
Definition calculateSpectralMoments (spectrum frequencies : list R) (centroid totalEnergy : R)
  : R * R :=
  let bins := combine spectrum frequencies in
  let weight (magnitude : R) := (magnitude * magnitude) / totalEnergy in
  let moment2 := reduceSum (fun '(magnitude, frequency) =>
                              let deviation := frequency - centroid in
                              deviation * deviation * weight magnitude) bins in
  let moment3 := reduceSum (fun '(magnitude, frequency) =>
                              let deviation := frequency - centroid in
                              deviation * deviation * deviation * weight magnitude) bins in
  let moment4 := reduceSum (fun '(magnitude, frequency) =>
                              let deviation := frequency - centroid in
                              deviation * deviation * deviation * deviation
                              * weight magnitude) bins in
  let variance := moment2 in
  let stdDev := sqrt variance in
  let skewness := if Rlt_dec 0 stdDev then moment3 / (stdDev * stdDev * stdDev) else 0 in
  let kurtosis := if Rlt_dec 0 variance then moment4 / (variance * variance) - 3 else 0 in
  (kurtosis, skewness).

(** [calculateSpectralFeatures(spectrum, sampleRate, fftSize,
    previousSpectrum)]; [previousSpectrum] is [null] for the first frame. *)
Definition calculateSpectralFeatures (spectrum : list R) (sampleRate : R) (fftSize : nat)
           (previousSpectrum : option (list R)) : SpectralFeatures :=
  let frequencies := binFrequencies spectrum sampleRate fftSize in
  let totalEnergy := totalEnergy spectrum in
  if Req_dec_T totalEnergy 0 then
    {| centroid := 0; bandwidth := 0; rolloff := 0; flux := 0;
       flatness := 0; crest := 0; energy := 0; slope := 0;
       kurtosis := 0; skewness := 0 |}
  else
    let bins := combine spectrum frequencies in
    let weightedSum :=
      reduceSum (fun '(magnitude, frequency) => frequency * magnitude * magnitude) bins in
    let centroid := weightedSum / totalEnergy in
    let bandwidthSum :=
      reduceSum (fun '(magnitude, frequency) =>
                   let deviation := frequency - centroid in
                   deviation * deviation * magnitude * magnitude) bins in
    let bandwidth := sqrt (bandwidthSum / totalEnergy) in
    let rolloff := rolloffFrom (totalEnergy * 0.85) 0 bins in
    let flux :=
      match previousSpectrum with
      | Some previous =>
          sqrt (reduceSum (fun '(cur, prev) => (cur - prev) * (cur - prev))
                          (combine spectrum previous))
      | None => 0
      end in
    let len := INR (length spectrum) in
    let geometricMean :=
      exp (reduceSum (fun mag => ln (Rmax mag 1e-10)) spectrum / len) in
    let arithmeticMean := reduceSum (fun mag => mag) spectrum / len in
    let flatness := if Rlt_dec 0 arithmeticMean then geometricMean / arithmeticMean else 0 in
    let maxMagnitude :=
      match Math_max spectrum with
      | Some m => m
      | None => 0   (* not reached: a spectrum with energy has an entry *)
      end in
    let rmsMagnitude := sqrt (reduceSum (fun mag => mag * mag) spectrum / len) in
    let crest := if Rlt_dec 0 rmsMagnitude then maxMagnitude / rmsMagnitude else 0 in
    let slope := calculateSpectralSlope spectrum frequencies in
    let moments := calculateSpectralMoments spectrum frequencies centroid totalEnergy in
    {| centroid := centroid; bandwidth := bandwidth; rolloff := rolloff; flux := flux;
       flatness := flatness; crest := crest; energy := totalEnergy; slope := slope;
       kurtosis := fst moments; skewness := snd moments |}.

(** *** Silent frames *)

Lemma reduceSum_zero {A : Type} (f : A -> R) (l : list A) :
  (forall x, In x l -> f x = 0) -> reduceSum f l = 0.
Proof.
  intros Hf. unfold reduceSum.
  assert (Hfold : forall acc, acc = 0 -> fold_left (fun sum x => sum + f x) l acc = 0).
  { induction l as [|x l IH]; intros acc Hacc; simpl; [exact Hacc|].
    apply IH.
    - intros y Hy. apply Hf. now right.
    - rewrite Hacc, (Hf x) by now left. lra. }
  now apply Hfold.
Qed.

Lemma totalEnergy_silent (spectrum : list R) :
  Forall (fun mag => mag = 0) spectrum -> totalEnergy spectrum = 0.
Proof.
  intros Hz. apply reduceSum_zero. intros mag Hin.
  rewrite Forall_forall in Hz. rewrite (Hz mag Hin). lra.
Qed.

(** A window of zeros has a spectrum of zeros. *)
Lemma calculateSpectrum_silent (window : list R) :
  Forall (fun s => s = 0) window ->
  Forall (fun mag => mag = 0) (calculateSpectrum window).
Proof.
  intros Hz. unfold calculateSpectrum.
  set (windowedData := map _ (combine _ window)).
  assert (Hw : Forall (fun s => s = 0) windowedData).
  { apply Forall_forall. intros x Hin. apply in_map_iff in Hin.
    destruct Hin as ([i sample] & <- & Hin). apply in_combine_r in Hin.
    rewrite Forall_forall in Hz. rewrite (Hz sample Hin). lra. }
  apply Forall_forall. intros mag Hin. apply in_map_iff in Hin.
  destruct Hin as (k & <- & _).
  rewrite !reduceSum_zero.
  - replace (0 * 0 + 0 * 0) with 0 by lra. apply sqrt_0.
  - intros n _. rewrite (nth_Forall_default (fun s => s = 0) _ n eq_refl Hw). lra.
  - intros n _. rewrite (nth_Forall_default (fun s => s = 0) _ n eq_refl Hw). lra.
Qed.

(** C8: for a frame whose total spectral energy is zero the
    spectral-statistics analyzer returns 0 for every feature (centroid,
    bandwidth, rolloff, flux, flatness, crest, energy, slope, kurtosis,
    skewness): the record of literal zeros, built before any quotient,
    logarithm or square root is taken. *)
Theorem silent_frame_features_zero
        (spectrum : list R) (sampleRate : R) (fftSize : nat)
        (previousSpectrum : option (list R)) :
  totalEnergy spectrum = 0 ->
  calculateSpectralFeatures spectrum sampleRate fftSize previousSpectrum
  = {| centroid := 0; bandwidth := 0; rolloff := 0; flux := 0;
       flatness := 0; crest := 0; energy := 0; slope := 0;
       kurtosis := 0; skewness := 0 |}.
Proof.
  intros Hsilent. unfold calculateSpectralFeatures.
  destruct (Req_dec_T (totalEnergy spectrum) 0) as [_|Hne].
  - reflexivity.
  - contradiction.
Qed.

Lemma silent_frame_features_zero_witness :
  calculateSpectralFeatures [0; 0; 0; 0] 44100 8 (Some [1; 2; 3; 4])
  = {| centroid := 0; bandwidth := 0; rolloff := 0; flux := 0;
       flatness := 0; crest := 0; energy := 0; slope := 0;
       kurtosis := 0; skewness := 0 |}.
Proof.
  apply (silent_frame_features_zero [0; 0; 0; 0] 44100 8 (Some [1; 2; 3; 4])).
  unfold totalEnergy, reduceSum. simpl. lra.
Defined.

(** The frame of a silent window is such a frame. *)
Lemma silent_window_features_zero
      (window : list R) (sampleRate : R) (fftSize : nat)
      (previousSpectrum : option (list R)) :
  Forall (fun s => s = 0) window ->
  calculateSpectralFeatures (calculateSpectrum window) sampleRate fftSize previousSpectrum
  = {| centroid := 0; bandwidth := 0; rolloff := 0; flux := 0;
       flatness := 0; crest := 0; energy := 0; slope := 0;
       kurtosis := 0; skewness := 0 |}.
Proof.
  intros Hz. unfold calculateSpectralFeatures.
  destruct (Req_dec_T _ 0) as [_|Hne]; [reflexivity|].
  exfalso. apply Hne, totalEnergy_silent, calculateSpectrum_silent, Hz.
Qed.

(** A frame with energy does not take the silent branch: its energy
    feature is the total energy. *)
Lemma energy_feature (spectrum : list R) (sampleRate : R) (fftSize : nat)
      (previousSpectrum : option (list R)) :
  energy (calculateSpectralFeatures spectrum sampleRate fftSize previousSpectrum)
  = totalEnergy spectrum.
Proof.
  unfold calculateSpectralFeatures.
  destruct (Req_dec_T (totalEnergy spectrum) 0) as [E|_]; simpl; [now rewrite E | reflexivity].
Qed.

End Spectral.

(** ** Windows and the FFT class (utils/audioUtils.js) *)
Module AudioUtils.
#[local] Open Scope string_scope.
#[local] Open Scope list_scope.
#[local] Open Scope R_scope.

(** *** Numbers in double precision

    The window coefficients are computed in IEEE double precision, one
    rounded operation after the other, and [Math.cos] and [Math.PI] are
    the engine's.  An [Arithmetic] collects what the computation uses:
    the rounding of an exact result to a double, the cosine and the
    constant.  [binary64] states what is assumed of them. *)

Lemma Rabs_le_inv (a b : R) : Rabs a <= b -> - b <= a <= b.
Proof. unfold Rabs. destruct (Rcase_abs a); lra. Qed.

(** Powers of two with an integer exponent. *)
Lemma pow2_positive (a : Z) : 0 < powerRZ 2 a.
Proof. apply powerRZ_lt. lra. Qed.

Lemma pow2_add (a b : Z) : powerRZ 2 (a + b) = powerRZ 2 a * powerRZ 2 b.
Proof. apply powerRZ_add. lra. Qed.

Lemma pow2_IZR (a : Z) : (0 <= a)%Z -> powerRZ 2 a = IZR (2 ^ a).
Proof.
  intros Ha. rewrite <- (Z2Nat.id a Ha) at 1. rewrite <- pow_powerRZ.
  rewrite pow_IZR, Z2Nat.id by exact Ha. reflexivity.
Qed.

Lemma pow2_le (a b : Z) : (a <= b)%Z -> powerRZ 2 a <= powerRZ 2 b.
Proof.
  intros Hab. replace b with (a + (b - a))%Z by lia. rewrite pow2_add.
  rewrite (pow2_IZR (b - a)) by lia.
  assert (1 <= IZR (2 ^ (b - a))).
  { apply IZR_le. assert (0 < 2 ^ (b - a))%Z by (apply Z.pow_pos_nonneg; lia). lia. }
  pose proof (pow2_positive a). nra.
Qed.

Lemma pow2_lt (a b : Z) : (a < b)%Z -> powerRZ 2 a < powerRZ 2 b.
Proof.
  intros Hab. replace b with (a + (b - a))%Z by lia. rewrite pow2_add.
  rewrite (pow2_IZR (b - a)) by lia.
  assert (2 <= IZR (2 ^ (b - a))).
  { apply IZR_le. change 2%Z with (2 ^ 1)%Z at 1. apply Z.pow_le_mono_r; lia. }
  pose proof (pow2_positive a). nra.
Qed.

Lemma pow2_lt_inv (a b : Z) : powerRZ 2 a < powerRZ 2 b -> (a < b)%Z.
Proof.
  intros Hlt. destruct (Z_lt_le_dec a b) as [|Hle]; [assumption|].
  pose proof (pow2_le b a Hle). lra.
Qed.

(** The finite doubles: [m * 2 ^ e] for an integer [m] of at most 53 bits
    and an exponent [e] from -1074 to 971. *)
Definition double (x : R) : Prop :=
  exists m e : Z,
    (Z.abs m < 2 ^ 53)%Z /\ (-1074 <= e <= 971)%Z /\ x = IZR m * powerRZ 2 e.

Record Arithmetic : Type := mkArithmetic {
  round : R -> R;       (* the double an exact result is rounded to *)
  Math_cos : R -> R;
  Math_PI : R
}.

(** [Math.PI]: the double next to pi, 0x400921FB54442D18. *)
Definition Math_PI_double : R := 884279719003555 / 2 ^ 48.

(** Double precision with rounding to nearest: an exact result that does
    not overflow is rounded to a double no other double is closer to (how
    ties are broken is left open); [Math.cos] is within [2 ^ -53], which is
    one unit in the last place of the doubles from 1/2 to 1, of the cosine
    on the arguments the windows use. *)
Record binary64 (A : Arithmetic) : Prop := {
  round_double : forall x, Rabs x <= powerRZ 2 1023 -> double (round A x);
  round_nearest : forall x d, Rabs x <= powerRZ 2 1023 -> double d ->
                    Rabs (round A x - x) <= Rabs (d - x);
  cos_accurate : forall x, 0 <= x <= 7 -> Rabs (Math_cos A x - cos x) <= / 2 ^ 53;
  PI_nearest : Math_PI A = Math_PI_double
}.

Lemma double_0 : double 0.
Proof. exists 0%Z, 0%Z. split; [reflexivity|]. split; [lia | simpl; lra]. Qed.

Lemma double_opp (x : R) : double x -> double (- x).
Proof.
  intros (m & e & Hm & He & ->). exists (- m)%Z, e.
  split; [now rewrite Z.abs_opp|]. split; [exact He|]. rewrite opp_IZR. ring.
Qed.

Lemma double_IZR (z : Z) : (Z.abs z < 2 ^ 53)%Z -> double (IZR z).
Proof. intros Hz. exists z, 0%Z. split; [exact Hz|]. split; [lia | simpl; lra]. Qed.

Lemma double_scaled (m e : Z) :
  (Z.abs m < 2 ^ 53)%Z -> (-1074 <= e <= 971)%Z -> double (IZR m * powerRZ 2 e).
Proof. intros Hm He. exists m, e. auto. Qed.

(** A double of magnitude at least [2 ^ k] is a multiple of
    [2 ^ (k - 52)]. *)
Lemma double_grid (x : R) (k : Z) :
  double x -> powerRZ 2 k <= Rabs x ->
  exists n : Z, x = IZR n * powerRZ 2 (k - 52).
Proof.
  intros (m & e & Hm & He & ->) Hk.
  assert (Hlt : powerRZ 2 k < powerRZ 2 (53 + e)).
  { eapply Rle_lt_trans; [exact Hk|].
    rewrite Rabs_mult, (Rabs_pos_eq (powerRZ 2 e)) by (left; apply pow2_positive).
    rewrite pow2_add, (pow2_IZR 53) by lia.
    apply Rmult_lt_compat_r; [apply pow2_positive|].
    rewrite <- abs_IZR. apply IZR_lt. exact Hm. }
  apply pow2_lt_inv in Hlt.
  exists (m * 2 ^ (e - (k - 52)))%Z.
  rewrite mult_IZR, <- pow2_IZR by lia.
  rewrite Rmult_assoc, <- pow2_add. f_equal. f_equal. lia.
Qed.

Section Rounding.

Variable A : Arithmetic.
Hypothesis ieee : binary64 A.

(** A double is not rounded. *)
Lemma round_id (x : R) : double x -> Rabs x <= powerRZ 2 1023 -> round A x = x.
Proof.
  intros Hd Hx. pose proof (round_nearest A ieee x x Hx Hd) as H.
  replace (x - x) with 0 in H by ring. rewrite Rabs_R0 in H.
  pose proof (Rabs_pos (round A x - x)).
  assert (E : Rabs (round A x - x) = 0) by lra.
  unfold Rabs in E. destruct (Rcase_abs (round A x - x)); lra.
Qed.

(** Rounding does not cross a double. *)
Lemma round_le (x d : R) :
  double d -> Rabs x <= powerRZ 2 1023 -> x <= d -> round A x <= d.
Proof.
  intros Hd Hx Hle. pose proof (round_nearest A ieee x d Hx Hd) as H.
  destruct (Rle_lt_dec (round A x) d) as [|Hgt]; [assumption|].
  rewrite !Rabs_pos_eq in H by lra. lra.
Qed.

Lemma round_ge (x d : R) :
  double d -> Rabs x <= powerRZ 2 1023 -> d <= x -> d <= round A x.
Proof.
  intros Hd Hx Hle. pose proof (round_nearest A ieee x d Hx Hd) as H.
  destruct (Rle_lt_dec d (round A x)) as [|Hgt]; [assumption|].
  rewrite (Rabs_left (round A x - x)), (Rabs_left1 (d - x)) in H by lra. lra.
Qed.

(** An exact result between [2 ^ k] and [2 ^ (k + 1)] is rounded to the
    double that is less than half a spacing away. *)
Lemma round_to (x d : R) (k : Z) :
  double d -> powerRZ 2 k <= x -> powerRZ 2 k <= d -> (-1074 <= k <= 971)%Z ->
  Rabs x <= powerRZ 2 1023 ->
  Rabs (d - x) < powerRZ 2 (k - 53) ->
  round A x = d.
Proof.
  intros Hd Hx Hdk Hk Hmax Hnear.
  pose proof (round_nearest A ieee x d Hmax Hd) as Hmin.
  assert (Hpow : double (powerRZ 2 k)).
  { replace (powerRZ 2 k) with (IZR 1 * powerRZ 2 k) by ring.
    apply double_scaled; [reflexivity | exact Hk]. }
  pose proof (round_ge x (powerRZ 2 k) Hpow Hmax Hx) as Hrk.
  pose proof (pow2_positive k) as Hkpos.
  destruct (double_grid (round A x) k (round_double A ieee x Hmax)) as [n En].
  { rewrite Rabs_pos_eq by lra. exact Hrk. }
  destruct (double_grid d k Hd) as [n' En'].
  { rewrite Rabs_pos_eq by lra. exact Hdk. }
  assert (Hhalf : powerRZ 2 (k - 52) = 2 * powerRZ 2 (k - 53)).
  { replace (k - 52)%Z with (1 + (k - 53))%Z by lia. rewrite pow2_add. simpl. ring. }
  pose proof (pow2_positive (k - 52)) as Hu.
  assert (Hdist : Rabs (round A x - d) < powerRZ 2 (k - 52)).
  { replace (round A x - d) with ((round A x - x) + - (d - x)) by ring.
    eapply Rle_lt_trans; [apply Rabs_triang|]. rewrite Rabs_Ropp. lra. }
  rewrite En, En' in Hdist |- *.
  replace (IZR n * powerRZ 2 (k - 52) - IZR n' * powerRZ 2 (k - 52))
    with (IZR (n - n') * powerRZ 2 (k - 52)) in Hdist by (rewrite minus_IZR; ring).
  rewrite Rabs_mult, (Rabs_pos_eq (powerRZ 2 (k - 52))) in Hdist by lra.
  assert (Hone : Rabs (IZR (n - n')) < 1) by nra.
  rewrite <- abs_IZR in Hone. apply lt_IZR in Hone.
  replace n with n' by lia. reflexivity.
Qed.

End Rounding.

(** Every number between [2 ^ lo] and [2 ^ (lo + n)] lies in one
    binade. *)
Lemma binade (y : R) (lo : Z) (n : nat) :
  powerRZ 2 lo <= y < powerRZ 2 (lo + Z.of_nat n) ->
  exists e : Z, (lo <= e < lo + Z.of_nat n)%Z /\ powerRZ 2 e <= y < powerRZ 2 (e + 1).
Proof.
  induction n as [|n IH]; intros [Hlo Hhi].
  - simpl in Hhi. rewrite Z.add_0_r in Hhi. lra.
  - destruct (Rlt_le_dec y (powerRZ 2 (lo + Z.of_nat n))) as [Hlt|Hge].
    + destruct (IH (conj Hlo Hlt)) as (e & He & Hy). exists e. split; [lia | exact Hy].
    + exists (lo + Z.of_nat n)%Z. split; [lia|]. split; [exact Hge|].
      replace (lo + Z.of_nat n + 1)%Z with (lo + Z.of_nat (S n))%Z by lia. exact Hhi.
Qed.

(** A positive number of the normal range has a double within [2 ^ -53]
    of it, relatively. *)
Lemma double_near_positive (y : R) :
  powerRZ 2 (-1022) <= y < powerRZ 2 1023 ->
  exists d, double d /\ Rabs (d - y) <= / 2 ^ 53 * y.
Proof.
  intros Hy.
  destruct (binade y (-1022) (Z.to_nat 2045)) as (e & He & Hlo & Hhi).
  { rewrite Z2Nat.id by lia. exact Hy. }
  rewrite Z2Nat.id in He by lia.
  set (s := y * powerRZ 2 (52 - e)).
  assert (Hs : powerRZ 2 52 <= s < powerRZ 2 53).
  { unfold s. pose proof (pow2_positive (52 - e)) as Hp. split.
    - replace 52%Z with (e + (52 - e))%Z at 1 by lia. rewrite pow2_add. nra.
    - replace 53%Z with (e + 1 + (52 - e))%Z by lia. rewrite pow2_add. nra. }
  rewrite (pow2_IZR 52), (pow2_IZR 53) in Hs by lia.
  destruct (base_Int_part s) as [Hfloor Hfrac].
  set (m0 := Int_part s) in *.
  assert (Hm0 : (2 ^ 52 <= m0 < 2 ^ 53)%Z).
  { split.
    - apply Z.lt_succ_r. apply lt_IZR. unfold Z.succ. rewrite plus_IZR. lra.
    - apply lt_IZR. lra. }
  assert (Hy_s : y = s * powerRZ 2 (e - 52)).
  { unfold s. rewrite Rmult_assoc, <- pow2_add.
    replace (52 - e + (e - 52))%Z with 0%Z by lia. simpl. ring. }
  pose proof (pow2_positive (e - 52)) as Hu.
  assert (Hbound : forall m : Z, Rabs (IZR m - s) <= / 2 ->
            Rabs (IZR m * powerRZ 2 (e - 52) - y) <= / 2 ^ 53 * y).
  { intros m Hm. rewrite Hy_s at 1.
    replace (IZR m * powerRZ 2 (e - 52) - s * powerRZ 2 (e - 52))
      with ((IZR m - s) * powerRZ 2 (e - 52)) by ring.
    rewrite Rabs_mult, (Rabs_pos_eq (powerRZ 2 (e - 52))) by lra.
    assert (Hge : powerRZ 2 (e - 52) * 2 ^ 52 <= y).
    { change (2 ^ 52) with (powerRZ 2 52).
      rewrite <- pow2_add. replace (e - 52 + 52)%Z with e by lia. exact Hlo. }
    assert (E53 : / 2 ^ 53 * (powerRZ 2 (e - 52) * 2 ^ 52) = / 2 * powerRZ 2 (e - 52)).
    { field. }
    assert (Hinv : 0 < / 2 ^ 53) by (apply Rinv_0_lt_compat; lra).
    nra. }
  destruct (Rle_lt_dec (s - IZR m0) (/ 2)) as [Hdown|Hup].
  - exists (IZR m0 * powerRZ 2 (e - 52)). split.
    + apply double_scaled; lia.
    + apply Hbound. apply Rabs_le. lra.
  - exists (IZR (m0 + 1) * powerRZ 2 (e - 52)). split.
    + destruct (Z.eq_dec (m0 + 1) (2 ^ 53)) as [E|Hne].
      * rewrite E. replace (IZR (2 ^ 53) * powerRZ 2 (e - 52))
          with (IZR (2 ^ 52) * powerRZ 2 (e - 51)).
        -- apply double_scaled; lia.
        -- replace (e - 51)%Z with (1 + (e - 52))%Z by lia. rewrite pow2_add.
           change (2 ^ 53)%Z with (2 ^ 52 * 2)%Z. rewrite mult_IZR. simpl (powerRZ 2 1). ring.
      * apply double_scaled; lia.
    + apply Hbound. rewrite plus_IZR. apply Rabs_le. lra.
Qed.

Lemma double_pow2_1023 : double (powerRZ 2 1023).
Proof.
  replace (powerRZ 2 1023) with (IZR (2 ^ 52) * powerRZ 2 971).
  - apply double_scaled; lia.
  - rewrite <- (pow2_IZR 52), <- pow2_add by lia. reflexivity.
Qed.

Lemma double_near (x : R) :
  powerRZ 2 (-1022) <= Rabs x <= powerRZ 2 1023 ->
  exists d, double d /\ Rabs (d - x) <= / 2 ^ 53 * Rabs x.
Proof.
  intros [Hlo Hhi].
  assert (Hpos : forall y, powerRZ 2 (-1022) <= y <= powerRZ 2 1023 ->
            exists d, double d /\ Rabs (d - y) <= / 2 ^ 53 * y).
  { intros y [Hylo [Hyhi | ->]].
    - apply double_near_positive. split; assumption.
    - exists (powerRZ 2 1023). split; [apply double_pow2_1023|].
      replace (powerRZ 2 1023 - powerRZ 2 1023) with 0 by ring. rewrite Rabs_R0.
      pose proof (pow2_positive 1023). assert (0 < / 2 ^ 53) by (apply Rinv_0_lt_compat; lra). nra. }
  unfold Rabs in Hlo, Hhi |- * at 2. destruct (Rcase_abs x) as [Hneg|Hnonneg].
  - destruct (Hpos (- x) (conj Hlo Hhi)) as (d & Hd & Hnear).
    exists (- d). split; [now apply double_opp|].
    replace (- d - x) with (- (d - - x)) by ring. now rewrite Rabs_Ropp.
  - now apply Hpos.
Qed.

Section Errors.

Variable A : Arithmetic.
Hypothesis ieee : binary64 A.

(** The relative error of a rounding in the normal range is at most
    [2 ^ -53]. *)
Lemma round_relative (x : R) :
  powerRZ 2 (-1022) <= Rabs x <= powerRZ 2 1023 ->
  Rabs (round A x - x) <= / 2 ^ 53 * Rabs x.
Proof.
  intros Hx. destruct (double_near x Hx) as (d & Hd & Hnear).
  eapply Rle_trans; [apply (round_nearest A ieee x d); [apply Hx | exact Hd] | exact Hnear].
Qed.

Lemma round_0 : round A 0 = 0.
Proof.
  apply (round_id A ieee); [apply double_0|]. rewrite Rabs_R0. left. apply pow2_positive.
Qed.

(** The error of a rounding of a number up to 2 in magnitude is at most
    [2 ^ -52]. *)
Lemma round_absolute (x : R) : Rabs x <= 2 -> Rabs (round A x - x) <= / 2 ^ 52.
Proof.
  intros Hx.
  assert (H1023 : 2 <= powerRZ 2 1023).
  { apply Rle_trans with (powerRZ 2 1); [simpl; lra | apply pow2_le; lia]. }
  assert (Htiny : powerRZ 2 (-1022) <= / 2 ^ 52).
  { replace (/ 2 ^ 52) with (powerRZ 2 (-52)) by (simpl; reflexivity).
    apply pow2_le. lia. }
  destruct (Rle_lt_dec (powerRZ 2 (-1022)) (Rabs x)) as [Hnormal|Hsmall].
  - eapply Rle_trans; [apply round_relative; lra|].
    replace (/ 2 ^ 52) with (/ 2 ^ 53 * 2) by field.
    apply Rmult_le_compat_l; [left; apply Rinv_0_lt_compat; lra | exact Hx].
  - eapply Rle_trans; [apply (round_nearest A ieee x 0); [lra | apply double_0]|].
    replace (0 - x) with (- x) by ring. rewrite Rabs_Ropp. lra.
Qed.

End Errors.

(** *** An arithmetic that is [binary64]

    The doubles are finitely many, so every number has a nearest one. *)

Lemma least_value (f : Z -> R) (n : nat) :
  exists k : Z, (0 <= k <= Z.of_nat n)%Z /\
                forall j : Z, (0 <= j <= Z.of_nat n)%Z -> f k <= f j.
Proof.
  induction n as [|n (k & Hk & Hmin)].
  - exists 0%Z. split; [lia|]. intros j Hj. replace j with 0%Z by lia. lra.
  - destruct (Rle_lt_dec (f k) (f (Z.of_nat (S n)))) as [Hle|Hlt].
    + exists k. split; [lia|]. intros j Hj.
      destruct (Z.eq_dec j (Z.of_nat (S n))) as [->|Hne]; [exact Hle | apply Hmin; lia].
    + exists (Z.of_nat (S n)). split; [lia|]. intros j Hj.
      destruct (Z.eq_dec j (Z.of_nat (S n))) as [->|Hne]; [lra|].
      specialize (Hmin j ltac:(lia)). lra.
Qed.

(** The double with a given number: the exponent is the quotient by
    [2 ^ 54] and the mantissa the remainder, both shifted. *)
Definition doubleOf (k : Z) : R :=
  let m := (k mod 2 ^ 54 - 2 ^ 53)%Z in
  let e := (k / 2 ^ 54 - 1074)%Z in
  if (Z.abs m <? 2 ^ 53)%Z then IZR m * powerRZ 2 e else 0.

Lemma doubleOf_double (k : Z) : (0 <= k < 2046 * 2 ^ 54)%Z -> double (doubleOf k).
Proof.
  intros Hk. unfold doubleOf.
  destruct (Z.ltb_spec (Z.abs (k mod 2 ^ 54 - 2 ^ 53)) (2 ^ 53)) as [Hm|_]; [|apply double_0].
  apply double_scaled; [exact Hm|].
  assert (0 <= k / 2 ^ 54 < 2046)%Z.
  { split; [apply Z.div_pos; lia | apply Z.div_lt_upper_bound; lia]. }
  lia.
Qed.

Lemma double_numbered (d : R) :
  double d -> exists k : Z, (0 <= k < 2046 * 2 ^ 54)%Z /\ doubleOf k = d.
Proof.
  intros (m & e & Hm & He & ->).
  exists ((e + 1074) * 2 ^ 54 + (m + 2 ^ 53))%Z.
  assert (Hrem : (0 <= m + 2 ^ 53 < 2 ^ 54)%Z) by lia.
  split; [nia|]. unfold doubleOf.
  rewrite Z.add_comm, Z.mod_add, Z.div_add, Z.mod_small, Z.div_small by lia.
  replace (m + 2 ^ 53 - 2 ^ 53)%Z with m by lia.
  replace (0 + (e + 1074) - 1074)%Z with e by lia.
  destruct (Z.ltb_spec (Z.abs m) (2 ^ 53)); [reflexivity | lia].
Qed.

Lemma nearest_double (x : R) :
  exists d, double d /\ forall d', double d' -> Rabs (d - x) <= Rabs (d' - x).
Proof.
  destruct (least_value (fun k => Rabs (doubleOf k - x)) (Z.to_nat (2046 * 2 ^ 54 - 1)))
    as (k & Hk & Hmin).
  rewrite Z2Nat.id in Hk, Hmin by lia.
  exists (doubleOf k). split; [apply doubleOf_double; lia|].
  intros d' Hd'. destruct (double_numbered d' Hd') as (j & Hj & <-).
  apply Hmin. lia.
Qed.

Lemma binary64_exists : exists A : Arithmetic, binary64 A.
Proof.
  destruct (ClassicalChoice.choice (fun x d => double d /\ forall d', double d' -> Rabs (d - x) <= Rabs (d' - x))
                   nearest_double) as [nearest Hnearest].
  exists {| round := nearest; Math_cos := cos; Math_PI := Math_PI_double |}.
  split; cbn [round Math_cos Math_PI].
  - intros x _. apply Hnearest.
  - intros x d _ Hd. now apply Hnearest.
  - intros x _. replace (cos x - cos x) with 0 by ring. rewrite Rabs_R0.
    left. apply Rinv_0_lt_compat. lra.
  - reflexivity.
Qed.

(** *** [createWindowFunction]

    The [switch] of [createWindowFunction] declares [alpha] with [const]
    in its 'kaiser' case and again in its 'tukey' case.  The cases of a
    [switch] share one scope, so the function as written is an early error
    of the module (SyntaxError: Identifier 'alpha' has already been
    declared).  What follows is the first case of the [switch], which does
    not use [alpha]: the function as it is once each case has its own
    block. *)

(** The names declared by [const] in the block of the [switch], in source
    order. *)
Definition switchDeclarations : list string :=
  ["beta"; "alpha"; "I0_beta"; "alpha"; "alphaN"].

Fixpoint redeclared (names : list string) : option string :=
  match names with
  | [] => None
  | name :: rest =>
      if existsb (String.eqb name) rest then Some name else redeclared rest
  end.

Example createWindowFunction_redeclares_alpha :
  redeclared switchDeclarations = Some "alpha".
Proof. reflexivity. Qed.

(** [String.prototype.toLowerCase] on ASCII. *)
Definition lowerAscii (c : ascii) : ascii :=
  let n := nat_of_ascii c in
  if ((65 <=? n) && (n <=? 90))%nat then ascii_of_nat (n + 32) else c.

Fixpoint toLowerCase (s : string) : string :=
  match s with
  | EmptyString => EmptyString
  | String c rest => String (lowerAscii c) (toLowerCase rest)
  end.

(** [case 'hann': case 'hanning':] of [switch (type.toLowerCase())]. *)
Definition selectsHann (type : string) : bool :=
  let t := toLowerCase type in
  (String.eqb t "hann" || String.eqb t "hanning")%bool.

Section Window.

Variable A : Arithmetic.

(** The four operations, each rounded. *)
Definition mul (a b : R) : R := round A (a * b).
Definition div (a b : R) : R := round A (a / b).
Definition sub (a b : R) : R := round A (a - b).

(** [0.5 * (1 - Math.cos(2 * Math.PI * i / (size - 1)))], operation by
    operation.  [None] is [NaN]: when [size - 1] is 0 the quotient is
    [0 / 0], or an infinity whose cosine is [NaN] as well. *)
Definition hannCoefficient (size i : nat) : option R :=
  let numerator := mul (mul 2 (Math_PI A)) (INR i) in
  let denominator := sub (INR size) 1 in
  if Req_dec_T denominator 0 then None
  else Some (mul 0.5 (sub 1 (Math_cos A (div numerator denominator)))).

(** [createWindowFunction(size, type)] for a [type] that selects the
    first case: [window[i]] for [i < size]. *)
Definition hannWindow (size : nat) : list (option R) :=
  map (hannCoefficient size) (seq 0 size).

(** [a == b] for two numbers: false when one of them is [NaN]. *)
Definition equalNumbers (a b : option R) : Prop :=
  match a, b with
  | Some x, Some y => x = y
  | _, _ => False
  end.

(** The symmetry as the specification words it, for one size. *)
Definition hann_symmetric_as_specified (size : nat) : Prop :=
  forall i : nat, (i < size)%nat ->
    equalNumbers (nth i (hannWindow size) None) (nth (size - 1 - i) (hannWindow size) None).

Lemma hannWindow_nth (size i : nat) :
  (i < size)%nat -> nth i (hannWindow size) None = hannCoefficient size i.
Proof.
  intros Hi. unfold hannWindow.
  rewrite (nth_indep _ None (hannCoefficient size 0)) by now rewrite length_map, length_seq.
  rewrite map_nth, seq_nth by exact Hi. reflexivity.
Qed.

End Window.

(** Pi to eighteen places, from the series of arctan(1/3) and
    arctan(1/7). *)
Lemma PI_18_places : 3.141592653589793238 < PI < 3.141592653589793239.
Proof.
  pose proof (PI_2_3_7_ineq 9) as [Hlo Hhi].
  unfold PI_2_3_7_tg, tg_alt, Ratan_seq in Hlo, Hhi.
  cbn [sum_f_R0 Nat.mul Nat.add] in Hlo, Hhi. simpl in Hlo, Hhi.
  split; lra.
Qed.

(** *** The Hann window of size 4 in double precision *)

(** The cosine just below two thirds of pi. *)
Lemma cos_below_2PI3 (x : R) :
  0 <= 2 * (PI / 3) - x <= / 1000 ->
  - / 2 + 866 / 1000 * (2 * (PI / 3) - x) * (1 - / 1000000) <= cos x <= - 49 / 100.
Proof.
  intros Ha. set (a := 2 * (PI / 3) - x) in *.
  replace x with (2 * (PI / 3) - a) by (unfold a; ring).
  rewrite cos_minus, cos_2PI3, sin_2PI3.
  assert (Hroot : 1732 / 1000 <= sqrt 3 <= 1733 / 1000).
  { pose proof (sqrt_pos 3) as Hpos. pose proof (sqrt_sqrt 3 ltac:(lra)) as Hsq.
    split; [destruct (Rle_lt_dec (1732 / 1000) (sqrt 3)) | destruct (Rle_lt_dec (sqrt 3) (1733 / 1000))];
      try assumption; exfalso; nra. }
  assert (Hsin_hi : sin a <= a).
  { destruct Ha as [[Hpos|<-] _]; [left; now apply sin_lt_x | rewrite sin_0; lra]. }
  assert (HPI : a <= PI) by (pose proof PI_18_places; lra).
  assert (Hsin : a * (1 - / 1000000) <= sin a).
  { pose proof (SIN a ltac:(lra) HPI) as [Hsin_lo _].
    unfold sin_lb, sin_approx in Hsin_lo. cbn [sum_f_R0] in Hsin_lo.
    unfold sin_term in Hsin_lo.
    change (2 * 0 + 1)%nat with 1%nat in Hsin_lo.
    change (2 * 1 + 1)%nat with 3%nat in Hsin_lo.
    change (2 * 2 + 1)%nat with 5%nat in Hsin_lo.
    change (2 * 3 + 1)%nat with 7%nat in Hsin_lo.
    replace (INR (fact 1)) with 1 in Hsin_lo by (rewrite INR_IZR_INZ; reflexivity).
    replace (INR (fact 3)) with 6 in Hsin_lo by (rewrite INR_IZR_INZ; reflexivity).
    replace (INR (fact 5)) with 120 in Hsin_lo by (rewrite INR_IZR_INZ; reflexivity).
    replace (INR (fact 7)) with 5040 in Hsin_lo by (rewrite INR_IZR_INZ; reflexivity).
    assert (Hb : 0 <= a * a <= / 1000000) by nra.
    set (b := a * a) in *.
    assert (E : (-1) ^ 0 * (a ^ 1 / 1) + (-1) ^ 1 * (a ^ 3 / 6) + (-1) ^ 2 * (a ^ 5 / 120)
                + (-1) ^ 3 * (a ^ 7 / 5040)
                = a * (1 - b / 6 + b * b / 120 - b * b * b / 5040)).
    { unfold b. field. }
    rewrite E in Hsin_lo.
    assert (Hbracket : 1 - / 1000000 <= 1 - b / 6 + b * b / 120 - b * b * b / 5040) by nra.
    nra. }
  assert (Hcos_pos : 0 < cos a).
  { apply cos_gt_0; pose proof PI_18_places; lra. }
  pose proof (COS_bound a) as [_ Hcos_hi].
  assert (Hcos_lo : 1 - / 1000000 <= cos a).
  { pose proof (sin2_cos2 a) as H. unfold Rsqr in H.
    assert (0 <= sin a) by nra.
    assert (sin a * sin a <= / 1000000) by nra.
    nra. }
  split; nra.
Qed.

(** The doubles met on the way. *)
Definition x1 : R := 4716158501352293 / 2 ^ 51.   (* 2 * Math.PI * 1 / 3 *)

Lemma double_dyadic (m : Z) (n : nat) :
  (Z.abs m < 2 ^ 53)%Z -> (n <= 1074)%nat -> double (IZR m / 2 ^ n).
Proof.
  intros Hm Hn.
  replace (IZR m / 2 ^ n) with (IZR m * powerRZ 2 (- Z.of_nat n)).
  - apply double_scaled; [exact Hm | lia].
  - rewrite powerRZ_neg', <- pow_powerRZ. reflexivity.
Qed.

Lemma small_magnitude (x : R) : Rabs x <= 16 -> Rabs x <= powerRZ 2 1023.
Proof.
  intros Hx. apply Rle_trans with (powerRZ 2 4); [simpl; lra | apply pow2_le; lia].
Qed.

Section Size4.

Variable A : Arithmetic.
Hypothesis ieee : binary64 A.

Lemma round_small_double (x : R) : double x -> Rabs x <= 16 -> round A x = x.
Proof. intros Hd Hx. apply (round_id A ieee); [exact Hd | now apply small_magnitude]. Qed.

(** [2 * Math.PI * i / (size - 1)] for [size = 4] and [i = 1, 2]. *)
Lemma hann4_argument_1 :
  div A (mul A (mul A 2 (Math_PI A)) (INR 1)) (sub A (INR 4) 1) = x1.
Proof.
  unfold mul, div, sub. rewrite (PI_nearest A ieee). unfold Math_PI_double.
  replace (INR 4 - 1) with (IZR 3) by (simpl; lra).
  replace (INR 1) with 1 by reflexivity.
  replace (2 * (884279719003555 / 2 ^ 48)) with (IZR 884279719003555 / 2 ^ 47) by field.
  rewrite (round_small_double (IZR 884279719003555 / 2 ^ 47));
    [|apply double_dyadic; lia | apply Rabs_le; lra].
  rewrite Rmult_1_r.
  rewrite (round_small_double (IZR 884279719003555 / 2 ^ 47));
    [|apply double_dyadic; lia | apply Rabs_le; lra].
  rewrite (round_small_double (IZR 3)); [|apply double_IZR; lia | apply Rabs_le; lra].
  apply (round_to A ieee _ _ 1).
  - apply double_dyadic; lia.
  - simpl. lra.
  - unfold x1. simpl. lra.
  - lia.
  - apply small_magnitude, Rabs_le. lra.
  - unfold x1. simpl. apply Rabs_def1; lra.
Qed.

Lemma hann4_argument_2 :
  div A (mul A (mul A 2 (Math_PI A)) (INR 2)) (sub A (INR 4) 1) = 2 * x1.
Proof.
  unfold mul, div, sub. rewrite (PI_nearest A ieee). unfold Math_PI_double.
  replace (INR 4 - 1) with (IZR 3) by (simpl; lra).
  replace (INR 2) with 2 by (simpl; lra).
  replace (2 * (884279719003555 / 2 ^ 48)) with (IZR 884279719003555 / 2 ^ 47) by field.
  rewrite (round_small_double (IZR 884279719003555 / 2 ^ 47));
    [|apply double_dyadic; lia | apply Rabs_le; lra].
  replace (IZR 884279719003555 / 2 ^ 47 * 2) with (IZR 884279719003555 / 2 ^ 46) by field.
  rewrite (round_small_double (IZR 884279719003555 / 2 ^ 46));
    [|apply double_dyadic; lia | apply Rabs_le; lra].
  rewrite (round_small_double (IZR 3)); [|apply double_IZR; lia | apply Rabs_le; lra].
  apply (round_to A ieee _ _ 2).
  - replace (2 * x1) with (IZR 4716158501352293 / 2 ^ 50) by (unfold x1; field).
    apply double_dyadic; lia.
  - simpl. lra.
  - unfold x1. simpl. lra.
  - lia.
  - apply small_magnitude, Rabs_le. lra.
  - unfold x1. simpl. apply Rabs_def1; lra.
Qed.

End Size4.

Lemma cos_x1 : - / 2 + / 2 ^ 53 <= cos x1 /\ cos (2 * x1) <= - / 2 - 3 / 2 ^ 53.
Proof.
  pose proof PI_18_places as HPI.
  assert (Ha : 229 / 10 ^ 18 <= 2 * (PI / 3) - x1 <= 231 / 10 ^ 18) by (unfold x1; lra).
  destruct (cos_below_2PI3 x1) as [Hlo Hhi]; [lra|].
  assert (Heps : - / 2 + 198 / 10 ^ 18 <= cos x1) by lra.
  split; [lra|].
  rewrite cos_2a_cos.
  assert (H53 : 3 / 2 ^ 53 <= 334 / 10 ^ 18) by lra.
  nra.
Qed.

Section Size4_coefficients.

Variable A : Arithmetic.
Hypothesis ieee : binary64 A.

Lemma hann4_denominator : sub A (INR 4) 1 = 3.
Proof.
  unfold sub. replace (INR 4 - 1) with (IZR 3) by (simpl; lra).
  apply (round_small_double A ieee); [apply double_IZR; lia | apply Rabs_le; lra].
Qed.

(** The last two operations, [0.5 * (1 - c)], on a cosine that is at
    least [-1/2]: the result is at most 3/4. *)
Lemma hann_tail_le (c : R) : - / 2 <= c <= 2 -> mul A 0.5 (sub A 1 c) <= 3 / 4.
Proof.
  intros Hc. unfold mul, sub.
  assert (H32 : double (3 / 2)).
  { replace (3 / 2) with (IZR 3 / 2 ^ 1) by (simpl; lra). apply double_dyadic; lia. }
  assert (H34 : double (3 / 4)).
  { replace (3 / 4) with (IZR 3 / 2 ^ 2) by (simpl; lra). apply double_dyadic; lia. }
  assert (Hminus : double (-1)) by (apply (double_IZR (-1)); lia).
  assert (Hs_hi : round A (1 - c) <= 3 / 2).
  { apply (round_le A ieee); [exact H32 | apply small_magnitude, Rabs_le; lra | lra]. }
  assert (Hs_lo : -1 <= round A (1 - c)).
  { apply (round_ge A ieee); [exact Hminus | apply small_magnitude, Rabs_le; lra | lra]. }
  apply (round_le A ieee); [exact H34 | apply small_magnitude, Rabs_le; lra | lra].
Qed.

(** On a cosine that is at most [-1/2 - 2 ^ -52] the result is at least
    [3/4 + 2 ^ -53]. *)
Lemma hann_tail_ge (c : R) :
  -2 <= c <= - / 2 - / 2 ^ 52 -> 3 / 4 + / 2 ^ 53 <= mul A 0.5 (sub A 1 c).
Proof.
  intros Hc. unfold mul, sub.
  assert (H32 : double (3 / 2 + / 2 ^ 52)).
  { replace (3 / 2 + / 2 ^ 52) with (IZR 6755399441055745 / 2 ^ 52) by (simpl; lra).
    apply double_dyadic; lia. }
  assert (H34 : double (3 / 4 + / 2 ^ 53)).
  { replace (3 / 4 + / 2 ^ 53) with (IZR 6755399441055745 / 2 ^ 53) by (simpl; lra).
    apply double_dyadic; lia. }
  assert (H3 : double 3) by (apply (double_IZR 3); lia).
  assert (Hs_lo : 3 / 2 + / 2 ^ 52 <= round A (1 - c)).
  { apply (round_ge A ieee); [exact H32 | apply small_magnitude, Rabs_le; lra | lra]. }
  assert (Hs_hi : round A (1 - c) <= 3).
  { apply (round_le A ieee); [exact H3 | apply small_magnitude, Rabs_le; lra | lra]. }
  apply (round_ge A ieee); [exact H34 | apply small_magnitude, Rabs_le; lra | lra].
Qed.

(** The window of size 4: the second coefficient is at most 3/4 and the
    third is above it. *)
Lemma hann4_coefficients :
  exists w1 w2 : R,
    hannCoefficient A 4 1 = Some w1 /\ hannCoefficient A 4 2 = Some w2 /\
    w1 <= 3 / 4 /\ 3 / 4 + / 2 ^ 53 <= w2.
Proof.
  destruct cos_x1 as [Hcos1 Hcos2].
  assert (Hx1 : 2 <= x1 <= 3) by (unfold x1; lra).
  pose proof (cos_accurate A ieee x1 ltac:(lra)) as Hc1. apply Rabs_le_inv in Hc1.
  pose proof (cos_accurate A ieee (2 * x1) ltac:(lra)) as Hc2. apply Rabs_le_inv in Hc2.
  pose proof (COS_bound x1) as Hb1. pose proof (COS_bound (2 * x1)) as Hb2.
  assert (H5253 : / 2 ^ 52 = 2 / 2 ^ 53) by lra.
  unfold hannCoefficient. cbv zeta.
  rewrite (hann4_argument_1 A ieee), (hann4_argument_2 A ieee), hann4_denominator.
  destruct (Req_dec_T 3 0) as [E|_]; [lra|].
  eexists. eexists. split; [reflexivity|]. split; [reflexivity|]. split.
  - apply hann_tail_le. lra.
  - apply hann_tail_ge. lra.
Qed.

End Size4_coefficients.


(** *** The accuracy of a coefficient *)

(** The cosine changes no faster than its argument. *)
Lemma sin_abs_le (y : R) : Rabs (sin y) <= Rabs y.
Proof.
  assert (Hpos : forall z, 0 <= z -> Rabs (sin z) <= z).
  { intros z Hz. apply Rabs_le. pose proof (SIN_bound z) as [Hlo Hhi].
    destruct (Rle_lt_dec z 1) as [Hsmall|Hlarge].
    - assert (HPI : z <= PI) by (pose proof PI_18_places; lra).
      pose proof (sin_ge_0 z Hz HPI).
      destruct Hz as [Hz|<-]; [pose proof (sin_lt_x z Hz); lra | rewrite sin_0; lra].
    - lra. }
  unfold Rabs at 2. destruct (Rcase_abs y) as [Hneg|Hnonneg].
  - rewrite <- (Rabs_Ropp (sin y)), <- sin_neg. apply Hpos. lra.
  - apply Hpos. lra.
Qed.

Lemma cos_lipschitz (a b : R) : Rabs (cos a - cos b) <= Rabs (a - b).
Proof.
  rewrite form2, !Rabs_mult.
  pose proof (sin_abs_le ((a - b) / 2)) as H1.
  pose proof (SIN_bound ((a + b) / 2)) as H2.
  assert (H3 : Rabs (sin ((a + b) / 2)) <= 1) by (apply Rabs_le; lra).
  assert (H4 : Rabs ((a - b) / 2) = Rabs (a - b) / 2).
  { unfold Rdiv. rewrite Rabs_mult, (Rabs_pos_eq (/ 2)) by lra. reflexivity. }
  rewrite H4 in H1.
  replace (Rabs (-2)) with 2 by (rewrite Rabs_left; lra).
  pose proof (Rabs_pos (sin ((a - b) / 2))). pose proof (Rabs_pos (sin ((a + b) / 2))).
  nra.
Qed.

Lemma normal_range (y : R) :
  / 2 ^ 40 <= y <= 2 ^ 40 -> powerRZ 2 (-1022) <= Rabs y <= powerRZ 2 1023.
Proof.
  intros [Hlo Hhi].
  assert (0 < / 2 ^ 40) by (apply Rinv_0_lt_compat; lra).
  rewrite Rabs_pos_eq by lra. split.
  - apply Rle_trans with (powerRZ 2 (-40)); [apply pow2_le; lia | simpl; lra].
  - apply Rle_trans with (powerRZ 2 40); [simpl; lra | apply pow2_le; lia].
Qed.

Section Accuracy.

Variable A : Arithmetic.
Hypothesis ieee : binary64 A.

Lemma round_within (y : R) :
  / 2 ^ 40 <= y <= 2 ^ 40 ->
  y * (1 - / 2 ^ 53) <= round A y <= y * (1 + / 2 ^ 53).
Proof.
  intros Hy. pose proof (round_relative A ieee y (normal_range y Hy)) as H.
  assert (0 < / 2 ^ 40) by (apply Rinv_0_lt_compat; lra).
  rewrite (Rabs_pos_eq y) in H by lra. apply Rabs_le_inv in H. lra.
Qed.

Lemma round_absolute_4 (x : R) : Rabs x <= 4 -> Rabs (round A x - x) <= / 2 ^ 51.
Proof.
  intros Hx.
  assert (H1023 : 4 <= powerRZ 2 1023).
  { apply Rle_trans with (powerRZ 2 2); [simpl; lra | apply pow2_le; lia]. }
  assert (Htiny : powerRZ 2 (-1022) <= / 2 ^ 51).
  { apply Rle_trans with (powerRZ 2 (-51)); [apply pow2_le; lia | simpl; lra]. }
  destruct (Rle_lt_dec (powerRZ 2 (-1022)) (Rabs x)) as [Hnormal|Hsmall].
  - eapply Rle_trans; [apply (round_relative A ieee); lra|].
    replace (/ 2 ^ 51) with (/ 2 ^ 53 * 4) by field.
    apply Rmult_le_compat_l; [left; apply Rinv_0_lt_compat; lra | exact Hx].
  - eapply Rle_trans; [apply (round_nearest A ieee x 0); [lra | apply double_0]|].
    replace (0 - x) with (- x) by ring. rewrite Rabs_Ropp. lra.
Qed.

(** The argument handed to [Math.cos] is within 15 units of [2 ^ -53] of
    [2 * pi * i / (size - 1)], and lies between 0 and 7. *)
Lemma hann_argument (n k : R) :
  1 <= n <= 2 ^ 32 -> k = 0 \/ 1 <= k -> k <= n ->
  let t := div A (mul A (mul A 2 (Math_PI A)) k) n in
  0 <= t <= 7 /\ Rabs (t - 2 * PI * k / n) <= 15 / 2 ^ 53.
Proof.
  intros Hn Hk Hkn t. unfold t, mul, div. clear t.
  rewrite (PI_nearest A ieee).
  pose proof PI_18_places as HPI.
  assert (HP : Rabs (Math_PI_double - PI) <= 124 / 10 ^ 18
               /\ 3 <= Math_PI_double <= 31416 / 10000).
  { unfold Math_PI_double. split; [apply Rabs_le|]; lra. }
  destruct HP as [HP HP3]. apply Rabs_le_inv in HP.
  assert (E2P : round A (2 * Math_PI_double) = 2 * Math_PI_double).
  { apply (round_small_double A ieee).
    - unfold Math_PI_double.
      replace (2 * (884279719003555 / 2 ^ 48)) with (IZR 884279719003555 / 2 ^ 47) by field.
      apply double_dyadic; lia.
    - apply Rabs_le. lra. }
  rewrite E2P.
  set (P := Math_PI_double) in *.
  assert (Hu : 0 < / 2 ^ 53 < / 10 ^ 15) by lra.
  assert (Hu' : 1109 / 10 ^ 19 <= / 2 ^ 53 <= 1111 / 10 ^ 19) by lra.
  set (u := / 2 ^ 53) in *.
  destruct Hk as [->|Hk1].
  - rewrite Rmult_0_r, (round_0 A ieee). unfold Rdiv. rewrite Rmult_0_l, (round_0 A ieee).
    rewrite !Rmult_0_r, Rmult_0_l, Rminus_diag, Rabs_R0. unfold u in *. lra.
  - assert (Hninv : 0 < / n <= 1).
    { split; [apply Rinv_0_lt_compat; lra|].
      rewrite <- Rinv_1. apply Rinv_le_contravar; lra. }
    assert (Hninv' : / 2 ^ 32 <= / n) by (apply Rinv_le_contravar; lra).
    set (r := k * / n).
    assert (Hr : 0 < r <= 1).
    { unfold r. split; [apply Rmult_lt_0_compat; lra|].
      apply Rmult_le_reg_r with n; [lra|]. rewrite Rmult_assoc, Rinv_l by lra. lra. }
    assert (Hrlo : / 2 ^ 32 <= r).
    { unfold r. replace (/ 2 ^ 32) with (1 * / 2 ^ 32) by ring.
      apply Rmult_le_compat; lra. }
    (* the product [2 * Math.PI * i] *)
    assert (Hy1 : 6 <= 2 * P * k <= 2 ^ 36).
    { assert (3 * 1 <= P * k) by (apply Rmult_le_compat; lra).
      assert (P * k <= 31416 / 10000 * 2 ^ 32) by (apply Rmult_le_compat; lra).
      lra. }
    pose proof (round_within (2 * P * k) ltac:(lra)) as Ht1. fold u in Ht1.
    set (t1 := round A (2 * P * k)) in *.
    (* the quotient *)
    assert (Ey2 : t1 / n = t1 * / n) by reflexivity.
    assert (Hq : 2 * P * k * / n = 2 * P * r) by (unfold r; ring).
    assert (Hy2 : 2 * P * r * (1 - u) <= t1 / n <= 2 * P * r * (1 + u)).
    { rewrite Ey2, <- Hq. split.
      - replace (2 * P * k * / n * (1 - u)) with (2 * P * k * (1 - u) * / n) by ring.
        apply Rmult_le_compat_r; lra.
      - replace (2 * P * k * / n * (1 + u)) with (2 * P * k * (1 + u) * / n) by ring.
        apply Rmult_le_compat_r; lra. }
    assert (Hq_range : 6 / 2 ^ 32 <= 2 * P * r <= 2 * (31416 / 10000)).
    { assert (3 * / 2 ^ 32 <= P * r) by (apply Rmult_le_compat; lra).
      assert (P * r <= 31416 / 10000 * 1) by (apply Rmult_le_compat; lra).
      lra. }
    set (q := 2 * P * r) in *.
    assert (Hqu : 0 <= q * u <= 2 * (31416 / 10000) * u).
    { split; [apply Rmult_le_pos; lra | apply Rmult_le_compat_r; lra]. }
    set (a := q * u) in *.
    assert (Ea1 : q * (1 + u) = q + a) by (unfold a; ring).
    assert (Ea2 : q * (1 - u) = q - a) by (unfold a; ring).
    rewrite Ea1, Ea2 in Hy2.
    assert (Hy2_range : / 2 ^ 40 <= t1 / n <= 2 ^ 40) by lra.
    pose proof (round_within (t1 / n) Hy2_range) as Ht2. fold u in Ht2.
    set (y2 := t1 / n) in *. set (t2 := round A y2) in *.
    assert (Hau : 0 <= a * u <= a * / 10 ^ 15).
    { split; [apply Rmult_le_pos; lra | apply Rmult_le_compat_l; lra]. }
    assert (Ht2' : q - 2 * a - a * u <= t2 <= q + 2 * a + a * u).
    { assert (E1 : (q + a) * (1 + u) = q + 2 * a + a * u) by (unfold a; ring).
      assert (E2 : (q - a) * (1 - u) = q - 2 * a + a * u) by (unfold a; ring).
      assert (H1 : y2 * (1 + u) <= (q + a) * (1 + u)) by (apply Rmult_le_compat_r; lra).
      assert (H2 : (q - a) * (1 - u) <= y2 * (1 - u)) by (apply Rmult_le_compat_r; lra).
      lra. }
    assert (Etheta : 2 * PI * k / n = 2 * PI * r) by (unfold r, Rdiv; ring).
    rewrite Etheta.
    assert (Hdiff : Rabs (q - 2 * PI * r) <= 2 * (124 / 10 ^ 18)).
    { replace (q - 2 * PI * r) with (2 * (r * (P - PI))) by (unfold q; ring).
      assert (r * (P - PI) <= r * (124 / 10 ^ 18)) by (apply Rmult_le_compat_l; lra).
      assert (r * - (124 / 10 ^ 18) <= r * (P - PI)) by (apply Rmult_le_compat_l; lra).
      apply Rabs_le. lra. }
    apply Rabs_le_inv in Hdiff.
    split; [lra|]. apply Rabs_le. lra.
Qed.

(** What [Math.cos] returns for it is within 16 units of the cosine of
    [2 * pi * i / (size - 1)]. *)
Lemma hann_cosine (n k : R) :
  1 <= n <= 2 ^ 32 -> k = 0 \/ 1 <= k -> k <= n ->
  Rabs (Math_cos A (div A (mul A (mul A 2 (Math_PI A)) k) n) - cos (2 * PI * k / n))
  <= 16 / 2 ^ 53.
Proof.
  intros Hn Hk Hkn.
  destruct (hann_argument n k Hn Hk Hkn) as [Hrange Hnear]. cbv zeta in Hrange, Hnear.
  set (t := div A (mul A (mul A 2 (Math_PI A)) k) n) in *.
  pose proof (cos_accurate A ieee t Hrange) as Hcos.
  pose proof (cos_lipschitz t (2 * PI * k / n)) as Hlip.
  replace (Math_cos A t - cos (2 * PI * k / n))
    with ((Math_cos A t - cos t) + (cos t - cos (2 * PI * k / n))) by ring.
  eapply Rle_trans; [apply Rabs_triang|]. lra.
Qed.

(** The last two operations add at most 6 units. *)
Lemma hann_tail (c c' : R) :
  -1 <= c' <= 1 -> Rabs (c - c') <= 16 / 2 ^ 53 ->
  Rabs (mul A 0.5 (sub A 1 c) - 0.5 * (1 - c')) <= / 2 ^ 49.
Proof.
  intros Hc' Hc. apply Rabs_le_inv in Hc. unfold mul, sub.
  assert (Hu : 0 < / 2 ^ 53 < / 10 ^ 15) by lra.
  pose proof (round_absolute_4 (1 - c) ltac:(apply Rabs_le; lra)) as Hs.
  apply Rabs_le_inv in Hs.
  set (s := round A (1 - c)) in *.
  assert (H51 : / 2 ^ 51 = 4 / 2 ^ 53) by lra.
  pose proof (round_absolute_4 (0.5 * s) ltac:(apply Rabs_le; lra)) as Hw.
  apply Rabs_le_inv in Hw.
  assert (H49 : / 2 ^ 49 = 16 / 2 ^ 53) by lra.
  apply Rabs_le. lra.
Qed.

(** Each coefficient of a window of at least two entries is a number,
    within [2 ^ -49] of [0.5 * (1 - cos(2 * pi * i / (size - 1)))]. *)
Lemma hannCoefficient_accurate (size i : nat) :
  (2 <= size)%nat -> (Z.of_nat size <= 2 ^ 32)%Z -> (i < size)%nat ->
  exists w : R,
    hannCoefficient A size i = Some w /\
    Rabs (w - 0.5 * (1 - cos (2 * PI * INR i / (INR size - 1)))) <= / 2 ^ 49.
Proof.
  intros Hsize Hmax Hi.
  assert (En : INR size - 1 = IZR (Z.of_nat size - 1)).
  { rewrite minus_IZR, <- INR_IZR_INZ. reflexivity. }
  assert (Hn : 1 <= INR size - 1 <= 2 ^ 32).
  { rewrite En. split.
    - apply IZR_le. lia.
    - replace (2 ^ 32) with (IZR (2 ^ 32)) by (rewrite pow_IZR; reflexivity).
      apply IZR_le. lia. }
  assert (Hden : sub A (INR size) 1 = INR size - 1).
  { unfold sub. apply (round_id A ieee).
    - rewrite En. apply double_IZR. lia.
    - rewrite Rabs_pos_eq by lra.
      apply Rle_trans with (powerRZ 2 32); [simpl; lra | apply pow2_le; lia]. }
  assert (Hk : INR i = 0 \/ 1 <= INR i).
  { destruct i as [|i]; [left; reflexivity | right].
    rewrite S_INR. pose proof (pos_INR i). lra. }
  assert (Hkn : INR i <= INR size - 1).
  { replace (INR size - 1) with (INR (size - 1)).
    - apply le_INR. lia.
    - rewrite minus_INR by lia. reflexivity. }
  unfold hannCoefficient. cbv zeta. rewrite Hden.
  destruct (Req_dec_T (INR size - 1) 0) as [E|_]; [lra|].
  eexists. split; [reflexivity|].
  apply hann_tail; [apply COS_bound|].
  apply hann_cosine; assumption.
Qed.

End Accuracy.

(** The angle at [i] and at its mirror image have the same cosine. *)
Lemma hann_mirror (size i : nat) :
  (2 <= size)%nat -> (i < size)%nat ->
  cos (2 * PI * INR (size - 1 - i) / (INR size - 1))
  = cos (2 * PI * INR i / (INR size - 1)).
Proof.
  intros Hsize Hi.
  assert (Hden : INR size - 1 <> 0).
  { replace 1 with (INR 1) by reflexivity. rewrite <- minus_INR by lia.
    apply not_0_INR. lia. }
  replace (size - 1 - i)%nat with (size - (1 + i))%nat by lia.
  rewrite minus_INR by lia. rewrite plus_INR. simpl (INR 1).
  replace (2 * PI * (INR size - (1 + INR i)) / (INR size - 1))
    with (2 * PI - 2 * PI * INR i / (INR size - 1)) by (field; exact Hden).
  rewrite cos_minus, cos_2PI, sin_2PI. lra.
Qed.



(** Without rounding, and with the cosine and pi themselves, the two
    coefficients are the same number. *)
Definition exactArithmetic : Arithmetic :=
  {| round := fun x => x; Math_cos := cos; Math_PI := PI |}.

Lemma hannWindow_exact_symmetric (size i : nat) :
  (2 <= size)%nat -> (i < size)%nat ->
  nth i (hannWindow exactArithmetic size) None
  = nth (size - 1 - i) (hannWindow exactArithmetic size) None.
Proof.
  intros Hsize Hi. rewrite !hannWindow_nth by lia.
  unfold hannCoefficient, mul, div, sub. cbn [round Math_cos Math_PI exactArithmetic].
  destruct (Req_dec_T (INR size - 1) 0) as [|_]; [reflexivity|].
  f_equal. f_equal. f_equal.
  symmetry. exact (hann_mirror size i Hsize Hi).
Qed.

Example hanning_selects_hann : selectsHann "Hanning" = true /\ selectsHann "HANN" = true.
Proof. split; reflexivity. Qed.

Example boxcar_selects_default : selectsHann "boxcar" = false.
Proof. reflexivity. Qed.

(** *** The constructor of [class FFT]

    The size is an integer.  The guard of the constructor tests
    [Number.isInteger(Math.log2(size))].  Two embeddings follow.  In
    [FFT_new] the logarithm is taken exactly: the test then holds exactly
    when [size] is [2 ^ k] for a natural [k] ([Math.log2] of 0 is
    [-Infinity] and of a negative number [NaN], neither of which is an
    integer).  In [FFT_constructor], further down, [Math.log2] is the
    engine's function in double precision, taken as a parameter; the two
    agree on every size below [2 ^ 32] ([FFT_constructor_below]). *)

Inductive Exception : Type :=
  | Error (message : string)        (* throw new Error(message) *)
  | RangeError (message : string).  (* raised by [new Array(len)] *)

Record Twiddle : Type := mkTwiddle { real : R; imag : R }.

Record FFT : Type := mkFFT {
  size : Z;
  log2Size : Z;
  bitReversalIndices : list Z;
  twiddleFactors : list Twiddle
}.

(** [Math.log2(size)] when it is an integer, for the exact logarithm. *)
Definition log2_if_integer (size : Z) : option Z :=
  if ((0 <? size) && (size =? 2 ^ Z.log2 size))%Z then Some (Z.log2 size) else None.

(** [new Array(len)] raises a [RangeError] unless [len] is an integer
    from 0 to [2^32 - 1]. *)
Definition validArrayLength (len : Q) : bool :=
  (Qeq_bool len (inject_Z (Qfloor len))
   && (0 <=? Qfloor len)%Z && (Qfloor len <? 2 ^ 32)%Z)%bool.

(** Conversion to a signed 32-bit integer, as the bit operators do. *)
Definition toInt32 (z : Z) : Z := ((z + 2 ^ 31) mod 2 ^ 32 - 2 ^ 31)%Z.

(** [reverseBits(num, bits)]:
    [for i < bits: result = (result << 1) | (num & 1); num >>= 1]. *)
Definition reverseBits (num bits : Z) : Z :=
  fst (fold_left
         (fun '(result, num) (_ : nat) =>
            (toInt32 (Z.lor (Z.shiftl result 1) (Z.land num 1)),
             Z.shiftr (toInt32 num) 1))
         (seq 0 (Z.to_nat bits)) (0%Z, num)).

(** The constructor after its guard: the two tables, for [log2Size] the
    integer [Math.log2(size)]. *)
Definition FFT_tables (size log2Size : Z) : Exception + FFT :=
  if negb (validArrayLength (inject_Z size)) then
    inl (RangeError "Invalid array length")
  else
    let bitReversalIndices :=
      map (fun i => reverseBits (Z.of_nat i) log2Size) (seq 0 (Z.to_nat size)) in
    if negb (validArrayLength (inject_Z size / 2)) then
      inl (RangeError "Invalid array length")
    else
      let twiddleFactors :=
        map (fun i =>
               let angle := -2 * PI * INR i / IZR size in
               {| real := cos angle; imag := sin angle |})
            (seq 0 (Z.to_nat (size / 2))) in
      inr {| size := size;
             log2Size := log2Size;
             bitReversalIndices := bitReversalIndices;
             twiddleFactors := twiddleFactors |}.

(** [new FFT(size)] with [Math.log2] taken exactly: the exception thrown,
    or the object built. *)
Definition FFT_new (size : Z) : Exception + FFT :=
  match log2_if_integer size with
  | None => inl (Error "FFT size must be a power of 2")
  | Some log2Size => FFT_tables size log2Size
  end.

Definition power_of_two (size : Z) : Prop := exists k : Z, (0 <= k)%Z /\ size = (2 ^ k)%Z.

Lemma log2_if_integer_pow2 (k : Z) :
  (0 <= k)%Z -> log2_if_integer (2 ^ k) = Some k.
Proof.
  intros Hk. unfold log2_if_integer. rewrite Z.log2_pow2 by exact Hk.
  assert (0 < 2 ^ k)%Z by (apply Z.pow_pos_nonneg; lia).
  destruct (Z.ltb_spec 0 (2 ^ k)); [|lia].
  rewrite Z.eqb_refl. reflexivity.
Qed.

Lemma log2_if_integer_not_pow2 (size : Z) :
  ~ power_of_two size -> log2_if_integer size = None.
Proof.
  intros Hnot. unfold log2_if_integer.
  destruct (Z.ltb_spec 0 size) as [Hpos|]; [|reflexivity].
  destruct (Z.eqb_spec size (2 ^ Z.log2 size)) as [E|]; [|reflexivity].
  exfalso. apply Hnot. exists (Z.log2 size). split; [apply Z.log2_nonneg | exact E].
Qed.

Lemma validArrayLength_integer (z : Z) :
  (0 <= z < 2 ^ 32)%Z -> validArrayLength (inject_Z z) = true.
Proof.
  intros Hz. unfold validArrayLength. rewrite Qfloor_Z.
  rewrite Qeq_bool_refl.
  destruct (Z.leb_spec 0 z); [|lia]. destruct (Z.ltb_spec z (2 ^ 32)); [|lia].
  reflexivity.
Qed.

Lemma validArrayLength_half (k : Z) :
  (1 <= k <= 32)%Z -> validArrayLength (inject_Z (2 ^ k) / 2) = true.
Proof.
  intros Hk.
  assert (E : (inject_Z (2 ^ k) / 2 == inject_Z (2 ^ (k - 1)))%Q).
  { assert (Hp : (2 ^ k = 2 ^ (k - 1) * 2)%Z).
    { replace k with (Z.succ (k - 1)) at 1 by lia.
      rewrite Z.pow_succ_r by lia. lia. }
    rewrite Hp, inject_Z_mult. field. }
  assert (Hlt : (0 <= 2 ^ (k - 1) < 2 ^ 32)%Z).
  { split; [apply Z.pow_nonneg; lia | apply Z.pow_lt_mono_r; lia]. }
  pose proof (validArrayLength_integer _ Hlt) as Hvalid.
  unfold validArrayLength in *.
  rewrite (Qfloor_comp _ _ E).
  apply andb_true_iff in Hvalid. destruct Hvalid as [Hvalid H3].
  apply andb_true_iff in Hvalid. destruct Hvalid as [H1 H2].
  rewrite H2, H3, !andb_true_r.
  apply Qeq_bool_iff. rewrite E. apply Qeq_bool_iff in H1. exact H1.
Qed.

(** *** The constructor with the engine's [Math.log2]

    [Math.log2] is computed by the engine in double precision, so its
    result is a rational.  The constructor below takes that function as a
    parameter; what is assumed of it is stated in [Log2_accurate]: it
    returns [k] at [2 ^ k], and on the positive integers below [2 ^ 32] it
    is within [2 ^ -40] of the logarithm (a double near a value below 32
    has neighbours [2 ^ -48] away or closer).  Further up the logarithm of
    an integer that is not a power of two can round to an integer: the
    logarithm of [2 ^ 52 + 1] differs from 52 by less than the spacing of
    the doubles near 52. *)

Record Log2_accurate (Math_log2 : Z -> Q) : Prop := {
  log2_of_power : forall k : Z, (0 <= k <= 1023)%Z -> (Math_log2 (2 ^ k)%Z == inject_Z k)%Q;
  log2_close : forall n : Z, (0 < n < 2 ^ 32)%Z ->
                 Rabs (Q2R (Math_log2 n) - ln (IZR n) / ln 2) <= / 2 ^ 40
}.

Section Engine.

Variable Math_log2 : Z -> Q.

(** [Number.isInteger(x)] for a number [x]. *)
Definition Number_isInteger (x : Q) : bool := Qeq_bool x (inject_Z (Qfloor x)).

(** [new FFT(size)]: the exception thrown, or the object built.
    [Math.log2] of 0 is [-Infinity] and of a negative number [NaN], and
    neither is an integer. *)
Definition FFT_constructor (size : Z) : Exception + FFT :=
  if (size <=? 0)%Z then inl (Error "FFT size must be a power of 2")
  else
    let log2Size := Math_log2 size in
    if negb (Number_isInteger log2Size) then inl (Error "FFT size must be a power of 2")
    else FFT_tables size (Qfloor log2Size).

(** The size guard as the specification words it. *)
Definition size_guard_as_specified (size : Z) : Prop :=
  (power_of_two size -> exists fft, FFT_constructor size = inr fft) /\
  (~ power_of_two size -> exists message, FFT_constructor size = inl (Error message)).

End Engine.

Lemma ln_2_bounds : 0 < ln 2 < 1.
Proof.
  split.
  - rewrite <- ln_1. apply ln_increasing; lra.
  - rewrite <- (ln_exp 1). apply ln_increasing; [lra|].
    pose proof (exp_ineq1 1 ltac:(lra)). lra.
Qed.

Lemma ln_monotone (x y : R) : 0 < x -> x <= y -> ln x <= ln y.
Proof.
  intros Hx [Hlt | ->]; [left; now apply ln_increasing | right; reflexivity].
Qed.

(** [x / 2 <= ln (1 + x)] for [0 <= x <= 1], and [ln (1 - x) <= - x] for
    [0 <= x < 1]. *)
Lemma ln_1_plus (x : R) : 0 <= x <= 1 -> x / 2 <= ln (1 + x).
Proof.
  intros Hx.
  assert (Hexp : exp (x / 2) <= 1 + x).
  { pose proof (exp_ineq1_le (- (x / 2))) as Hlow. rewrite exp_Ropp in Hlow.
    pose proof (exp_pos (x / 2)) as Hpos.
    assert (H1 : (1 - x / 2) * exp (x / 2) <= 1).
    { replace 1 with (/ exp (x / 2) * exp (x / 2)) at 2 by (field; lra).
      apply Rmult_le_compat_r; lra. }
    nra. }
  rewrite <- (ln_exp (x / 2)). apply ln_monotone; [apply exp_pos | exact Hexp].
Qed.

Lemma ln_1_minus (x : R) : 0 <= x < 1 -> ln (1 - x) <= - x.
Proof.
  intros Hx. rewrite <- (ln_exp (- x)). apply ln_monotone; [lra|].
  pose proof (exp_ineq1_le (- x)). lra.
Qed.

Lemma ln_pow2 (k : Z) : (0 <= k)%Z -> ln (IZR (2 ^ k)) = IZR k * ln 2.
Proof.
  intros Hk. rewrite <- (Z2Nat.id k Hk) at 1. rewrite <- pow_IZR.
  rewrite ln_pow by lra. rewrite INR_IZR_INZ, Z2Nat.id by exact Hk. reflexivity.
Qed.

(** An integer below [2 ^ 32] whose logarithm is within [2 ^ -40] of an
    integer is a power of two. *)
Lemma log2_near_integer (n z : Z) :
  (0 < n < 2 ^ 32)%Z ->
  Rabs (IZR z - ln (IZR n) / ln 2) <= / 2 ^ 40 ->
  (0 <= z)%Z /\ n = (2 ^ z)%Z.
Proof.
  intros Hn Hclose.
  destruct ln_2_bounds as [Hln2 Hln2'].
  pose proof (Z.log2_spec n ltac:(lia)) as [Hlo Hhi].
  pose proof (Z.log2_nonneg n) as Hk0.
  set (k := Z.log2 n) in *.
  assert (Hk31 : (k <= 31)%Z).
  { apply Z.lt_succ_r. apply (Z.pow_lt_mono_r_iff 2); lia. }
  assert (Hnpos : 0 < IZR n) by (apply IZR_lt; lia).
  assert (Hpk : (0 < 2 ^ k)%Z) by (apply Z.pow_pos_nonneg; lia).
  (* the distance in units of [ln 2] *)
  assert (Hdist : Rabs (IZR z * ln 2 - ln (IZR n)) <= / 2 ^ 40 * ln 2).
  { replace (IZR z * ln 2 - ln (IZR n)) with ((IZR z - ln (IZR n) / ln 2) * ln 2)
      by (field; lra).
    rewrite Rabs_mult, (Rabs_pos_eq (ln 2)) by lra.
    apply Rmult_le_compat_r; lra. }
  assert (Heps : / 2 ^ 40 * ln 2 < / 2 ^ 40).
  { assert (0 < / 2 ^ 40) by (apply Rinv_0_lt_compat; lra). nra. }
  apply Rabs_le_inv in Hdist.
  assert (Hlnlo : IZR k * ln 2 <= ln (IZR n)).
  { rewrite <- ln_pow2 by lia. apply ln_monotone; [apply IZR_lt; lia | apply IZR_le; lia]. }
  assert (Hlnhi : ln (IZR n) < IZR (k + 1) * ln 2).
  { rewrite <- ln_pow2 by lia. apply ln_increasing; [exact Hnpos | apply IZR_lt].
    unfold Z.succ in Hhi. exact Hhi. }
  rewrite plus_IZR in Hlnhi.
  (* [z] is [k] or [k + 1] *)
  assert (Hz : (k <= z <= k + 1)%Z).
  { split.
    - destruct (Z_lt_le_dec z k) as [Hlt|]; [|assumption]. exfalso.
      assert (IZR z <= IZR k - 1).
      { replace (IZR k - 1) with (IZR (k - 1)) by (rewrite minus_IZR; reflexivity).
        apply IZR_le. lia. }
      assert (/ 2 ^ 40 < 1) by lra.
      nra.
    - destruct (Z_lt_le_dec (k + 1) z) as [Hlt|]; [|assumption]. exfalso.
      assert (IZR k + 2 <= IZR z).
      { replace (IZR k + 2) with (IZR (k + 2)) by (rewrite plus_IZR; reflexivity).
        apply IZR_le. lia. }
      nra. }
  assert (Hp32 : / 2 ^ 32 <= / IZR (2 ^ (k + 1))).
  { apply Rinv_le_contravar; [apply IZR_lt, Z.pow_pos_nonneg; lia|].
    replace (2 ^ 32) with (IZR (2 ^ 32)) by (rewrite pow_IZR; reflexivity).
    apply IZR_le. apply Z.pow_le_mono_r; lia. }
  assert (H3240 : / 2 ^ 40 < / 2 ^ 32) by lra.
  destruct (Z.eq_dec z k) as [->|Hzk].
  - split; [exact Hk0|].
    destruct (Z.eq_dec n (2 ^ k)) as [E|Hne]; [exact E|]. exfalso.
    (* n >= 2 ^ k + 1 *)
    assert (Hn1 : IZR (2 ^ k) * (1 + / IZR (2 ^ k)) <= IZR n).
    { replace (IZR (2 ^ k) * (1 + / IZR (2 ^ k))) with (IZR (2 ^ k + 1)).
      - apply IZR_le. lia.
      - rewrite plus_IZR. field. apply not_0_IZR. lia. }
    assert (Hinv : 0 < / IZR (2 ^ k) <= 1).
    { split; [apply Rinv_0_lt_compat, IZR_lt; lia|].
      rewrite <- Rinv_1. apply Rinv_le_contravar; [lra|]. apply IZR_le. lia. }
    assert (Hln : IZR k * ln 2 + / IZR (2 ^ k) / 2 <= ln (IZR n)).
    { rewrite <- ln_pow2 by lia.
      eapply Rle_trans; [|apply ln_monotone; [|exact Hn1]].
      - rewrite ln_mult by (try apply IZR_lt; lra || lia).
        apply Rplus_le_compat_l. apply ln_1_plus. lra.
      - apply Rmult_lt_0_compat; [apply IZR_lt; lia | lra]. }
    assert (Hhalf : / IZR (2 ^ (k + 1)) = / IZR (2 ^ k) / 2).
    { rewrite Z.pow_add_r by lia. rewrite mult_IZR. change (IZR (2 ^ 1)) with 2.
      field. apply not_0_IZR. lia. }
    lra.
  - assert (z = k + 1)%Z by lia. subst z. exfalso.
    (* n <= 2 ^ (k + 1) - 1 *)
    assert (Hpk1 : (0 < 2 ^ (k + 1))%Z) by (apply Z.pow_pos_nonneg; lia).
    assert (Hn1 : IZR n <= IZR (2 ^ (k + 1)) * (1 - / IZR (2 ^ (k + 1)))).
    { replace (IZR (2 ^ (k + 1)) * (1 - / IZR (2 ^ (k + 1)))) with (IZR (2 ^ (k + 1) - 1)).
      - apply IZR_le. unfold Z.succ in Hhi. lia.
      - rewrite minus_IZR. field. apply not_0_IZR. lia. }
    assert (Hinv : 0 < / IZR (2 ^ (k + 1)) <= / 2).
    { split; [apply Rinv_0_lt_compat, IZR_lt; lia|].
      apply Rinv_le_contravar; [lra|]. apply IZR_le.
      change 2%Z with (2 ^ 1)%Z at 1. apply Z.pow_le_mono_r; lia. }
    assert (Hln : ln (IZR n) <= IZR (k + 1) * ln 2 - / IZR (2 ^ (k + 1))).
    { rewrite <- ln_pow2 by lia.
      eapply Rle_trans; [apply ln_monotone; [exact Hnpos | exact Hn1]|].
      rewrite ln_mult; [|apply IZR_lt; lia | lra].
      unfold Rminus at 2. apply Rplus_le_compat_l. apply ln_1_minus. lra. }
    rewrite plus_IZR in Hdist, Hln. lra.
Qed.

Lemma Q2R_inject_Z (z : Z) : Q2R (inject_Z z) = IZR z.
Proof. unfold Q2R, inject_Z. simpl. field. Qed.

Lemma Number_isInteger_spec (x : Q) :
  Number_isInteger x = true <-> (x == inject_Z (Qfloor x))%Q.
Proof. unfold Number_isInteger. apply Qeq_bool_iff. Qed.

Lemma FFT_tables_too_long (size log2Size : Z) :
  (2 ^ 32 <= size)%Z -> FFT_tables size log2Size = inl (RangeError "Invalid array length").
Proof.
  intros Hsize. unfold FFT_tables, validArrayLength. rewrite Qfloor_Z.
  destruct (Z.ltb_spec size (2 ^ 32)); [lia|].
  now rewrite andb_false_r.
Qed.

Section Guard.

Variable Math_log2 : Z -> Q.
Hypothesis accurate : Log2_accurate Math_log2.

(** A power of two passes the guard. *)
Lemma FFT_constructor_pow2 (k : Z) :
  (0 <= k <= 1023)%Z ->
  FFT_constructor Math_log2 (2 ^ k) = FFT_tables (2 ^ k) k.
Proof.
  intros Hk. unfold FFT_constructor.
  assert (Hpos : (0 < 2 ^ k)%Z) by (apply Z.pow_pos_nonneg; lia).
  destruct (Z.leb_spec (2 ^ k) 0); [lia|].
  pose proof (log2_of_power _ accurate k Hk) as E.
  assert (Efloor : Qfloor (Math_log2 (2 ^ k)) = k).
  { rewrite (Qfloor_comp _ _ E). apply Qfloor_Z. }
  assert (Eint : Number_isInteger (Math_log2 (2 ^ k)) = true).
  { apply Number_isInteger_spec. rewrite Efloor. exact E. }
  cbv zeta. rewrite Eint, Efloor. reflexivity.
Qed.

(** Below [2 ^ 32] nothing else does. *)
Lemma FFT_constructor_not_pow2 (size : Z) :
  (size < 2 ^ 32)%Z -> ~ power_of_two size ->
  FFT_constructor Math_log2 size = inl (Error "FFT size must be a power of 2").
Proof.
  intros Hsize Hnot. unfold FFT_constructor.
  destruct (Z.leb_spec size 0) as [|Hpos]; [reflexivity|].
  destruct (Number_isInteger (Math_log2 size)) eqn:Eint; [exfalso | reflexivity].
  apply Number_isInteger_spec in Eint.
  pose proof (log2_close _ accurate size ltac:(lia)) as Hclose.
  rewrite (Qreals.Qeq_eqR _ _ Eint), Q2R_inject_Z in Hclose.
  destruct (log2_near_integer size _ ltac:(lia) Hclose) as [Hz E].
  apply Hnot. exists (Qfloor (Math_log2 size)). split; assumption.
Qed.

(** So below [2 ^ 32] the constructor is [FFT_new], whatever the
    engine. *)
Lemma FFT_constructor_below (size : Z) :
  (size < 2 ^ 32)%Z -> FFT_constructor Math_log2 size = FFT_new size.
Proof.
  intros Hsize. unfold FFT_new.
  destruct (log2_if_integer size) as [k|] eqn:Elog.
  - unfold log2_if_integer in Elog.
    destruct (Z.ltb_spec 0 size) as [Hpos|]; [|discriminate].
    destruct (Z.eqb_spec size (2 ^ Z.log2 size)) as [E|]; [|discriminate].
    injection Elog as <-.
    pose proof (Z.log2_nonneg size) as Hk0.
    assert (Hk : (Z.log2 size < 32)%Z) by (apply Z.log2_lt_pow2; lia).
    revert E Hk0 Hk. generalize (Z.log2 size). intros k E Hk0 Hk. subst size.
    apply FFT_constructor_pow2. lia.
  - apply FFT_constructor_not_pow2; [exact Hsize|].
    intros (k & Hk & E). rewrite E, log2_if_integer_pow2 in Elog by exact Hk. discriminate.
Qed.

(** C4, as amended: constructing an FFT with an integer size that is not a
    power of two throws.  For every such size below [2 ^ 32] (0 and
    negative sizes included) it is the error "FFT size must be a power of
    2"; from [2 ^ 32] on it is that error, or the [RangeError] of
    [new Array(size)] when [Math.log2(size)] has rounded to an integer.
    Constructing with a power of two from 2 to [2 ^ 31] does not throw,
    and builds tables of [size] bit-reversal indices and [size / 2]
    twiddle factors. *)
Theorem FFT_size_guard (size : Z) :
  (~ power_of_two size -> (size < 2 ^ 32)%Z ->
   FFT_constructor Math_log2 size = inl (Error "FFT size must be a power of 2")) /\
  (~ power_of_two size -> exists exception, FFT_constructor Math_log2 size = inl exception) /\
  (forall k : Z, (1 <= k <= 31)%Z -> size = (2 ^ k)%Z ->
     exists fft,
       FFT_constructor Math_log2 size = inr fft /\
       AudioUtils.size fft = size /\ log2Size fft = k /\
       length (bitReversalIndices fft) = Z.to_nat size /\
       length (twiddleFactors fft) = Z.to_nat (size / 2)).
Proof.
  split; [|split].
  - intros Hnot Hsize. now apply FFT_constructor_not_pow2.
  - intros Hnot. destruct (Z_lt_le_dec size (2 ^ 32)) as [Hsize|Hsize].
    + eexists. now apply FFT_constructor_not_pow2.
    + unfold FFT_constructor.
      destruct (Z.leb_spec size 0); [eexists; reflexivity|].
      cbv zeta. destruct (Number_isInteger (Math_log2 size)); simpl negb; cbv iota.
      * rewrite FFT_tables_too_long by exact Hsize. eexists. reflexivity.
      * eexists. reflexivity.
  - intros k Hk ->. rewrite FFT_constructor_pow2 by lia. unfold FFT_tables.
    rewrite validArrayLength_integer.
    2:{ split; [apply Z.pow_nonneg; lia | apply Z.pow_lt_mono_r; lia]. }
    rewrite validArrayLength_half by lia.
    simpl negb. cbv iota.
    eexists. split; [reflexivity|]. simpl.
    rewrite !length_map, !length_seq. auto.
Qed.

(** When [Math.log2] rounds the logarithm of [2 ^ 52 + 1], which exceeds
    52 by less than a twentieth of the spacing of the doubles there, to 52,
    the guard lets the size pass and the first table cannot be allocated. *)
Lemma FFT_constructor_rounded_log2 :
  (Math_log2 (2 ^ 52 + 1) == 52)%Q ->
  FFT_constructor Math_log2 (2 ^ 52 + 1) = inl (RangeError "Invalid array length").
Proof.
  intros E. unfold FFT_constructor.
  destruct (Z.leb_spec (2 ^ 52 + 1) 0); [lia|]. cbv zeta.
  assert (Eint : Number_isInteger (Math_log2 (2 ^ 52 + 1)) = true).
  { apply Number_isInteger_spec. rewrite (Qfloor_comp _ _ E). exact E. }
  rewrite Eint. apply FFT_tables_too_long. lia.
Qed.

End Guard.

(** An instance: the logarithm cut off after 41 binary digits. *)
Definition log2_41_digits (n : Z) : Q :=
  Qmake (Int_part (ln (IZR n) / ln 2 * 2 ^ 41)) (2 ^ 41).

Lemma Int_part_IZR (z : Z) : Int_part (IZR z) = z.
Proof.
  destruct (base_Int_part (IZR z)) as [Hle Hgt].
  assert (H1 : (Int_part (IZR z) <= z)%Z) by now apply le_IZR.
  assert (H2 : (z - 1 < Int_part (IZR z))%Z).
  { apply lt_IZR. rewrite minus_IZR. lra. }
  lia.
Qed.

Lemma log2_41_digits_accurate : Log2_accurate log2_41_digits.
Proof.
  destruct ln_2_bounds as [Hln2 _].
  split.
  - intros k Hk. unfold log2_41_digits.
    rewrite ln_pow2 by lia.
    replace (IZR k * ln 2 / ln 2 * 2 ^ 41) with (IZR (k * 2 ^ 41)).
    + rewrite Int_part_IZR. unfold Qeq, inject_Z. simpl. lia.
    + rewrite mult_IZR. replace (IZR (2 ^ 41)) with (2 ^ 41) by (rewrite pow_IZR; reflexivity).
      field. lra.
  - intros n Hn. unfold log2_41_digits.
    set (y := ln (IZR n) / ln 2).
    destruct (base_Int_part (y * 2 ^ 41)) as [Hle Hgt].
    unfold Q2R. cbn [Qnum Qden].
    replace (IZR (Z.pos (2 ^ 41))) with (2 ^ 41) by (rewrite pow_IZR; reflexivity).
    apply Rabs_le.
    assert (Hp : 0 < 2 ^ 41) by lra.
    assert (E : IZR (Int_part (y * 2 ^ 41)) * / 2 ^ 41 - y
                = (IZR (Int_part (y * 2 ^ 41)) - y * 2 ^ 41) * / 2 ^ 41) by (field; lra).
    rewrite E.
    assert (Hinv : 0 < / 2 ^ 41) by (apply Rinv_0_lt_compat; exact Hp).
    assert (H41 : / 2 ^ 41 < / 2 ^ 40) by lra.
    split; nra.
Qed.

Lemma FFT_size_guard_witness :
  (~ power_of_two 100 -> (100 < 2 ^ 32)%Z ->
   FFT_constructor log2_41_digits 100 = inl (Error "FFT size must be a power of 2")) /\
  (~ power_of_two 100 ->
   exists exception, FFT_constructor log2_41_digits 100 = inl exception) /\
  (forall k : Z, (1 <= k <= 31)%Z -> 100%Z = (2 ^ k)%Z ->
     exists fft,
       FFT_constructor log2_41_digits 100 = inr fft /\
       AudioUtils.size fft = 100%Z /\ log2Size fft = k /\
       length (bitReversalIndices fft) = Z.to_nat 100 /\
       length (twiddleFactors fft) = Z.to_nat (100 / 2)).
Proof. exact (FFT_size_guard log2_41_digits log2_41_digits_accurate 100). Defined.

(** C4, as the specification states it, fails at two powers of two,
    whatever the engine.  At [2 ^ 32] the guard passes and
    [new Array(4294967296)] raises a [RangeError]: no array is that long.
    At 1 the guard passes as well ([Math.log2(1)] is 0) and
    [new Array(0.5)], the twiddle table, raises the same error. *)
Lemma size_guard_as_specified_fails :
  (forall Math_log2, Log2_accurate Math_log2 ->
     ~ size_guard_as_specified Math_log2 (2 ^ 32)) /\
  (forall Math_log2, Log2_accurate Math_log2 ->
     ~ size_guard_as_specified Math_log2 1).
Proof.
  split; intros Math_log2 accurate [Hpow _].
  - destruct Hpow as [fft E].
    + exists 32%Z. split; [lia | reflexivity].
    + rewrite (FFT_constructor_pow2 Math_log2 accurate 32) in E by lia.
      vm_compute in E. discriminate.
  - destruct Hpow as [fft E].
    + exists 0%Z. split; [lia | reflexivity].
    + change 1%Z with (2 ^ 0)%Z in E.
      rewrite (FFT_constructor_pow2 Math_log2 accurate 0) in E by lia.
      vm_compute in E. discriminate.
Qed.

(** The constructor with the exact logarithm on some sizes. *)
Example FFT_new_100 : FFT_new 100 = inl (Error "FFT size must be a power of 2").
Proof. reflexivity. Qed.

Example FFT_new_0 : FFT_new 0 = inl (Error "FFT size must be a power of 2").
Proof. reflexivity. Qed.

(** Size 1 passes the guard ([Math.log2(1)] is 0) and then asks for a
    twiddle table of length 0.5. *)
Example FFT_new_1 : FFT_new 1 = inl (RangeError "Invalid array length").
Proof. reflexivity. Qed.

Example FFT_new_8_tables :
  exists fft, FFT_new 8 = inr fft /\
              bitReversalIndices fft = [0; 4; 2; 6; 1; 5; 3; 7]%Z /\
              length (twiddleFactors fft) = 4%nat.
Proof. eexists. split; [reflexivity|]. split; reflexivity. Qed.

End AudioUtils.

(** * Further properties of the code

    The rest of this file covers functions that sit beside the ones above:
    the other operations of the hook, the utilities of the analysis
    modules, and the filters and detectors of utils/audioUtils.js. *)

(** ** The hook's cache, slot by slot *)
Module HookCache.
Import stdpp.base stdpp.gmap stdpp.strings.
#[local] Open Scope string_scope.
#[local] Open Scope list_scope.

Section Slots.

Variables Buffer Result : Type.
Variables analyzeBasic analyzeChroma : Buffer -> option Result.

#[local] Abbreviation state := (Hook.state Buffer Result).
#[local] Abbreviation analyzeForTab := (Hook.analyzeForTab Buffer Result analyzeBasic analyzeChroma).
#[local] Abbreviation loadAnalysisModule :=
  (Hook.loadAnalysisModule Buffer Result analyzeBasic analyzeChroma).
#[local] Abbreviation handleTabChange :=
  (Hook.handleTabChange Buffer Result analyzeBasic analyzeChroma).
#[local] Abbreviation analysisData := (Hook.analysisData Buffer Result).
#[local] Abbreviation audioBuffer := (Hook.audioBuffer Buffer Result).
#[local] Abbreviation calls := (Hook.calls Buffer Result).

(** X1: a request only ever writes the slot of its own kind, and what it
    returns is what that slot holds afterwards; a request that fails (the
    analyzer throws, [null] is returned) leaves every slot as it was. *)
Theorem analyzeForTab_slots (tab : string) (b : Buffer) (st : state) :
  let r := fst (analyzeForTab tab (Some b) st) in
  let st' := snd (analyzeForTab tab (Some b) st) in
  (forall other : string, other <> tab ->
     analysisData st' !! other = analysisData st !! other) /\
  (forall x : Result, r = Some x -> analysisData st' !! tab = Some x) /\
  (r = None -> analysisData st' = analysisData st).
Proof.
  unfold Hook.analyzeForTab.
  destruct (analysisData st !! tab) as [cached|] eqn:Eslot; simpl.
  - split; [reflexivity|]. split; [|discriminate].
    intros x [= <-]. exact Eslot.
  - destruct (loadAnalysisModule tab b) as [result|]; simpl.
    + split; [|split; [|discriminate]].
      * intros other Hother. apply lookup_insert_ne. congruence.
      * intros x [= <-]. apply lookup_insert_eq.
    + split; [reflexivity|]. split; [discriminate | reflexivity].
Qed.

(** X2: only the kind ["chroma"] is analysed by the chroma analyzer.  A
    request for any other kind whose slot is empty (["beats"],
    ["frequency"], ["spectral"], ["tempo"] included) runs the basic
    analyzer and returns what it returns. *)
Theorem analyzeForTab_default_analyzer (tab : string) (b : Buffer) (st : state) :
  tab <> "chroma" ->
  analysisData st !! tab = None ->
  fst (analyzeForTab tab (Some b) st) = analyzeBasic b /\
  calls (snd (analyzeForTab tab (Some b) st)) = calls st ++ [(tab, b)].
Proof.
  intros Hkind Hslot. unfold Hook.analyzeForTab. rewrite Hslot. simpl.
  assert (E : loadAnalysisModule tab b = analyzeBasic b).
  { unfold Hook.loadAnalysisModule.
    destruct (String.eqb tab "basic"); [reflexivity|].
    destruct (String.eqb_spec tab "chroma"); [contradiction | reflexivity]. }
  rewrite E. destruct (analyzeBasic b); simpl; auto.
Qed.

(** X3: switching to a tab twice in a row is the same as switching once,
    provided the analyzer of that tab does not throw on the stored buffer:
    the second switch finds the slot filled and computes nothing. *)
Theorem handleTabChange_idempotent (tab : string) (st : state) :
  (forall b, audioBuffer st = Some b -> loadAnalysisModule tab b <> None) ->
  handleTabChange tab (handleTabChange tab st) = handleTabChange tab st.
Proof.
  intros Hok.
  destruct (audioBuffer st) as [b|] eqn:Ebuf.
  - destruct (analysisData st !! tab) as [cached|] eqn:Eslot.
    + assert (E : handleTabChange tab st = st).
      { unfold Hook.handleTabChange. now rewrite Ebuf, Eslot. }
      now rewrite !E.
    + destruct (loadAnalysisModule tab b) as [result|] eqn:Erun.
      * assert (E : handleTabChange tab st
                    = {| Hook.analysisData := <[tab := result]> (analysisData st);
                         Hook.audioBuffer := Some b;
                         Hook.calls := calls st ++ [(tab, b)] |}).
        { unfold Hook.handleTabChange. rewrite Ebuf, Eslot.
          now rewrite (Hook.analyzeForTab_miss _ _ _ _ tab b st result Eslot Erun). }
        rewrite E. unfold Hook.handleTabChange.
        cbn [Hook.audioBuffer Hook.analysisData].
        now rewrite lookup_insert_eq.
      * exfalso. exact (Hok b eq_refl Erun).
  - assert (E : handleTabChange tab st = st).
    { unfold Hook.handleTabChange. now rewrite Ebuf. }
    now rewrite !E.
Qed.

End Slots.

Lemma analyzeForTab_default_analyzer_witness :
  fst (Hook.analyzeForTab (list nat) nat Hook.countSamples Hook.alwaysThrows "beats" (Some [1; 2; 3])
         (Hook.initial (list nat) nat))
  = Hook.countSamples [1; 2; 3] /\
  Hook.calls (list nat) nat
    (snd (Hook.analyzeForTab (list nat) nat Hook.countSamples Hook.alwaysThrows "beats" (Some [1; 2; 3])
            (Hook.initial (list nat) nat)))
  = Hook.calls (list nat) nat (Hook.initial (list nat) nat) ++ [("beats", [1; 2; 3])].
Proof.
  apply (analyzeForTab_default_analyzer _ _ Hook.countSamples Hook.alwaysThrows
           "beats" [1; 2; 3] (Hook.initial (list nat) nat)).
  - discriminate.
  - reflexivity.
Defined.

Lemma handleTabChange_idempotent_witness :
  let st := Hook.setAudioBuffer (list nat) nat (Some [1; 2; 3]) (Hook.initial (list nat) nat) in
  Hook.handleTabChange (list nat) nat Hook.countSamples Hook.alwaysThrows "basic"
    (Hook.handleTabChange (list nat) nat Hook.countSamples Hook.alwaysThrows "basic" st)
  = Hook.handleTabChange (list nat) nat Hook.countSamples Hook.alwaysThrows "basic" st.
Proof.
  apply (handleTabChange_idempotent _ _ Hook.countSamples Hook.alwaysThrows "basic").
  intros b _. discriminate.
Defined.

(** A throwing analyzer is run again on every switch. *)
Example handleTabChange_retries_failure :
  let st := Hook.setAudioBuffer (list nat) nat (Some [1; 2; 3]) (Hook.initial (list nat) nat) in
  Hook.calls (list nat) nat
    (Hook.handleTabChange (list nat) nat Hook.countSamples Hook.alwaysThrows "chroma"
       (Hook.handleTabChange (list nat) nat Hook.countSamples Hook.alwaysThrows "chroma" st))
  = [("chroma", [1; 2; 3]); ("chroma", [1; 2; 3])].
Proof. reflexivity. Qed.

End HookCache.

(** ** The utilities of audio/basicAnalysis.js

    [detectSilence] and [getAmplitudeStats] compare, add and divide:
    amplitudes are rationals and the definitions compute. *)
Module BasicUtilities.
Import Lqa.
#[local] Open Scope Q_scope.

(** A region [{ start, end }] of frame indices. *)
Record SilentRegion : Type := mkSilentRegion { start : nat; end_ : nat }.

(** One turn of the loop of [detectSilence]; the state is the array of
    regions pushed so far and [silentStart] ([None] for [null]). *)
Definition silenceStep (threshold : Q) (st : list SilentRegion * option nat)
           (entry : nat * Q) : list SilentRegion * option nat :=
  let '(silentRegions, silentStart) := st in
  let '(i, amplitude) := entry in
  if Beat.ltb amplitude threshold then
    match silentStart with
    | None => (silentRegions, Some i)
    | Some _ => st
    end
  else
    match silentStart with
    | Some s => (silentRegions ++ [{| start := s; end_ := (i - 1)%nat |}], None)
    | None => st
    end.

(** [detectSilence(amplitudes, threshold)]; the source's default threshold
    is 0.01. *)
Definition detectSilence (amplitudes : list Q) (threshold : Q) : list SilentRegion :=
  let '(silentRegions, silentStart) :=
    fold_left (silenceStep threshold)
              (combine (seq 0 (length amplitudes)) amplitudes) ([], None) in
  match silentStart with
  | Some s => silentRegions ++ [{| start := s; end_ := (length amplitudes - 1)%nat |}]
  | None => silentRegions
  end.

(** Every later region starts at least two frames after an earlier one
    ends: regions are in order and a loud frame lies between any two. *)
Fixpoint apart (regions : list SilentRegion) : Prop :=
  match regions with
  | [] => True
  | r :: rest => Forall (fun r' => (end_ r + 1 < start r')%nat) rest /\ apart rest
  end.

Lemma apart_snoc (regions : list SilentRegion) (x : SilentRegion) :
  apart regions -> Forall (fun r => (end_ r + 1 < start x)%nat) regions ->
  apart (regions ++ [x]).
Proof.
  induction regions as [|r rest IH]; intros Ha Hx; simpl.
  - split; [constructor | exact I].
  - destruct Ha as [Hr Ha]. inversion Hx as [|? ? Hrx Hrest]; subst. split.
    + apply Forall_app. split; [exact Hr | constructor; [exact Hrx | constructor]].
    + apply IH; assumption.
Qed.

Lemma combine_seq_snoc (l : list Q) (x : Q) (a : nat) :
  combine (seq a (length (l ++ [x]))) (l ++ [x])
  = combine (seq a (length l)) l ++ [((a + length l)%nat, x)].
Proof.
  revert a. induction l as [|y l IH]; intros a; simpl.
  - now rewrite Nat.add_0_r.
  - rewrite IH. now rewrite Nat.add_succ_r.
Qed.

(** What holds of the loop state once the amplitudes [l] have been read:
    closed regions are well formed, lie two frames before the open run (or
    the end of [l]), and together with the open run they cover exactly the
    silent frames. *)
Definition silence_invariant (threshold : Q) (l : list Q)
           (st : list SilentRegion * option nat) : Prop :=
  let '(regions, silentStart) := st in
  let bound := match silentStart with Some s => s | None => length l end in
  Forall (fun r => (start r <= end_ r)%nat /\ (end_ r + 2 <= bound)%nat) regions /\
  apart regions /\
  (forall s, silentStart = Some s ->
     (s < length l)%nat /\
     forall j, (s <= j < length l)%nat -> nth j l 0 < threshold) /\
  (forall j, (j < length l)%nat ->
     (nth j l 0 < threshold <->
      Exists (fun r => (start r <= j <= end_ r)%nat) regions
      \/ exists s, silentStart = Some s /\ (s <= j)%nat)).

Lemma nth_snoc_old (l : list Q) (x : Q) (j : nat) :
  (j < length l)%nat -> nth j (l ++ [x]) 0 = nth j l 0.
Proof. intros Hj. now apply app_nth1. Qed.

Lemma nth_snoc_new (l : list Q) (x : Q) : nth (length l) (l ++ [x]) 0 = x.
Proof. rewrite app_nth2 by lia. now rewrite Nat.sub_diag. Qed.

Lemma not_covered (regions : list SilentRegion) (n bound : nat) :
  Forall (fun r => (start r <= end_ r)%nat /\ (end_ r + 2 <= bound)%nat) regions ->
  (bound <= S n)%nat ->
  ~ Exists (fun r => (start r <= n <= end_ r)%nat) regions.
Proof.
  intros Hall Hbound Hex. apply Exists_exists in Hex.
  destruct Hex as (r & Hin & Hr). rewrite Forall_forall in Hall.
  specialize (Hall r Hin). lia.
Qed.

Lemma silenceStep_invariant (threshold : Q) (l : list Q) (x : Q)
      (st : list SilentRegion * option nat) :
  silence_invariant threshold l st ->
  silence_invariant threshold (l ++ [x]) (silenceStep threshold st (length l, x)).
Proof.
  destruct st as [regions silentStart].
  intros (Hwf & Hapart & Hopen & Hcover).
  assert (Hlen : length (l ++ [x]) = S (length l)) by (rewrite length_app; simpl; lia).
  unfold silenceStep.
  destruct (Beat.ltb_spec x threshold) as [Hsilent|Hloud];
    destruct silentStart as [s|]; unfold silence_invariant; rewrite Hlen.
  - (* silent, run open *)
    destruct (Hopen s eq_refl) as [Hs Hrun].
    split; [exact Hwf|]. split; [exact Hapart|]. split.
    + intros s' [= <-]. split; [lia|]. intros j Hj.
      destruct (Nat.eq_dec j (length l)) as [->|Hne].
      * now rewrite nth_snoc_new.
      * rewrite nth_snoc_old by lia. apply Hrun. lia.
    + intros j Hj. destruct (Nat.eq_dec j (length l)) as [->|Hne].
      * rewrite nth_snoc_new. split; [|intros _; exact Hsilent].
        intros _. right. exists s. split; [reflexivity | lia].
      * rewrite nth_snoc_old by lia. apply Hcover. lia.
  - (* silent, no run open: one starts here *)
    split; [exact Hwf|]. split; [exact Hapart|]. split.
    + intros s' [= <-]. split; [lia|]. intros j Hj.
      replace j with (length l) by lia. now rewrite nth_snoc_new.
    + intros j Hj. destruct (Nat.eq_dec j (length l)) as [->|Hne].
      * rewrite nth_snoc_new. split; [|intros _; exact Hsilent].
        intros _. right. exists (length l). split; [reflexivity | lia].
      * rewrite nth_snoc_old by lia. rewrite (Hcover j) by lia. split.
        -- intros [Hex|(s' & Hs' & _)]; [now left | discriminate].
        -- intros [Hex|(s' & [= <-] & Hle)]; [now left | lia].
  - (* loud, run open: the region is closed *)
    destruct (Hopen s eq_refl) as [Hs Hrun].
    split; [|split; [|split]].
    + apply Forall_app. split.
      * eapply Forall_impl; [|exact Hwf]. simpl. intros r Hr. lia.
      * constructor; [simpl; lia | constructor].
    + apply apart_snoc; [exact Hapart|].
      eapply Forall_impl; [|exact Hwf]. simpl. intros r Hr. lia.
    + intros s' Hs'. discriminate.
    + intros j Hj. destruct (Nat.eq_dec j (length l)) as [->|Hne].
      * rewrite nth_snoc_new. split; [intros Hx; exfalso; lra|].
        intros [Hex|(s' & Hs' & _)]; [|discriminate].
        exfalso. apply Exists_app in Hex. destruct Hex as [Hex|Hex].
        -- apply (not_covered regions (length l) s Hwf); [lia | exact Hex].
        -- inversion Hex as [? ? Hr|? ? Hr]; subst; [simpl in Hr; lia | inversion Hr].
      * rewrite nth_snoc_old by lia. rewrite (Hcover j) by lia. split.
        -- intros [Hex|(s' & [= <-] & Hle)].
           ++ left. apply Exists_app. now left.
           ++ left. apply Exists_app. right. constructor. simpl. lia.
        -- intros [Hex|(s' & Hs' & _)]; [|discriminate].
           apply Exists_app in Hex. destruct Hex as [Hex|Hex]; [now left|].
           right. exists s. split; [reflexivity|].
           inversion Hex as [? ? Hr|? ? Hr]; subst; [simpl in Hr; lia | inversion Hr].
  - (* loud, no run open *)
    split; [|split; [exact Hapart|split]].
    + eapply Forall_impl; [|exact Hwf]. simpl. intros r Hr. lia.
    + intros s' Hs'. discriminate.
    + intros j Hj. destruct (Nat.eq_dec j (length l)) as [->|Hne].
      * rewrite nth_snoc_new. split; [intros Hx; exfalso; lra|].
        intros [Hex|(s' & Hs' & _)]; [|discriminate].
        exfalso. apply (not_covered regions (length l) (length l) Hwf); [lia | exact Hex].
      * rewrite nth_snoc_old by lia. apply Hcover. lia.
Qed.

Lemma silence_loop_invariant (threshold : Q) (l : list Q) :
  silence_invariant threshold l
    (fold_left (silenceStep threshold) (combine (seq 0 (length l)) l) ([], None)).
Proof.
  induction l as [|x l IH] using rev_ind.
  - simpl. split; [constructor|]. split; [exact I|]. split.
    + intros s Hs. discriminate.
    + intros j Hj. simpl in Hj. lia.
  - rewrite combine_seq_snoc, fold_left_app. simpl.
    apply silenceStep_invariant, IH.
Qed.

(** X4: the regions reported by [detectSilence] are exactly the runs of
    silent frames.  Each region is a range [start <= end] inside the
    sequence, a later region starts at least two frames after an earlier
    one ends, and a frame is below the threshold if and only if it lies in
    one of the regions. *)
Theorem detectSilence_regions (amplitudes : list Q) (threshold : Q) :
  let regions := detectSilence amplitudes threshold in
  Forall (fun r => (start r <= end_ r < length amplitudes)%nat) regions /\
  apart regions /\
  forall i, (i < length amplitudes)%nat ->
    (nth i amplitudes 0 < threshold
     <-> Exists (fun r => (start r <= i <= end_ r)%nat) regions).
Proof.
  unfold detectSilence.
  pose proof (silence_loop_invariant threshold amplitudes) as Hinv.
  destruct (fold_left _ _ _) as [regions silentStart].
  destruct Hinv as (Hwf & Hapart & Hopen & Hcover).
  destruct silentStart as [s|]; simpl.
  - destruct (Hopen s eq_refl) as [Hs _]. split; [|split].
    + apply Forall_app. split.
      * eapply Forall_impl; [|exact Hwf]. simpl. intros r Hr. lia.
      * constructor; [simpl; lia | constructor].
    + apply apart_snoc; [exact Hapart|].
      eapply Forall_impl; [|exact Hwf]. simpl. intros r Hr. lia.
    + intros i Hi. rewrite (Hcover i Hi). split.
      * intros [Hex|(s' & [= <-] & Hle)]; apply Exists_app; [now left|].
        right. constructor. simpl. lia.
      * intros Hex. apply Exists_app in Hex. destruct Hex as [Hex|Hex]; [now left|].
        right. exists s. split; [reflexivity|].
        inversion Hex as [? ? Hr|? ? Hr]; subst; [simpl in Hr; lia | inversion Hr].
  - split; [|split; [exact Hapart|]].
    + eapply Forall_impl; [|exact Hwf]. simpl. intros r Hr. lia.
    + intros i Hi. rewrite (Hcover i Hi). split.
      * intros [Hex|(s' & Hs' & _)]; [exact Hex | discriminate].
      * intros Hex. now left.
Qed.

Example detectSilence_runs :
  detectSilence [0; 0; 1; 1; 0; 1; 0; 0] (1 # 100)
  = [ {| start := 0; end_ := 1 |}; {| start := 4; end_ := 4 |};
      {| start := 6; end_ := 7 |} ].
Proof. reflexivity. Qed.

(** *** [getAmplitudeStats] *)

Record AmplitudeStats : Type := mkAmplitudeStats {
  min : Q;
  max : Q;
  mean : Q;
  median : Q;
  q25 : Q;
  q75 : Q
}.

(** [arr.reduce((a, b) => a + b)] on a non-empty array: the fold starts
    from the first entry. *)
Definition reduceAdd (l : list Q) : Q := fold_left Qplus (tl l) (hd 0 l).

(** [getAmplitudeStats(amplitudes)]; [None] is [null].
    [Math.floor(len * 0.25)] is [len / 4] and [Math.floor(len * 0.75)] is
    [3 * len / 4]. *)
Definition getAmplitudeStats (amplitudes : list Q) : option AmplitudeStats :=
  match amplitudes with
  | [] => None
  | _ :: _ =>
      let sorted := Beat.sortNumeric amplitudes in
      let len := length sorted in
      Some {| min := nth 0 sorted 0;
              max := nth (len - 1) sorted 0;
              mean := reduceAdd sorted / inject_Z (Z.of_nat len);
              median := if Nat.even len
                        then (nth (len / 2 - 1) sorted 0 + nth (len / 2) sorted 0) / 2
                        else nth (len / 2) sorted 0;
              q25 := nth (len / 4) sorted 0;
              q75 := nth (3 * len / 4) sorted 0 |}
  end.

Lemma ascending_head_least (x : Q) (l : list Q) :
  Beat.ascending (x :: l) -> Forall (fun y => x <= y) l.
Proof.
  revert x. induction l as [|y l IH]; intros x Hasc; [constructor|].
  destruct Hasc as [Hxy Hasc]. constructor; [exact Hxy|].
  eapply Forall_impl; [|apply IH, Hasc]. simpl. intros z Hz. lra.
Qed.

Lemma ascending_tail (x : Q) (l : list Q) :
  Beat.ascending (x :: l) -> Beat.ascending l.
Proof. destruct l as [|y l]; [intros _; exact I | intros [_ H]; exact H]. Qed.

(** In an ascending list a later position holds a value at least as
    large. *)
Lemma ascending_nth (l : list Q) :
  Beat.ascending l ->
  forall i j, (i <= j < length l)%nat -> nth i l 0 <= nth j l 0.
Proof.
  induction l as [|x l IH]; intros Hasc i j Hij; [simpl in Hij; lia|].
  destruct i as [|i]; destruct j as [|j]; simpl.
  - lra.
  - pose proof (ascending_head_least x l Hasc) as Hleast.
    rewrite Forall_forall in Hleast. apply Hleast, nth_In. simpl in Hij. lia.
  - lia.
  - apply IH; [eapply ascending_tail, Hasc | simpl in Hij; lia].
Qed.

Lemma getAmplitudeStats_nonempty (amplitudes : list Q) :
  amplitudes <> [] ->
  getAmplitudeStats amplitudes
  = let sorted := Beat.sortNumeric amplitudes in
    let len := length sorted in
    Some {| min := nth 0 sorted 0;
            max := nth (len - 1) sorted 0;
            mean := reduceAdd sorted / inject_Z (Z.of_nat len);
            median := if Nat.even len
                      then (nth (len / 2 - 1) sorted 0 + nth (len / 2) sorted 0) / 2
                      else nth (len / 2) sorted 0;
            q25 := nth (len / 4) sorted 0;
            q75 := nth (3 * len / 4) sorted 0 |}.
Proof. destruct amplitudes; [congruence | reflexivity]. Qed.

(** X5: for a non-empty sequence [getAmplitudeStats] returns order
    statistics in their natural order: [min] and [max] bound every
    amplitude, and [min <= q25 <= median <= q75 <= max].  (The [mean], a
    running sum divided by the length, is left out: the property concerns
    the entries picked from the sorted copy and the midpoint of two of
    them.) *)
Theorem getAmplitudeStats_ordered (amplitudes : list Q) :
  amplitudes <> [] ->
  exists stats,
    getAmplitudeStats amplitudes = Some stats /\
    (forall x, In x amplitudes -> min stats <= x <= max stats) /\
    min stats <= q25 stats /\ q25 stats <= median stats /\
    median stats <= q75 stats /\ q75 stats <= max stats.
Proof.
  intros Hne. rewrite (getAmplitudeStats_nonempty amplitudes Hne).
  assert (Hlen : length (Beat.sortNumeric amplitudes) = length amplitudes).
  { symmetry. apply Permutation_length, Beat.sortNumeric_perm. }
  assert (Hpos : (1 <= length amplitudes)%nat).
  { destruct amplitudes; [congruence | simpl; lia]. }
  pose proof (Beat.sortNumeric_ascending amplitudes) as Hasc.
  pose proof (ascending_nth _ Hasc) as Hmono.
  set (sorted := Beat.sortNumeric amplitudes) in *.
  set (len := length sorted) in *.
  assert (Hbounds : forall x, In x sorted ->
            nth 0 sorted 0 <= x <= nth (len - 1) sorted 0).
  { intros x Hin. destruct (In_nth _ _ 0 Hin) as (k & Hk & <-).
    split; apply Hmono; fold len; lia. }
  pose proof (Nat.div_mod_eq len 2) as D2. pose proof (Nat.mod_upper_bound len 2) as M2.
  pose proof (Nat.div_mod_eq len 4) as D4. pose proof (Nat.mod_upper_bound len 4) as M4.
  pose proof (Nat.div_mod_eq (3 * len) 4) as D34.
  pose proof (Nat.mod_upper_bound (3 * len) 4) as M34.
  exists {| min := nth 0 sorted 0;
            max := nth (len - 1) sorted 0;
            mean := reduceAdd sorted / inject_Z (Z.of_nat len);
            median := if Nat.even len
                      then (nth (len / 2 - 1) sorted 0 + nth (len / 2) sorted 0) / 2
                      else nth (len / 2) sorted 0;
            q25 := nth (len / 4) sorted 0;
            q75 := nth (3 * len / 4) sorted 0 |}.
  split; [reflexivity|]. cbn [min max mean median q25 q75].
  split.
  { intros x Hin. apply Hbounds.
    eapply Permutation_in; [apply Beat.sortNumeric_perm | exact Hin]. }
  split; [apply Hmono; fold len; lia|].
  assert (Hmedian : nth (len / 4) sorted 0
                    <= (if Nat.even len
                        then (nth (len / 2 - 1) sorted 0 + nth (len / 2) sorted 0) / 2
                        else nth (len / 2) sorted 0)
                    /\ (if Nat.even len
                        then (nth (len / 2 - 1) sorted 0 + nth (len / 2) sorted 0) / 2
                        else nth (len / 2) sorted 0)
                       <= nth (3 * len / 4) sorted 0).
  { destruct (Nat.even len) eqn:Heven.
    - apply Nat.even_spec in Heven. destruct Heven as [m Hm].
      assert (H1 : nth (len / 4) sorted 0 <= nth (len / 2 - 1) sorted 0)
        by (apply Hmono; fold len; lia).
      assert (H2 : nth (len / 2 - 1) sorted 0 <= nth (len / 2) sorted 0)
        by (apply Hmono; fold len; lia).
      assert (H3 : nth (len / 2) sorted 0 <= nth (3 * len / 4) sorted 0)
        by (apply Hmono; fold len; lia).
      assert (Ehalf : (nth (len / 2 - 1) sorted 0 + nth (len / 2) sorted 0) / 2
                      == (nth (len / 2 - 1) sorted 0 + nth (len / 2) sorted 0) * (1 # 2))
        by field.
      rewrite Ehalf. split; lra.
    - split; apply Hmono; fold len; lia. }
  split; [apply Hmedian|]. split; [apply Hmedian|].
  apply Hmono; fold len; lia.
Qed.

Lemma getAmplitudeStats_ordered_witness :
  exists stats,
    getAmplitudeStats [3; 1; 2; 5] = Some stats /\
    (forall x, In x [3; 1; 2; 5] -> min stats <= x <= max stats) /\
    min stats <= q25 stats /\ q25 stats <= median stats /\
    median stats <= q75 stats /\ q75 stats <= max stats.
Proof. apply (getAmplitudeStats_ordered [3; 1; 2; 5]). discriminate. Defined.

Example getAmplitudeStats_values :
  getAmplitudeStats [3; 1; 2; 5]
  = Some {| min := 1; max := 5; mean := (1 + 2 + 3 + 5) / inject_Z 4;
            median := (2 + 3) / 2; q25 := 2; q75 := 5 |}.
Proof. reflexivity. Qed.

Example getAmplitudeStats_empty : getAmplitudeStats [] = None.
Proof. reflexivity. Qed.

End BasicUtilities.

(** ** What [smoothArray] leaves alone *)
Module Smoothing.
Import stdpp.base stdpp.list.
#[local] Open Scope R_scope.

Lemma nth_insert_other (l : list R) (i j : nat) (x : R) :
  i <> j -> nth j (<[i := x]> l) 0 = nth j l 0.
Proof.
  revert i j. induction l as [|y l IH]; intros i j Hij; [reflexivity|].
  destruct i as [|i]; destruct j as [|j]; simpl; try reflexivity; try lia.
  apply IH. lia.
Qed.

Lemma smoothSteps_outside (factor : R) (indices : list nat) (j : nat) :
  ~ In j indices ->
  forall arr, nth j (fold_left (Basic.smoothStep factor) indices arr) 0 = nth j arr 0.
Proof.
  induction indices as [|i indices IH]; intros Hj arr; simpl; [reflexivity|].
  rewrite IH by (intros Hin; apply Hj; now right).
  unfold Basic.smoothStep. apply nth_insert_other.
  intros ->. apply Hj. now left.
Qed.

(** X6: smoothing keeps the length of the sequence and never writes its
    two ends: the first and the last entry of the result are those of the
    argument, whatever the factor. *)
Theorem smoothArray_endpoints (arr : list R) (factor : R) :
  length (Basic.smoothArray arr factor) = length arr /\
  nth 0 (Basic.smoothArray arr factor) 0 = nth 0 arr 0 /\
  nth (length arr - 1) (Basic.smoothArray arr factor) 0 = nth (length arr - 1) arr 0.
Proof.
  split; [apply Basic.smoothArray_length|].
  unfold Basic.smoothArray. destruct (Rle_dec factor 0); [split; reflexivity|].
  split; apply smoothSteps_outside; rewrite in_seq; lia.
Qed.

(** A sequence of at most two entries is returned as it is. *)
Lemma smoothArray_short (arr : list R) (factor : R) :
  (length arr <= 2)%nat -> Basic.smoothArray arr factor = arr.
Proof.
  intros Hlen. unfold Basic.smoothArray. destruct (Rle_dec factor 0); [reflexivity|].
  replace (length arr - 2)%nat with 0%nat by lia. reflexivity.
Qed.

End Smoothing.

(** ** The utilities of audio/chromaAnalysis.js

    Chroma vectors are lists of reals, as [analyzeChroma] produces them. *)
Module ChromaUtilities.
Import JSMath.
#[local] Open Scope string_scope.
#[local] Open Scope list_scope.
#[local] Open Scope R_scope.

Definition noteNames : list string :=
  ["C"; "C#"; "D"; "D#"; "E"; "F"; "F#"; "G"; "G#"; "A"; "A#"; "B"].

(** [arr.indexOf(x)]: the first index holding [x]; [None] is [-1]. *)
Fixpoint indexOf (l : list R) (x : R) : option nat :=
  match l with
  | [] => None
  | y :: rest => if Req_dec_T y x then Some 0%nat else option_map S (indexOf rest x)
  end.

(** The loops [for (const frame of frames) for (let i = 0; i < 12; i++)
    avg[i] += frame[i]], started from twelve zeros. *)
Definition addFrame (avg frame : list R) : list R :=
  map (fun '(i, a) => a + nth i frame 0) (combine (seq 0 12) avg).

Definition sumFrames (frames : list (list R)) : list R :=
  fold_left addFrame frames (repeat 0 12).

(** [calculateAverageChroma(chromaFrames)]. *)
Definition calculateAverageChroma (chromaFrames : list (list R)) : list R :=
  map (fun v => v / INR (length chromaFrames)) (sumFrames chromaFrames).

(** [getDominantNote(chroma)]: [noteNames[chroma.indexOf(Math.max(...chroma))]];
    [None] is [undefined]. *)
Definition getDominantNote (chroma : list R) : option string :=
  match Math_max chroma with
  | Some m => match indexOf chroma m with
              | Some i => nth_error noteNames i
              | None => None
              end
  | None => None
  end.

Record ChromaStats : Type := mkChromaStats {
  averageChroma : list R;
  dominantNote : option string;
  dominantNoteIndex : option nat;        (* [None] is -1 *)
  dominantNoteStrength : option R        (* [None] is [undefined] *)
}.

(** [getChromaStats(chromaFeatures)]; [None] is [null]. *)
Definition getChromaStats (chromaFeatures : list (list R)) : option ChromaStats :=
  match chromaFeatures with
  | [] => None
  | _ :: _ =>
      let avgChroma := calculateAverageChroma chromaFeatures in
      let dominantNoteIndex :=
        match Math_max avgChroma with
        | Some m => indexOf avgChroma m
        | None => None
        end in
      Some {| averageChroma := avgChroma;
              dominantNote := match dominantNoteIndex with
                              | Some i => nth_error noteNames i
                              | None => None
                              end;
              dominantNoteIndex := dominantNoteIndex;
              dominantNoteStrength := match dominantNoteIndex with
                                      | Some i => nth_error avgChroma i
                                      | None => None
                                      end |}
  end.

(** The three sums of [calculateChromaCorrelation], over [i < 12]. *)
Definition dot12 (chroma1 chroma2 : list R) : R :=
  fold_left (fun acc i => acc + nth i chroma1 0 * nth i chroma2 0) (seq 0 12) 0.

(** [calculateChromaCorrelation(chroma1, chroma2)]:
    [dotProduct / (Math.sqrt(norm1) * Math.sqrt(norm2))].  When a vector
    is all zeros the source divides 0 by 0; [None] is that [NaN]. *)
Definition calculateChromaCorrelation (chroma1 chroma2 : list R) : option R :=
  let dotProduct := dot12 chroma1 chroma2 in
  let norm1 := dot12 chroma1 chroma1 in
  let norm2 := dot12 chroma2 chroma2 in
  if Req_dec_T (sqrt norm1 * sqrt norm2) 0 then None
  else Some (dotProduct / (sqrt norm1 * sqrt norm2)).

Record KeyChange : Type := mkKeyChange {
  frame : nat;
  correlation : R;
  beforeKey : option string;
  afterKey : option string
}.

(** The body of the loop of [detectKeyChanges]; a [NaN] correlation is not
    below 0.7. *)
Definition keyChangeAt (chromaFeatures : list (list R)) (windowSize i : nat)
  : option KeyChange :=
  let beforeWindow := Framing.slice chromaFeatures (i - windowSize) i in
  let afterWindow := Framing.slice chromaFeatures i (i + windowSize) in
  let beforeAvg := calculateAverageChroma beforeWindow in
  let afterAvg := calculateAverageChroma afterWindow in
  match calculateChromaCorrelation beforeAvg afterAvg with
  | Some correlation =>
      if Rlt_dec correlation 0.7 then
        Some {| frame := i; correlation := correlation;
                beforeKey := getDominantNote beforeAvg;
                afterKey := getDominantNote afterAvg |}
      else None
  | None => None
  end.

(** [detectKeyChanges(chromaFeatures, windowSize)]; the source's default
    window is 8. *)
Definition detectKeyChanges (chromaFeatures : list (list R)) (windowSize : nat)
  : list KeyChange :=
  if (length chromaFeatures <? windowSize * 2)%nat then []
  else
    fold_left
      (fun keyChanges i =>
         match keyChangeAt chromaFeatures windowSize i with
         | Some change => keyChanges ++ [change]
         | None => keyChanges
         end)
      (seq windowSize (length chromaFeatures - windowSize - windowSize)) [].

(** *** Averages *)

Lemma nth_map_in {A B : Type} (f : A -> B) (l : list A) (i : nat) (d : B) (d' : A) :
  (i < length l)%nat -> nth i (map f l) d = f (nth i l d').
Proof.
  revert i. induction l as [|x l IH]; intros [|i] Hi; simpl in *; try lia.
  - reflexivity.
  - apply IH. lia.
Qed.

Lemma addFrame_length (avg frame : list R) :
  length avg = 12%nat -> length (addFrame avg frame) = 12%nat.
Proof.
  intros Havg. unfold addFrame.
  rewrite length_map, length_combine, length_seq, Havg. reflexivity.
Qed.

Lemma addFrame_nth (avg frame : list R) (i : nat) :
  length avg = 12%nat -> (i < 12)%nat ->
  nth i (addFrame avg frame) 0 = nth i avg 0 + nth i frame 0.
Proof.
  intros Havg Hi. unfold addFrame.
  rewrite (nth_map_in _ _ i 0 (0%nat, 0))
    by (rewrite length_combine, length_seq, Havg; exact Hi).
  rewrite combine_nth by (rewrite length_seq, Havg; reflexivity).
  rewrite seq_nth by exact Hi. reflexivity.
Qed.

Lemma sumFrames_from (frames : list (list R)) :
  forall (avg : list R) (k : nat),
    length avg = 12%nat ->
    Forall (fun frame => Forall (fun c => 0 <= c <= 1) frame) frames ->
    (forall i, (i < 12)%nat -> 0 <= nth i avg 0 <= INR k) ->
    length (fold_left addFrame frames avg) = 12%nat /\
    forall i, (i < 12)%nat ->
      0 <= nth i (fold_left addFrame frames avg) 0 <= INR (k + length frames).
Proof.
  induction frames as [|frame frames IH]; intros avg k Hlen Hunit Havg; simpl.
  - rewrite Nat.add_0_r. split; [exact Hlen | exact Havg].
  - inversion Hunit as [|? ? Hframe Hrest]; subst.
    replace (k + S (length frames))%nat with (S k + length frames)%nat by lia.
    apply IH; [now apply addFrame_length | exact Hrest|].
    intros i Hi. rewrite addFrame_nth by assumption.
    pose proof (Havg i Hi) as Ha.
    pose proof (nth_Forall_default (fun c => 0 <= c <= 1) frame i
                  (conj (Rle_refl 0) Rle_0_1) Hframe) as Hf.
    simpl in Hf. rewrite S_INR. lra.
Qed.

Lemma Forall_nth_below (P : R -> Prop) (l : list R) :
  (forall i, (i < length l)%nat -> P (nth i l 0)) -> Forall P l.
Proof.
  intros H. apply Forall_forall. intros x Hin.
  destruct (In_nth _ _ 0 Hin) as (i & Hi & <-). now apply H.
Qed.

(** The average of frames with entries in [[0, 1]] has twelve entries in
    [[0, 1]]. *)
Lemma calculateAverageChroma_unit (frames : list (list R)) :
  frames <> [] ->
  Forall (fun frame => Forall (fun c => 0 <= c <= 1) frame) frames ->
  length (calculateAverageChroma frames) = 12%nat /\
  Forall (fun c => 0 <= c <= 1) (calculateAverageChroma frames).
Proof.
  intros Hne Hunit. unfold calculateAverageChroma, sumFrames.
  destruct (sumFrames_from frames (repeat 0 12) 0 eq_refl Hunit) as [Hlen Hsum].
  { intros i Hi. simpl INR.
    rewrite (nth_Forall_default (fun c => c = 0) (repeat 0 12) i eq_refl)
      by (apply Forall_repeat_const; reflexivity). lra. }
  simpl plus in Hsum.
  assert (Hn : 0 < INR (length frames)).
  { apply lt_0_INR. destruct frames; [congruence | simpl; lia]. }
  split; [now rewrite length_map|].
  apply Forall_nth_below. rewrite length_map, Hlen. intros i Hi.
  rewrite (nth_map_in _ _ i 0 0) by (rewrite Hlen; exact Hi).
  destruct (Hsum i Hi) as [Hlo Hhi]. split.
  - apply Rmult_le_pos; [exact Hlo|]. left. now apply Rinv_0_lt_compat.
  - apply Rmult_le_reg_r with (INR (length frames)); [exact Hn|].
    unfold Rdiv. rewrite Rmult_assoc, Rinv_l by lra. lra.
Qed.

(** *** The dominant note *)

Lemma indexOf_In (l : list R) (x : R) :
  In x l ->
  exists i, indexOf l x = Some i /\ (i < length l)%nat /\ nth i l 0 = x /\
            forall j, (j < i)%nat -> nth j l 0 <> x.
Proof.
  induction l as [|y l IH]; intros Hin; [destruct Hin|]. simpl.
  destruct (Req_dec_T y x) as [->|Hne].
  - exists 0%nat. repeat split; [lia|]. intros j Hj. lia.
  - destruct Hin as [Hin|Hin]; [contradiction|].
    destruct (IH Hin) as (i & -> & Hi & Hnth & Hfirst).
    exists (S i). simpl. repeat split; [lia | exact Hnth|].
    intros [|j] Hj; [exact Hne | apply Hfirst; lia].
Qed.

(** The index picked from a non-empty vector: the first position of its
    maximum. *)
Lemma dominant_index (chroma : list R) :
  chroma <> [] ->
  exists m i,
    Math_max chroma = Some m /\ indexOf chroma m = Some i /\
    (i < length chroma)%nat /\ nth_error chroma i = Some m /\
    Forall (fun c => c <= m) chroma /\
    forall j, (j < i)%nat -> nth j chroma 0 < m.
Proof.
  intros Hne. destruct (Math_max chroma) as [m|] eqn:Hmax.
  2:{ destruct chroma; [congruence | discriminate]. }
  destruct (Math_max_spec _ _ Hmax) as [Hin Hall].
  destruct (indexOf_In _ _ Hin) as (i & Hidx & Hi & Hnth & Hfirst).
  exists m, i. repeat split; try assumption.
  - rewrite (nth_error_nth' _ 0 Hi). now rewrite Hnth.
  - intros j Hj. specialize (Hfirst j Hj).
    rewrite Forall_forall in Hall.
    assert (nth j chroma 0 <= m) by (apply Hall, nth_In; lia). lra.
Qed.

Lemma noteNames_defined (i : nat) :
  (i < 12)%nat -> exists name, nth_error noteNames i = Some name.
Proof.
  intros Hi. do 12 (destruct i as [|i]; [eexists; reflexivity|]). lia.
Qed.

(** [getChromaStats] on frames with entries in [[0, 1]]. *)
Lemma getChromaStats_dominant (chromaFeatures : list (list R)) :
  chromaFeatures <> [] ->
  Forall (fun frame => Forall (fun c => 0 <= c <= 1) frame) chromaFeatures ->
  exists stats index name strength,
    getChromaStats chromaFeatures = Some stats /\
    length (averageChroma stats) = 12%nat /\
    Forall (fun c => 0 <= c <= 1) (averageChroma stats) /\
    dominantNoteIndex stats = Some index /\ (index < 12)%nat /\
    dominantNote stats = Some name /\ nth_error noteNames index = Some name /\
    dominantNoteStrength stats = Some strength /\
    nth_error (averageChroma stats) index = Some strength /\
    Forall (fun c => c <= strength) (averageChroma stats) /\
    (forall j, (j < index)%nat -> nth j (averageChroma stats) 0 < strength).
Proof.
  intros Hne Hunit.
  destruct (calculateAverageChroma_unit chromaFeatures Hne Hunit) as [Hlen Havg].
  assert (Hne' : calculateAverageChroma chromaFeatures <> []).
  { intros E. rewrite E in Hlen. discriminate. }
  destruct (dominant_index _ Hne') as (m & i & Hmax & Hidx & Hi & Hnth & Hall & Hfirst).
  rewrite Hlen in Hi. destruct (noteNames_defined i Hi) as [name Hname].
  unfold getChromaStats. destruct chromaFeatures as [|f fs] eqn:E; [congruence|].
  rewrite <- E in *. rewrite Hmax, Hidx.
  eexists. exists i, name, m.
  split; [reflexivity|]. cbn [averageChroma dominantNote dominantNoteIndex dominantNoteStrength].
  repeat split; assumption.
Qed.

(** X7: for every buffer of more than 2048 samples the chroma analysis
    has at least one frame, and [getChromaStats] of its [chromaFeatures]
    returns twelve averages in [[0, 1]], a dominant note index below 12
    with its name, and as strength the largest average, taken at the first
    position where it occurs. *)
Theorem getChromaStats_of_analysis (audioBuffer : Basic.AudioBuffer) :
  (2048 < length (Basic.channelData audioBuffer))%nat ->
  exists result stats index name strength,
    Chroma.analyzeChroma audioBuffer = Some result /\
    getChromaStats (Chroma.chromaFeatures result) = Some stats /\
    length (averageChroma stats) = 12%nat /\
    Forall (fun c => 0 <= c <= 1) (averageChroma stats) /\
    dominantNoteIndex stats = Some index /\ (index < 12)%nat /\
    dominantNote stats = Some name /\ nth_error noteNames index = Some name /\
    dominantNoteStrength stats = Some strength /\
    nth_error (averageChroma stats) index = Some strength /\
    Forall (fun c => c <= strength) (averageChroma stats) /\
    (forall j, (j < index)%nat -> nth j (averageChroma stats) 0 < strength).
Proof.
  intros Hlong. unfold Chroma.analyzeChroma.
  change (2048 / 2)%nat with 1024%nat.
  unfold Framing.frames.
  rewrite (Framing.frameOffsets_closed_form _ 2048 1024) by lia.
  pose proof (Framing.frameCount_outside
                (length (Basic.channelData audioBuffer)) 2048 1024 0) as Hcount.
  destruct (Framing.frameCount (length (Basic.channelData audioBuffer)) 2048 1024)
    as [|count]; [simpl in Hcount; lia|].
  cbn [option_map].
  set (windows := map _ (map _ (seq 0 (S count)))).
  set (features := map _ windows).
  destruct (getChromaStats_dominant features)
    as (stats & index & name & strength & H).
  - unfold features, windows. simpl. discriminate.
  - unfold features. apply Forall_forall. intros chroma Hin.
    apply in_map_iff in Hin. destruct Hin as (window & <- & _).
    apply Chroma.calculateChromaFromFFT_unit.
  - eexists. exists stats, index, name, strength.
    split; [reflexivity | exact H].
Qed.

Definition silence2049 : Basic.AudioBuffer :=
  {| Basic.channelData := repeat 0 2049;
     Basic.sampleRate := 44100%Q;
     Basic.duration := 2049 / 44100 |}.

Lemma getChromaStats_of_analysis_witness :
  exists result stats index name strength,
    Chroma.analyzeChroma silence2049 = Some result /\
    getChromaStats (Chroma.chromaFeatures result) = Some stats /\
    length (averageChroma stats) = 12%nat /\
    Forall (fun c => 0 <= c <= 1) (averageChroma stats) /\
    dominantNoteIndex stats = Some index /\ (index < 12)%nat /\
    dominantNote stats = Some name /\ nth_error noteNames index = Some name /\
    dominantNoteStrength stats = Some strength /\
    nth_error (averageChroma stats) index = Some strength /\
    Forall (fun c => c <= strength) (averageChroma stats) /\
    (forall j, (j < index)%nat -> nth j (averageChroma stats) 0 < strength).
Proof.
  apply (getChromaStats_of_analysis silence2049).
  unfold silence2049. cbn [Basic.channelData]. rewrite repeat_length. lia.
Defined.

Example getChromaStats_empty : getChromaStats [] = None.
Proof. reflexivity. Qed.

(** *** The correlation of two chroma vectors *)

(** One more term keeps the Cauchy-Schwarz inequality. *)
Lemma cauchy_schwarz_step (S A B a b : R) :
  0 <= A -> 0 <= B -> S * S <= A * B ->
  (S + a * b) * (S + a * b) <= (A + a * a) * (B + b * b).
Proof.
  intros HA HB HS.
  assert (HX : 0 <= A * (b * b) + B * (a * a) - 2 * S * (a * b)).
  { destruct (Req_dec A 0) as [->|HA0].
    - assert (S = 0) by nra. subst. nra.
    - assert (HAX : 0 <= A * (A * (b * b) + B * (a * a) - 2 * S * (a * b))).
      { pose proof (Rle_0_sqr (A * b - S * a)) as Hsq. unfold Rsqr in Hsq.
        pose proof (Rle_0_sqr a) as Ha. unfold Rsqr in Ha. nra. }
      apply Rmult_le_reg_l with A; [lra|]. lra. }
  nra.
Qed.

Lemma dot12_cauchy_schwarz (u v : list R) :
  dot12 u v * dot12 u v <= dot12 u u * dot12 v v /\ 0 <= dot12 u u /\ 0 <= dot12 v v.
Proof.
  unfold dot12. generalize (seq 0 12). intros indices.
  assert (Hfold : forall S A B, 0 <= A -> 0 <= B -> S * S <= A * B ->
    let S' := fold_left (fun acc i => acc + nth i u 0 * nth i v 0) indices S in
    let A' := fold_left (fun acc i => acc + nth i u 0 * nth i u 0) indices A in
    let B' := fold_left (fun acc i => acc + nth i v 0 * nth i v 0) indices B in
    S' * S' <= A' * B' /\ 0 <= A' /\ 0 <= B').
  { induction indices as [|i indices IH]; intros S A B HA HB HS; simpl.
    - auto.
    - apply IH.
      + pose proof (Rle_0_sqr (nth i u 0)) as H. unfold Rsqr in H. lra.
      + pose proof (Rle_0_sqr (nth i v 0)) as H. unfold Rsqr in H. lra.
      + now apply cauchy_schwarz_step. }
  apply Hfold; lra.
Qed.

Lemma calculateChromaCorrelation_self (chroma : list R) (c : R) :
  calculateChromaCorrelation chroma chroma = Some c -> c = 1.
Proof.
  unfold calculateChromaCorrelation.
  destruct (Req_dec_T _ 0) as [|Hden]; [discriminate|]. intros [= <-].
  destruct (dot12_cauchy_schwarz chroma chroma) as (_ & HA & _).
  rewrite sqrt_sqrt in * by exact HA. unfold Rdiv. apply Rinv_r. exact Hden.
Qed.

(** The chroma vector of a pure C. *)
Definition pureC : list R := [1; 0; 0; 0; 0; 0; 0; 0; 0; 0; 0; 0].

(** *** Key changes *)

(** Frame numbers in strictly increasing order. *)
Fixpoint rising (l : list nat) : Prop :=
  match l with
  | [] => True
  | x :: rest => Forall (fun y => (x < y)%nat) rest /\ rising rest
  end.

Lemma rising_snoc (l : list nat) (x : nat) :
  rising l -> Forall (fun y => (y < x)%nat) l -> rising (l ++ [x]).
Proof.
  induction l as [|y l IH]; intros Hr Hx; simpl.
  - split; [constructor | exact I].
  - destruct Hr as [Hy Hr]. inversion Hx as [|? ? Hyx Hl]; subst. split.
    + apply Forall_app. split; [exact Hy | constructor; [exact Hyx | constructor]].
    + now apply IH.
Qed.

Lemma keyChangeAt_frame (chromaFeatures : list (list R)) (w i : nat) (change : KeyChange) :
  keyChangeAt chromaFeatures w i = Some change ->
  frame change = i /\ correlation change < 0.7.
Proof.
  unfold keyChangeAt. destruct (calculateChromaCorrelation _ _) as [c|]; [|discriminate].
  destruct (Rlt_dec c 0.7) as [Hc|]; [|discriminate].
  intros [= <-]. split; [reflexivity | exact Hc].
Qed.

(** X9: [detectKeyChanges] reports nothing for fewer than two windows of
    frames.  Otherwise every change it reports is at a frame [i] with
    [windowSize <= i < length - windowSize], is what the two windows around
    that frame give, has a correlation below 0.7, and the changes come in
    strictly increasing frame order. *)
Theorem detectKeyChanges_sound (chromaFeatures : list (list R)) (windowSize : nat) :
  let changes := detectKeyChanges chromaFeatures windowSize in
  ((length chromaFeatures < windowSize * 2)%nat -> changes = []) /\
  Forall (fun change =>
            (windowSize <= frame change < length chromaFeatures - windowSize)%nat /\
            keyChangeAt chromaFeatures windowSize (frame change) = Some change /\
            correlation change < 0.7) changes /\
  rising (map frame changes).
Proof.
  unfold detectKeyChanges.
  destruct (Nat.ltb_spec (length chromaFeatures) (windowSize * 2)) as [Hshort|Hlong].
  { split; [reflexivity|]. split; [constructor | exact I]. }
  split; [intros Hshort; lia|].
  set (n := length chromaFeatures) in *.
  set (step := fun keyChanges i => _).
  assert (Hloop : forall count first acc,
    (windowSize <= first)%nat -> (first + count <= n - windowSize)%nat ->
    Forall (fun change =>
              (windowSize <= frame change < first)%nat /\
              keyChangeAt chromaFeatures windowSize (frame change) = Some change /\
              correlation change < 0.7) acc ->
    rising (map frame acc) ->
    Forall (fun change =>
              (windowSize <= frame change < n - windowSize)%nat /\
              keyChangeAt chromaFeatures windowSize (frame change) = Some change /\
              correlation change < 0.7) (fold_left step (seq first count) acc) /\
    rising (map frame (fold_left step (seq first count) acc))).
  { induction count as [|count IH]; intros first acc Hfirst Hlast Hacc Hrise; simpl.
    - split; [|exact Hrise].
      eapply Forall_impl; [|exact Hacc]. simpl. intros c (Hr & Hk & Hx). split; [lia | split; assumption].
    - apply IH; [lia | lia | |].
      + unfold step. destruct (keyChangeAt chromaFeatures windowSize first) as [change|] eqn:E.
        * destruct (keyChangeAt_frame _ _ _ _ E) as [Hf Hc].
          apply Forall_app. split.
          -- eapply Forall_impl; [|exact Hacc]. simpl. intros c (Hr & Hk & Hx). split; [lia | split; assumption].
          -- constructor; [|constructor]. rewrite Hf. split; [lia | split; [exact E | exact Hc]].
        * eapply Forall_impl; [|exact Hacc]. simpl. intros c (Hr & Hk & Hx). split; [lia | split; assumption].
      + unfold step. destruct (keyChangeAt chromaFeatures windowSize first) as [change|] eqn:E.
        * rewrite map_app. simpl. apply rising_snoc; [exact Hrise|].
          destruct (keyChangeAt_frame _ _ _ _ E) as [-> _].
          apply Forall_forall. intros f Hin. apply in_map_iff in Hin.
          destruct Hin as (c & <- & Hin). rewrite Forall_forall in Hacc.
          destruct (Hacc c Hin) as [Hrange _]. lia.
        * exact Hrise. }
  apply Hloop; [lia | lia | constructor | exact I].
Qed.

(** The average of [w >= 1] copies of one vector of twelve entries is that
    vector. *)
Lemma sumFrames_repeat (c : list R) (w : nat) :
  forall avg, length avg = 12%nat ->
    length (fold_left addFrame (repeat c w) avg) = 12%nat /\
    forall i, (i < 12)%nat ->
      nth i (fold_left addFrame (repeat c w) avg) 0 = nth i avg 0 + INR w * nth i c 0.
Proof.
  induction w as [|w IH]; intros avg Havg.
  - simpl. split; [exact Havg|]. intros i Hi. lra.
  - cbn [repeat fold_left].
    destruct (IH (addFrame avg c) (addFrame_length avg c Havg)) as [Hlen Hnth].
    split; [exact Hlen|]. intros i Hi.
    rewrite Hnth, addFrame_nth by assumption. rewrite S_INR. lra.
Qed.

Lemma calculateAverageChroma_repeat (c : list R) (w : nat) :
  length c = 12%nat -> (1 <= w)%nat ->
  calculateAverageChroma (repeat c w) = c.
Proof.
  intros Hc Hw. unfold calculateAverageChroma, sumFrames.
  destruct (sumFrames_repeat c w (repeat 0 12) eq_refl) as [Hlen Hnth].
  apply (nth_ext _ _ 0 0); [now rewrite length_map, Hlen, Hc|].
  rewrite length_map, Hlen. intros i Hi.
  rewrite (nth_map_in _ _ i 0 0) by (rewrite Hlen; exact Hi).
  rewrite Hnth, repeat_length by exact Hi.
  rewrite (nth_Forall_default (fun x => x = 0) (repeat 0 12) i eq_refl)
    by (apply Forall_repeat_const; reflexivity).
  assert (0 < INR w) by (apply lt_0_INR; lia).
  field. lra.
Qed.

Lemma slice_repeat {A : Type} (c : A) (n from to : nat) :
  (to <= n)%nat -> Framing.slice (repeat c n) from to = repeat c (to - from).
Proof.
  intros Hto. unfold Framing.slice.
  assert (Hskip : forall k m, skipn k (repeat c m) = repeat c (m - k)).
  { induction k as [|k IH]; intros [|m]; simpl; try reflexivity. apply IH. }
  assert (Hfirst : forall k m, (k <= m)%nat -> firstn k (repeat c m) = repeat c k).
  { induction k as [|k IH]; intros [|m] Hk; simpl; try reflexivity; try lia.
    f_equal. apply IH. lia. }
  rewrite Hskip. apply Hfirst. lia.
Qed.

(** X10: a sequence that repeats one chroma vector (twelve entries, any
    values) has no key change, whatever the window size of at least 1. *)
Theorem detectKeyChanges_constant (c : list R) (n windowSize : nat) :
  length c = 12%nat -> (1 <= windowSize)%nat ->
  detectKeyChanges (repeat c n) windowSize = [].
Proof.
  intros Hc Hw. unfold detectKeyChanges. rewrite repeat_length.
  destruct (Nat.ltb_spec n (windowSize * 2)) as [|Hlong]; [reflexivity|].
  assert (Hnone : forall i, (windowSize <= i)%nat -> (i + windowSize <= n)%nat ->
            keyChangeAt (repeat c n) windowSize i = None).
  { intros i Hlo Hhi. unfold keyChangeAt.
    rewrite !slice_repeat by lia.
    replace (i - (i - windowSize))%nat with windowSize by lia.
    replace (i + windowSize - i)%nat with windowSize by lia.
    rewrite calculateAverageChroma_repeat by assumption.
    destruct (calculateChromaCorrelation c c) as [x|] eqn:E; [|reflexivity].
    rewrite (calculateChromaCorrelation_self c x E).
    destruct (Rlt_dec 1 0.7); [lra | reflexivity]. }
  assert (Hloop : forall count first,
            (windowSize <= first)%nat -> (first + count + windowSize <= n)%nat ->
            fold_left
              (fun keyChanges i =>
                 match keyChangeAt (repeat c n) windowSize i with
                 | Some change => keyChanges ++ [change]
                 | None => keyChanges
                 end) (seq first count) [] = []).
  { induction count as [|count IH]; intros first Hfirst Hlast; simpl; [reflexivity|].
    rewrite Hnone by lia. apply IH; lia. }
  apply Hloop; lia.
Qed.

Lemma detectKeyChanges_constant_witness :
  detectKeyChanges (repeat pureC 40) 8 = [].
Proof.
  apply (detectKeyChanges_constant pureC 40 8).
  - reflexivity.
  - lia.
Defined.

End ChromaUtilities.

(** ** The utilities of audio/beatAnalysis.js *)
Module BeatUtilities.
Import Lqa.
#[local] Open Scope Q_scope.

(** *** Intervals between beats *)

(** [intervals.reduce((a, b) => a + b, 0)]. *)
Definition sumQ (l : list Q) : Q := fold_left Qplus l 0.

(** The intervals between consecutive beats add up to the distance from
    the first beat to the last. *)
Lemma beatIntervals_telescope (beats : list Q) :
  beats <> [] ->
  sumQ (Beat.beatIntervals beats) == nth (length beats - 1) beats 0 - nth 0 beats 0.
Proof.
  intros Hne. unfold sumQ.
  assert (Hfold : forall l a acc,
            fold_left Qplus (Beat.beatIntervals (a :: l)) acc
            == acc + (nth (length l) (a :: l) 0 - a)).
  { induction l as [|b l IH]; intros a acc.
    - simpl. lra.
    - change (Beat.beatIntervals (a :: b :: l)) with ((b - a) :: Beat.beatIntervals (b :: l)).
      cbn [fold_left]. rewrite IH.
      change (nth (length (b :: l)) (a :: b :: l) 0) with (nth (length l) (b :: l) 0).
      lra. }
  destruct beats as [|a l]; [congruence|].
  rewrite Hfold.
  replace (length (a :: l) - 1)%nat with (length l) by (simpl; lia).
  simpl (nth 0 _ _). lra.
Qed.

Lemma beatIntervals_length (beats : list Q) :
  length (Beat.beatIntervals beats) = (length beats - 1)%nat.
Proof.
  induction beats as [|a [|b l] IH]; try reflexivity.
  change (Beat.beatIntervals (a :: b :: l)) with ((b - a) :: Beat.beatIntervals (b :: l)).
  simpl length in *. rewrite IH. lia.
Qed.

(** *** Tempo changes *)

(** [calculateTempoForBeats(beats)].  An average interval of 0 makes the
    source return [Infinity]; beats in increasing order never give it. *)
Definition calculateTempoForBeats (beats : list Q) : Q :=
  if (length beats <? 2)%nat then 0
  else
    let intervals := Beat.beatIntervals beats in
    let avgInterval := sumQ intervals / inject_Z (Z.of_nat (length intervals)) in
    60 / avgInterval.

Record TempoChange : Type := mkTempoChange {
  time : Q;
  beforeTempo : Q;
  afterTempo : Q;
  change : Q
}.

(** The body of the loop of [detectTempoChanges]. *)
Definition tempoChangeAt (beats : list Q) (windowSize i : nat) : option TempoChange :=
  let beforeBeats := Framing.slice beats (i - windowSize) i in
  let afterBeats := Framing.slice beats i (i + windowSize) in
  let beforeTempo := calculateTempoForBeats beforeBeats in
  let afterTempo := calculateTempoForBeats afterBeats in
  let tempoChange := Qabs (afterTempo - beforeTempo) in
  if Beat.gtb tempoChange 10 then
    Some {| time := nth i beats 0; beforeTempo := beforeTempo;
            afterTempo := afterTempo; change := tempoChange |}
  else None.

(** [detectTempoChanges(beatData, windowSize)] on [beatData.beats]; the
    source's default window is 8. *)
Definition detectTempoChanges (beats : list Q) (windowSize : nat) : list TempoChange :=
  if (length beats <? windowSize * 2)%nat then []
  else
    fold_left
      (fun tempoChanges i =>
         match tempoChangeAt beats windowSize i with
         | Some tempoChange => tempoChanges ++ [tempoChange]
         | None => tempoChanges
         end)
      (seq windowSize (length beats - windowSize - windowSize)) [].

(** Beats at a fixed distance [d], the first at [t0]. *)
Definition evenBeats (t0 d : Q) (from count : nat) : list Q :=
  map (fun k => t0 + inject_Z (Z.of_nat k) * d) (seq from count).

Lemma slice_evenBeats (t0 d : Q) (n from to : nat) :
  (from <= to <= n)%nat ->
  Framing.slice (evenBeats t0 d 0 n) from to = evenBeats t0 d from (to - from).
Proof.
  intros Hft. unfold Framing.slice, evenBeats.
  rewrite skipn_map, firstn_map. f_equal.
  replace n with (from + (n - from))%nat at 1 by lia.
  rewrite seq_app, skipn_app, length_seq, Nat.sub_diag.
  rewrite (skipn_all2 (seq 0 from)) by (rewrite length_seq; lia).
  rewrite skipn_O, app_nil_l.
  replace (n - from)%nat with ((to - from) + (n - to))%nat by lia.
  rewrite seq_app, firstn_app, length_seq, Nat.sub_diag.
  rewrite firstn_all2 by (rewrite length_seq; lia).
  now rewrite firstn_O, app_nil_r.
Qed.

Lemma evenBeats_nth (t0 d : Q) (from count k : nat) :
  (k < count)%nat ->
  nth k (evenBeats t0 d from count) 0 = t0 + inject_Z (Z.of_nat (from + k)) * d.
Proof.
  intros Hk. unfold evenBeats.
  rewrite (ChromaUtilities.nth_map_in _ _ k 0 0%nat) by (rewrite length_seq; exact Hk).
  now rewrite seq_nth.
Qed.

(** The tempo of evenly spaced beats depends on their distance only. *)
Lemma calculateTempoForBeats_even (t0 d : Q) (from count : nat) :
  0 < d ->
  calculateTempoForBeats (evenBeats t0 d from count)
  == if (count <? 2)%nat then 0 else 60 / d.
Proof.
  intros Hd. unfold calculateTempoForBeats.
  assert (Hlen : length (evenBeats t0 d from count) = count)
    by (unfold evenBeats; now rewrite length_map, length_seq).
  rewrite Hlen. destruct (Nat.ltb_spec count 2) as [|Hcount]; [reflexivity|].
  assert (Hne : evenBeats t0 d from count <> []).
  { intros E. rewrite E in Hlen. simpl in Hlen. lia. }
  rewrite (beatIntervals_telescope _ Hne), beatIntervals_length, Hlen.
  rewrite !evenBeats_nth by lia.
  assert (Hn : 0 < inject_Z (Z.of_nat (count - 1))).
  { change 0 with (inject_Z 0). rewrite <- Zlt_Qlt. lia. }
  assert (E : (t0 + inject_Z (Z.of_nat (from + (count - 1))) * d
               - (t0 + inject_Z (Z.of_nat (from + 0)) * d))
              / inject_Z (Z.of_nat (count - 1)) == d).
  { rewrite !Nat2Z.inj_add, !inject_Z_plus. simpl (inject_Z (Z.of_nat 0)).
    field. lra. }
  now rewrite E.
Qed.

(** X14: evenly spaced beats have no tempo change: for beats a fixed
    positive distance apart [detectTempoChanges] returns the empty list,
    for every window size. *)
Theorem detectTempoChanges_even (t0 d : Q) (n windowSize : nat) :
  0 < d ->
  detectTempoChanges (evenBeats t0 d 0 n) windowSize = [].
Proof.
  intros Hd. unfold detectTempoChanges.
  assert (Hlen : length (evenBeats t0 d 0 n) = n)
    by (unfold evenBeats; now rewrite length_map, length_seq).
  rewrite Hlen.
  destruct (Nat.ltb_spec n (windowSize * 2)) as [|Hlong]; [reflexivity|].
  assert (Hnone : forall i, (windowSize <= i)%nat -> (i + windowSize <= n)%nat ->
            tempoChangeAt (evenBeats t0 d 0 n) windowSize i = None).
  { intros i Hlo Hhi. unfold tempoChangeAt.
    rewrite !slice_evenBeats by lia.
    replace (i - (i - windowSize))%nat with windowSize by lia.
    replace (i + windowSize - i)%nat with windowSize by lia.
    assert (E : Qabs (calculateTempoForBeats (evenBeats t0 d i windowSize)
                      - calculateTempoForBeats (evenBeats t0 d (i - windowSize) windowSize))
                == 0).
    { rewrite !calculateTempoForBeats_even by exact Hd.
      assert (Ez : forall x : Q, x - x == 0) by (intros x; ring).
      now rewrite Ez. }
    unfold Beat.gtb.
    assert (Hle : Qle_bool
                    (Qabs (calculateTempoForBeats (evenBeats t0 d i windowSize)
                           - calculateTempoForBeats
                               (evenBeats t0 d (i - windowSize) windowSize))) 10 = true).
    { apply Qle_bool_iff. rewrite E. discriminate. }
    now rewrite Hle. }
  assert (Hloop : forall count first,
            (windowSize <= first)%nat -> (first + count + windowSize <= n)%nat ->
            fold_left
              (fun tempoChanges i =>
                 match tempoChangeAt (evenBeats t0 d 0 n) windowSize i with
                 | Some tempoChange => tempoChanges ++ [tempoChange]
                 | None => tempoChanges
                 end) (seq first count) [] = []).
  { induction count as [|count IH]; intros first Hfirst Hlast; simpl; [reflexivity|].
    rewrite Hnone by lia. apply IH; lia. }
  apply Hloop; lia.
Qed.

Lemma detectTempoChanges_even_witness :
  detectTempoChanges (evenBeats 1 (1 # 2) 0 40) 8 = [].
Proof. apply (detectTempoChanges_even 1 (1 # 2) 40 8). reflexivity. Defined.

(** A tempo that doubles half way is reported. *)
Example detectTempoChanges_doubling :
  map time (detectTempoChanges [0; 1; 2; 3; 7 # 2; 4; 9 # 2; 5] 2) = [3; 7 # 2].
Proof. vm_compute. reflexivity. Qed.

End BeatUtilities.

(** ** The spectral analysis of a buffer *)

Module SpectralUtilities.
Import stdpp.base stdpp.gmap stdpp.strings.
#[local] Open Scope string_scope.
#[local] Open Scope list_scope.
#[local] Open Scope R_scope.

(** The object [spectralFeatures] of [analyzeSpectral]: one array per
    feature and the time stamps, all filled by the same loop. *)
Record SpectralSeries : Type := mkSpectralSeries {
  centroid : list R;
  bandwidth : list R;
  rolloff : list R;
  flux : list R;
  flatness : list R;
  crest : list R;
  energy : list R;
  slope : list R;
  kurtosis : list R;
  skewness : list R;
  timeStamps : list R
}.

(** [Object.keys(spectralFeatures)], each key with its array, in the order
    of the object literal. *)
Definition entries (spectralFeatures : SpectralSeries) : list (string * list R) :=
  [ ("centroid", centroid spectralFeatures);
    ("bandwidth", bandwidth spectralFeatures);
    ("rolloff", rolloff spectralFeatures);
    ("flux", flux spectralFeatures);
    ("flatness", flatness spectralFeatures);
    ("crest", crest spectralFeatures);
    ("energy", energy spectralFeatures);
    ("slope", slope spectralFeatures);
    ("kurtosis", kurtosis spectralFeatures);
    ("skewness", skewness spectralFeatures);
    ("timeStamps", timeStamps spectralFeatures) ].

(** The arrays named by [['centroid', 'bandwidth', 'rolloff', 'flux',
    'flatness']]. *)
Definition trackedFeatures (spectralFeatures : SpectralSeries) : list (string * list R) :=
  [ ("centroid", centroid spectralFeatures);
    ("bandwidth", bandwidth spectralFeatures);
    ("rolloff", rolloff spectralFeatures);
    ("flux", flux spectralFeatures);
    ("flatness", flatness spectralFeatures) ].

(** [data.reduce((a, b) => a + b)]: without an initial value the fold
    starts from the first entry, and an empty array raises a [TypeError]
    ([None]). *)
Definition reduce1 (data : list R) : option R :=
  match data with
  | [] => None
  | x :: rest => Some (fold_left Rplus rest x)
  end.

(** [[...data].sort((a, b) => a - b)]. *)
Fixpoint insertNumeric (x : R) (sorted : list R) : list R :=
  match sorted with
  | [] => [x]
  | y :: rest => if Rle_dec x y then x :: sorted else y :: insertNumeric x rest
  end.

Definition sortNumeric (data : list R) : list R := fold_right insertNumeric [] data.

(** *** [calculateSpectralStatistics] *)

Record FeatureStatistics : Type := mkFeatureStatistics {
  mean : R;
  median : R;
  min : R;
  max : R;
  std : R;
  q25 : R;
  q75 : R
}.

(** [x || 0] for a number [x], [None] standing for [NaN]: a number other
    than 0 is truthy, and 0 and [NaN] give 0. *)
Definition orZero (x : option R) : R :=
  match x with
  | Some v => v
  | None => 0
  end.

(** The object literal assigned to [stats[feature]].  It is evaluated
    before the assignment: the [stats] read by [stats[feature]?.mean] is
    the object as the earlier features left it.  [val - undefined] is
    [NaN]. *)
Definition featureStatistics (stats : gmap string FeatureStatistics) (feature : string)
           (data : list R) : option FeatureStatistics :=
  let sorted := sortNumeric data in
  let len := length sorted in
  match reduce1 data with
  | None => None
  | Some total =>
      let deviation (val : R) : R :=
        orZero (match stats !! feature with
                | Some previous => Some (val - mean previous)
                | None => None
                end) in
      Some {| mean := total / INR len;
              median := if Nat.even len
                        then (nth (len / 2 - 1) sorted 0 + nth (len / 2) sorted 0) / 2
                        else nth (len / 2) sorted 0;
              min := nth 0 sorted 0;
              max := nth (len - 1) sorted 0;
              std := sqrt (Spectral.reduceSum (fun val => deviation val * deviation val) data
                           / INR len);
              q25 := nth (len / 4) sorted 0;
              q75 := nth (3 * len / 4) sorted 0 |}
  end.

(** One call of the [forEach] callback; [None] is the [TypeError] of
    [reduce], which ends the loop. *)
Definition statisticsStep (stats : option (gmap string FeatureStatistics))
           (entry : string * list R) : option (gmap string FeatureStatistics) :=
  match stats with
  | None => None
  | Some stats =>
      let '(feature, data) := entry in
      if String.eqb feature "timeStamps" then Some stats
      else
        match featureStatistics stats feature data with
        | None => None
        | Some statistics => Some (<[feature := statistics]> stats)
        end
  end.

Definition statisticsOf (features : list (string * list R))
  : option (gmap string FeatureStatistics) :=
  fold_left statisticsStep features (Some ∅).

(** [calculateSpectralStatistics(spectralFeatures)]. *)
Definition calculateSpectralStatistics (spectralFeatures : SpectralSeries)
  : option (gmap string FeatureStatistics) :=
  statisticsOf (entries spectralFeatures).

(** *** [detectSpectralEvents] *)

(** The two shapes of event: [{ time, feature, value, intensity, type:
    'peak' }] and [{ time, feature, value, change, type: 'change' }].  The
    intensity is a quotient by [std]; [None] is what a [std] of 0 gives. *)
Inductive SpectralEvent : Type :=
  | PeakEvent (time : R) (feature : string) (value : R) (intensity : option R)
  | ChangeEvent (time : R) (feature : string) (value : R) (change : R).

Definition eventTime (event : SpectralEvent) : R :=
  match event with
  | PeakEvent time _ _ _ => time
  | ChangeEvent time _ _ _ => time
  end.

Definition gtb (a b : R) : bool := if Rgt_dec a b then true else false.

(** The events pushed for frame [i] of one feature. *)
Definition eventsAt (feature : string) (data timeStamps : list R) (mean std : R) (i : nat)
  : list SpectralEvent :=
  let threshold := mean + 2 * std in
  let value := nth i data 0 in
  (if (gtb value threshold && gtb value (nth (i - 1) data 0)
       && gtb value (nth (i + 1) data 0))%bool
   then [PeakEvent (nth i timeStamps 0) feature value
                   (if Req_dec_T std 0 then None else Some ((value - mean) / std))]
   else [])
  ++ (if gtb (Rabs (value - nth (i - 1) data 0)) (2 * std)
      then [ChangeEvent (nth i timeStamps 0) feature value (value - nth (i - 1) data 0)]
      else []).

(** The events of one feature, for [1 <= i < data.length - 1]. *)
Definition featureEvents (timeStamps : list R) (feature : string) (data : list R)
  : option (list SpectralEvent) :=
  match reduce1 data with
  | None => None
  | Some total =>
      let mean := total / INR (length data) in
      let std := sqrt (Spectral.reduceSum (fun val => (val - mean) * (val - mean)) data
                       / INR (length data)) in
      Some (flat_map (eventsAt feature data timeStamps mean std) (seq 1 (length data - 2)))
  end.

(** [events.sort((a, b) => a.time - b.time)]: events at the same time keep
    their order. *)
Fixpoint insertEvent (event : SpectralEvent) (sorted : list SpectralEvent)
  : list SpectralEvent :=
  match sorted with
  | [] => [event]
  | first :: rest =>
      if Rlt_dec (eventTime event) (eventTime first) then event :: sorted
      else first :: insertEvent event rest
  end.

Definition sortEvents (events : list SpectralEvent) : list SpectralEvent :=
  fold_left (fun sorted event => insertEvent event sorted) events [].

(** [detectSpectralEvents(spectralFeatures)]. *)
Definition detectSpectralEvents (spectralFeatures : SpectralSeries)
  : option (list SpectralEvent) :=
  option_map sortEvents
    (fold_left
       (fun events '(feature, data) =>
          match events, featureEvents (timeStamps spectralFeatures) feature data with
          | Some events, Some found => Some (events ++ found)
          | _, _ => None
          end)
       (trackedFeatures spectralFeatures) (Some [])).

(** *** [analyzeSpectralEvolution] *)

Record Trend : Type := mkTrend {
  time : R;
  trend : R;
  beforeValue : R;
  afterValue : R
}.

(** The trend at frame [i]: the means of the 20 frames before it and of
    the 20 frames from it. *)
Definition trendAt (data timeStamps : list R) (i : nat) : option Trend :=
  let windowSize := 20%nat in
  let before := Framing.slice data (i - windowSize) i in
  let after := Framing.slice data i (i + windowSize) in
  match reduce1 before, reduce1 after with
  | Some beforeSum, Some afterSum =>
      let beforeMean := beforeSum / INR (length before) in
      let afterMean := afterSum / INR (length after) in
      Some {| time := nth i timeStamps 0;
              trend := afterMean - beforeMean;
              beforeValue := beforeMean;
              afterValue := afterMean |}
  | _, _ => None
  end.

(** The trends of one feature, for [20 <= i < data.length - 20]. *)
Definition featureTrends (timeStamps data : list R) : option (list Trend) :=
  fold_left
    (fun trends i =>
       match trends, trendAt data timeStamps i with
       | Some trends, Some found => Some (trends ++ [found])
       | _, _ => None
       end)
    (seq 20 (length data - 20 - 20)) (Some []).

(** [analyzeSpectralEvolution(spectralFeatures)]. *)
Definition analyzeSpectralEvolution (spectralFeatures : SpectralSeries)
  : option (gmap string (list Trend)) :=
  fold_left
    (fun evolution '(feature, data) =>
       match evolution, featureTrends (timeStamps spectralFeatures) data with
       | Some evolution, Some trends => Some (<[feature := trends]> evolution)
       | _, _ => None
       end)
    (trackedFeatures spectralFeatures) (Some ∅).

(** *** [analyzeSpectral] *)

Record SpectralResult : Type := mkSpectralResult {
  type : string;
  spectralFeatures : SpectralSeries;
  statistics : gmap string FeatureStatistics;
  events : list SpectralEvent;
  evolution : gmap string (list Trend);
  sampleRate : Q;
  duration : R;
  fftSize : nat;
  hopSize : nat
}.

(** One round of the loop over the windows: the features of the window at
    offset [i] are pushed, and its spectrum becomes the previous one. *)
Definition spectralStep (channelData : list R) (sampleRate : R) (fftSize : nat)
           (state : list (Spectral.SpectralFeatures * R) * option (list R)) (i : nat)
  : list (Spectral.SpectralFeatures * R) * option (list R) :=
  let '(pushed, previousSpectrum) := state in
  let window := Framing.slice channelData i (i + fftSize) in
  let spectrum := Spectral.calculateSpectrum window in
  let features :=
    Spectral.calculateSpectralFeatures spectrum sampleRate fftSize previousSpectrum in
  (pushed ++ [(features, INR i / sampleRate)], Some spectrum).

(** The arrays after the loop. *)
Definition seriesOf (pushed : list (Spectral.SpectralFeatures * R)) : SpectralSeries :=
  let column (feature : Spectral.SpectralFeatures -> R) :=
    map (fun frame => feature (fst frame)) pushed in
  {| centroid := column Spectral.centroid;
     bandwidth := column Spectral.bandwidth;
     rolloff := column Spectral.rolloff;
     flux := column Spectral.flux;
     flatness := column Spectral.flatness;
     crest := column Spectral.crest;
     energy := column Spectral.energy;
     slope := column Spectral.slope;
     kurtosis := column Spectral.kurtosis;
     skewness := column Spectral.skewness;
     timeStamps := map snd pushed |}.

(** [analyzeSpectral(audioBuffer)]: window 2048, hop 1024.  [None] is an
    exception raised on the way. *)
Definition analyzeSpectral (audioBuffer : Basic.AudioBuffer) : option SpectralResult :=
  let channelData := Basic.channelData audioBuffer in
  let sampleRate := Basic.sampleRate audioBuffer in
  let fftSize := 2048%nat in
  let hopSize := (fftSize / 2)%nat in
  match Framing.frameOffsets (length channelData) fftSize hopSize with
  | None => None
  | Some offsets =>
      let pushed :=
        fst (fold_left (spectralStep channelData (Q2R sampleRate) fftSize) offsets ([], None)) in
      let spectralFeatures := seriesOf pushed in
      match calculateSpectralStatistics spectralFeatures with
      | None => None
      | Some statistics =>
          match detectSpectralEvents spectralFeatures with
          | None => None
          | Some events =>
              match analyzeSpectralEvolution spectralFeatures with
              | None => None
              | Some evolution =>
                  Some {| type := "spectral";
                          spectralFeatures := spectralFeatures;
                          statistics := statistics;
                          events := events;
                          evolution := evolution;
                          sampleRate := sampleRate;
                          duration := Basic.duration audioBuffer;
                          fftSize := fftSize;
                          hopSize := hopSize |}
              end
          end
      end
  end.

(** *** [getSpectralProfile] *)

Record SpectralProfile : Type := mkSpectralProfile {
  character : string;
  brightness : R;
  complexity : R;
  noisiness : R;
  dynamism : R;
  energyLevel : R
}.

(** The chain of tests that classifies the spectral character; the
    variable starts as ['unknown']. *)
Definition classify (brightness spread noisiness dynamism fluxStd : R) : string :=
  if (gtb brightness 3000 && gtb spread 1000)%bool then "bright_complex"
  else if (gtb 1000 brightness && gtb 500 spread)%bool then "dark_simple"
  else if gtb noisiness 0.3 then "noisy"
  else if gtb dynamism fluxStd then "dynamic"
  else if gtb brightness 2000 then "bright"
  else "warm".

(** [getSpectralProfile(spectralData)] for [spectralData] with a
    [statistics] object; [None] is the [TypeError] raised when the
    statistics of a feature are missing. *)
Definition getSpectralProfile (spectralData : SpectralResult) : option SpectralProfile :=
  let statistics := statistics spectralData in
  match statistics !! "centroid", statistics !! "bandwidth", statistics !! "flatness",
        statistics !! "flux", statistics !! "energy" with
  | Some centroid, Some bandwidth, Some flatness, Some flux, Some energy =>
      let brightness := mean centroid in
      let spread := mean bandwidth in
      let noisiness := mean flatness in
      let dynamism := mean flux in
      Some {| character := classify brightness spread noisiness dynamism (std flux);
              brightness := brightness;
              complexity := spread;
              noisiness := noisiness;
              dynamism := dynamism;
              energyLevel := mean energy |}
  | _, _, _, _, _ => None
  end.

(** *** The statistics *)

Lemma insertNumeric_length (x : R) (sorted : list R) :
  length (insertNumeric x sorted) = S (length sorted).
Proof.
  induction sorted as [|y rest IH]; simpl; [reflexivity|].
  destruct (Rle_dec x y); simpl; [reflexivity | now rewrite IH].
Qed.

Lemma sortNumeric_length (data : list R) : length (sortNumeric data) = length data.
Proof.
  induction data as [|x data IH]; simpl; [reflexivity|].
  now rewrite insertNumeric_length, IH.
Qed.

Lemma reduce1_returns (data : list R) : data <> [] -> exists total, reduce1 data = Some total.
Proof. destruct data as [|x rest]; [contradiction|]. intros _. eexists. reflexivity. Qed.

Lemma reduce1_raises (data : list R) : reduce1 data = None -> data = [].
Proof. destruct data; [reflexivity | discriminate]. Qed.

(** Once the [TypeError] is raised the remaining features are not
    visited. *)
Lemma statisticsStep_raised (features : list (string * list R)) :
  fold_left statisticsStep features None = None.
Proof. induction features as [|entry features IH]; simpl; [reflexivity | exact IH]. Qed.

(** The statistics of a feature that has no entry in [stats] yet: the mean
    is the sum over the length, and every term of the sum under the square
    root of [std] is 0. *)
Lemma featureStatistics_fresh (stats : gmap string FeatureStatistics) (feature : string)
      (data : list R) (s : FeatureStatistics) :
  stats !! feature = None ->
  featureStatistics stats feature data = Some s ->
  std s = 0 /\ exists total, reduce1 data = Some total /\ mean s = total / INR (length data).
Proof.
  intros Hfresh. unfold featureStatistics. rewrite Hfresh.
  destruct (reduce1 data) as [total|]; [|discriminate].
  intros [= <-]. cbn [std mean]. split.
  - rewrite Spectral.reduceSum_zero.
    + unfold Rdiv. rewrite Rmult_0_l. apply sqrt_0.
    + intros val _. simpl. lra.
  - exists total. split; [reflexivity|]. now rewrite sortNumeric_length.
Qed.

(** The loop does not touch the entries of other keys. *)
Lemma statisticsOf_other (features : list (string * list R)) (key : string) :
  ~ In key (map fst features) ->
  forall stats0 stats : gmap string FeatureStatistics,
    fold_left statisticsStep features (Some stats0) = Some stats ->
    stats !! key = stats0 !! key.
Proof.
  induction features as [|[feature data] features IH]; intros Hnot stats0 stats Hfold.
  - simpl in Hfold. now injection Hfold as <-.
  - simpl in Hfold. simpl in Hnot.
    destruct (String.eqb feature "timeStamps").
    + apply IH; [tauto | exact Hfold].
    + destruct (featureStatistics stats0 feature data) as [s|].
      * rewrite (IH ltac:(tauto) _ _ Hfold). apply lookup_insert_ne. tauto.
      * rewrite statisticsStep_raised in Hfold. discriminate.
Qed.

(** The loop raises only for an empty array. *)
Lemma statisticsOf_raises (features : list (string * list R)) :
  forall stats0 : gmap string FeatureStatistics,
    fold_left statisticsStep features (Some stats0) = None ->
    exists feature data,
      In (feature, data) features /\ feature <> "timeStamps" /\ data = [].
Proof.
  induction features as [|[feature data] features IH]; intros stats0 Hfold.
  - discriminate.
  - simpl in Hfold. destruct (String.eqb_spec feature "timeStamps") as [Ets|Hts].
    + destruct (IH _ Hfold) as (k & d & Hin & Hk & Hd).
      exists k, d. split; [now right | now split].
    + destruct (featureStatistics stats0 feature data) as [s|] eqn:Es.
      * destruct (IH _ Hfold) as (k & d & Hin & Hk & Hd).
        exists k, d. split; [now right | now split].
      * exists feature, data. split; [now left|]. split; [exact Hts|].
        unfold featureStatistics in Es.
        destruct (reduce1 data) eqn:Er; [discriminate|]. now apply reduce1_raises.
Qed.

(** What the loop leaves in [stats], started from an object that has none
    of the keys: an entry for every feature, with the mean of its array
    and a [std] of 0. *)
Lemma statisticsOf_returns (features : list (string * list R)) :
  List.NoDup (map fst features) ->
  forall stats0 stats : gmap string FeatureStatistics,
    (forall feature, In feature (map fst features) -> stats0 !! feature = None) ->
    fold_left statisticsStep features (Some stats0) = Some stats ->
    (forall feature s, stats !! feature = Some s ->
       stats0 !! feature = Some s \/ std s = 0) /\
    (forall feature data, In (feature, data) features -> feature <> "timeStamps" ->
       exists s total,
         stats !! feature = Some s /\ std s = 0 /\
         reduce1 data = Some total /\ mean s = total / INR (length data)).
Proof.
  induction features as [|[feature data] features IH]; intros Hnodup stats0 stats Hfresh Hfold.
  - simpl in Hfold. injection Hfold as <-.
    split; [intros feature s Hs; now left | intros feature data []].
  - inversion Hnodup as [|? ? Hnotin Hnodup']; subst.
    simpl in Hfold. simpl in Hnotin.
    destruct (String.eqb_spec feature "timeStamps") as [Ets|Hts].
    + destruct (IH Hnodup' stats0 stats) as [Hall Hkeys];
        [intros k Hk; apply Hfresh; now right | exact Hfold |].
      split; [exact Hall|].
      intros k d [[= <- <-]|Hin] Hk; [contradiction | now apply Hkeys].
    + destruct (featureStatistics stats0 feature data) as [s0|] eqn:Es0.
      2:{ rewrite statisticsStep_raised in Hfold. discriminate. }
      assert (Hf : stats0 !! feature = None) by (apply Hfresh; now left).
      destruct (featureStatistics_fresh _ _ _ _ Hf Es0) as (Hstd0 & total & Htotal & Hmean0).
      destruct (IH Hnodup' (<[feature := s0]> stats0) stats) as [Hall Hkeys].
      { intros k Hk. rewrite lookup_insert_ne.
        - apply Hfresh. now right.
        - intros ->. contradiction. }
      { exact Hfold. }
      split.
      * intros k s Hs. destruct (Hall k s Hs) as [Hold|Hstd]; [|now right].
        destruct (String.eqb_spec feature k) as [->|Hne].
        -- rewrite lookup_insert_eq in Hold. injection Hold as <-. now right.
        -- rewrite lookup_insert_ne in Hold by exact Hne. now left.
      * intros k d [[= <- <-]|Hin] Hk; [|now apply Hkeys].
        exists s0, total.
        rewrite (statisticsOf_other features feature Hnotin _ _ Hfold), lookup_insert_eq.
        repeat split; assumption.
Qed.

Lemma entries_keys (spectralFeatures : SpectralSeries) :
  map fst (entries spectralFeatures)
  = ["centroid"; "bandwidth"; "rolloff"; "flux"; "flatness"; "crest"; "energy"; "slope";
     "kurtosis"; "skewness"; "timeStamps"].
Proof. reflexivity. Qed.

Lemma entries_NoDup (spectralFeatures : SpectralSeries) :
  List.NoDup (map fst (entries spectralFeatures)).
Proof.
  rewrite entries_keys.
  repeat (apply List.NoDup_cons; [simpl; intuition discriminate|]). apply List.NoDup_nil.
Qed.

(** X16: [calculateSpectralStatistics] raises the [TypeError] of [reduce]
    exactly when one of the ten feature arrays is empty.  Otherwise the
    statistics of every feature are there, their [mean] is the sum of the
    array over its length, and every [std] is 0: the literal that holds
    [std] reads [stats[feature]] before that entry is written, so each
    deviation is [NaN || 0]. *)
Theorem calculateSpectralStatistics_std_zero (spectralFeatures : SpectralSeries) :
  match calculateSpectralStatistics spectralFeatures with
  | Some stats =>
      (forall feature s, stats !! feature = Some s -> std s = 0) /\
      (forall feature data,
         In (feature, data) (entries spectralFeatures) -> feature <> "timeStamps" ->
         exists s total,
           stats !! feature = Some s /\ std s = 0 /\
           reduce1 data = Some total /\ mean s = total / INR (length data))
  | None =>
      exists feature data,
        In (feature, data) (entries spectralFeatures) /\
        feature <> "timeStamps" /\ data = []
  end.
Proof.
  unfold calculateSpectralStatistics, statisticsOf.
  destruct (fold_left statisticsStep (entries spectralFeatures) (Some ∅)) as [stats|] eqn:Efold.
  - destruct (statisticsOf_returns _ (entries_NoDup spectralFeatures) ∅ stats) as [Hall Hkeys].
    + intros feature _. apply lookup_empty.
    + exact Efold.
    + split; [|exact Hkeys].
      intros feature s Hs. destruct (Hall feature s Hs) as [Hold|Hstd]; [|exact Hstd].
      rewrite lookup_empty in Hold. discriminate.
  - now apply statisticsOf_raises in Efold.
Qed.

(** The deviations do spread: the statistics of [[1; 3]] have mean 2 and
    [std] 0, where the standard deviation is 1. *)
Example std_of_1_3 :
  option_map (fun s => (mean s, std s)) (featureStatistics ∅ "flux" [1; 3])
  = Some (2, 0).
Proof.
  unfold featureStatistics. rewrite lookup_empty, sortNumeric_length. simpl.
  f_equal. f_equal.
  - lra.
  - unfold Spectral.reduceSum. simpl.
    replace ((0 + 0 * 0 + 0 * 0) / (1 + 1)) with 0 by lra. apply sqrt_0.
Qed.

(** *** Events and trends never raise on arrays that are not empty *)

Lemma events_loop_returns (timeStamps : list R) (features : list (string * list R)) :
  Forall (fun entry => snd entry <> []) features ->
  forall events0 : list SpectralEvent,
    exists events,
      fold_left
        (fun events '(feature, data) =>
           match events, featureEvents timeStamps feature data with
           | Some events, Some found => Some (events ++ found)
           | _, _ => None
           end)
        features (Some events0) = Some events.
Proof.
  induction 1 as [|[feature data] features Hdata _ IH]; intros events0; simpl.
  - eexists. reflexivity.
  - simpl in Hdata. unfold featureEvents at 2.
    destruct (reduce1_returns data Hdata) as [total ->]. apply IH.
Qed.

Lemma trendAt_returns (data timeStamps : list R) (i : nat) :
  (20 <= i)%nat -> (i + 20 <= length data)%nat ->
  exists found, trendAt data timeStamps i = Some found.
Proof.
  intros Hlo Hhi. unfold trendAt.
  assert (Hbefore : length (Framing.slice data (i - 20) i) = 20%nat).
  { replace i with (i - 20 + 20)%nat at 2 by lia. apply Framing.slice_length. lia. }
  assert (Hafter : length (Framing.slice data i (i + 20)) = 20%nat).
  { apply Framing.slice_length. lia. }
  destruct (reduce1_returns (Framing.slice data (i - 20) i)) as [beforeSum ->].
  { intros E. rewrite E in Hbefore. discriminate. }
  destruct (reduce1_returns (Framing.slice data i (i + 20))) as [afterSum ->].
  { intros E. rewrite E in Hafter. discriminate. }
  eexists. reflexivity.
Qed.

Lemma featureTrends_returns (timeStamps data : list R) :
  exists trends, featureTrends timeStamps data = Some trends.
Proof.
  unfold featureTrends.
  assert (Hloop : forall count first trends0,
            (20 <= first)%nat -> (first + count + 20 <= length data)%nat ->
            exists trends,
              fold_left
                (fun trends i =>
                   match trends, trendAt data timeStamps i with
                   | Some trends, Some found => Some (trends ++ [found])
                   | _, _ => None
                   end)
                (seq first count) (Some trends0) = Some trends).
  { induction count as [|count IH]; intros first trends0 Hlo Hhi; simpl.
    - eexists. reflexivity.
    - destruct (trendAt_returns data timeStamps first) as [found ->]; [lia | lia |].
      apply IH; lia. }
  destruct (Nat.le_gt_cases 40 (length data)) as [Hlong|Hshort].
  - apply Hloop; lia.
  - replace (length data - 20 - 20)%nat with 0%nat by lia. eexists. reflexivity.
Qed.

Lemma evolution_loop_returns (timeStamps : list R) (features : list (string * list R)) :
  forall evolution0 : gmap string (list Trend),
    exists evolution,
      fold_left
        (fun evolution '(feature, data) =>
           match evolution, featureTrends timeStamps data with
           | Some evolution, Some trends => Some (<[feature := trends]> evolution)
           | _, _ => None
           end)
        features (Some evolution0) = Some evolution.
Proof.
  induction features as [|[feature data] features IH]; intros evolution0; simpl.
  - eexists. reflexivity.
  - destruct (featureTrends_returns timeStamps data) as [trends ->]. apply IH.
Qed.

(** *** The loop over the windows *)

Lemma flux_nonneg (spectrum : list R) (sampleRate : R) (fftSize : nat)
      (previousSpectrum : option (list R)) :
  0 <= Spectral.flux
         (Spectral.calculateSpectralFeatures spectrum sampleRate fftSize previousSpectrum).
Proof.
  unfold Spectral.calculateSpectralFeatures.
  destruct (Req_dec_T _ 0); cbn [Spectral.flux]; [lra|].
  destruct previousSpectrum; [apply sqrt_pos | lra].
Qed.

Lemma flux_first (spectrum : list R) (sampleRate : R) (fftSize : nat) :
  Spectral.flux (Spectral.calculateSpectralFeatures spectrum sampleRate fftSize None) = 0.
Proof.
  unfold Spectral.calculateSpectralFeatures.
  destruct (Req_dec_T _ 0); reflexivity.
Qed.

Lemma spectralLoop_spec (channelData : list R) (sampleRate : R) (fftSize : nat)
      (offsets : list nat) :
  forall pushed previousSpectrum,
    exists new,
      fst (fold_left (spectralStep channelData sampleRate fftSize) offsets
                     (pushed, previousSpectrum)) = pushed ++ new /\
      map snd new = map (fun i => INR i / sampleRate) offsets /\
      Forall (fun frame => 0 <= Spectral.flux (fst frame)) new /\
      (previousSpectrum = None -> forall frame rest,
         new = frame :: rest -> Spectral.flux (fst frame) = 0).
Proof.
  induction offsets as [|i offsets IH]; intros pushed previousSpectrum.
  - exists []. simpl. rewrite app_nil_r.
    split; [reflexivity|]. split; [reflexivity|]. split; [constructor|].
    intros _ frame rest. discriminate.
  - simpl fold_left.
    set (spectrum := Spectral.calculateSpectrum _).
    set (features := Spectral.calculateSpectralFeatures _ _ _ _).
    destruct (IH (pushed ++ [(features, INR i / sampleRate)]) (Some spectrum))
      as (new & Hfst & Hsnd & Hflux & _).
    exists ((features, INR i / sampleRate) :: new).
    split; [rewrite Hfst, <- app_assoc; reflexivity|].
    split; [simpl; now rewrite Hsnd|].
    split; [constructor; [apply flux_nonneg | exact Hflux]|].
    intros -> frame rest [= <- _]. apply flux_first.
Qed.

Lemma seriesOf_lengths (pushed : list (Spectral.SpectralFeatures * R)) :
  Forall (fun entry => length (snd entry) = length pushed) (entries (seriesOf pushed)).
Proof.
  unfold entries, seriesOf. cbn [centroid bandwidth rolloff flux flatness crest energy slope
                                 kurtosis skewness timeStamps].
  repeat (apply List.Forall_cons; [cbn [snd]; apply length_map|]). apply List.Forall_nil.
Qed.

Lemma tracked_lengths (pushed : list (Spectral.SpectralFeatures * R)) :
  Forall (fun entry => length (snd entry) = length pushed) (trackedFeatures (seriesOf pushed)).
Proof.
  unfold trackedFeatures, seriesOf. cbn [centroid bandwidth rolloff flux flatness].
  repeat (apply List.Forall_cons; [cbn [snd]; apply length_map|]). apply List.Forall_nil.
Qed.

(** What [analyzeSpectral] returns for a buffer with at least one window:
    the arrays are those pushed by the loop, one entry per window. *)
Lemma analyzeSpectral_returns (audioBuffer : Basic.AudioBuffer) :
  (2048 < length (Basic.channelData audioBuffer))%nat ->
  exists result pushed,
    analyzeSpectral audioBuffer = Some result /\
    spectralFeatures result = seriesOf pushed /\
    calculateSpectralStatistics (seriesOf pushed) = Some (statistics result) /\
    detectSpectralEvents (seriesOf pushed) = Some (events result) /\
    analyzeSpectralEvolution (seriesOf pushed) = Some (evolution result) /\
    length pushed
    = Framing.frameCount (length (Basic.channelData audioBuffer)) 2048 1024 /\
    (0 < length pushed)%nat /\
    map snd pushed
    = map (fun k => INR (k * 1024) / Q2R (Basic.sampleRate audioBuffer))
          (seq 0 (length pushed)) /\
    Forall (fun frame => 0 <= Spectral.flux (fst frame)) pushed /\
    (forall frame rest, pushed = frame :: rest -> Spectral.flux (fst frame) = 0).
Proof.
  intros Hlen. unfold analyzeSpectral.
  change (2048 / 2)%nat with 1024%nat.
  rewrite Framing.frameOffsets_closed_form by lia.
  set (frames := Framing.frameCount _ 2048 1024).
  assert (Hframes : (0 < frames)%nat).
  { apply Framing.frameCount_outside; lia. }
  destruct (spectralLoop_spec (Basic.channelData audioBuffer)
              (Q2R (Basic.sampleRate audioBuffer)) 2048
              (map (fun k => (k * 1024)%nat) (seq 0 frames)) [] None)
    as (pushed & Hfst & Hsnd & Hflux & Hfirst).
  rewrite Hfst, app_nil_l.
  assert (Hcount : length pushed = frames).
  { rewrite <- (length_map snd pushed), Hsnd, !length_map, length_seq. reflexivity. }
  assert (Hne : forall entry, In entry (entries (seriesOf pushed)) -> snd entry <> []).
  { intros entry Hin E. pose proof (seriesOf_lengths pushed) as Hall.
    rewrite List.Forall_forall in Hall. specialize (Hall entry Hin).
    rewrite E in Hall. simpl in Hall. lia. }
  destruct (calculateSpectralStatistics (seriesOf pushed)) as [stats|] eqn:Estats.
  2:{ apply statisticsOf_raises in Estats. destruct Estats as (k & d & Hin & _ & ->).
      exfalso. now apply (Hne (k, []) Hin). }
  destruct (events_loop_returns (timeStamps (seriesOf pushed))
              (trackedFeatures (seriesOf pushed))) with (events0 := @nil SpectralEvent)
    as [found Hfound].
  { pose proof (tracked_lengths pushed) as Hall.
    eapply List.Forall_impl; [|exact Hall]. intros entry Hentry E.
    cbv beta in Hentry. rewrite E in Hentry. simpl in Hentry. lia. }
  unfold detectSpectralEvents. rewrite Hfound. cbn [option_map].
  destruct (evolution_loop_returns (timeStamps (seriesOf pushed))
              (trackedFeatures (seriesOf pushed)) ∅) as [trends Htrends].
  unfold analyzeSpectralEvolution. rewrite Htrends.
  eexists. exists pushed.
  split; [reflexivity|]. cbn [spectralFeatures statistics events evolution].
  split; [reflexivity|]. split; [exact Estats|].
  split; [rewrite Hfound; reflexivity|]. split; [exact Htrends|]. split; [exact Hcount|].
  split; [lia|]. split.
  { rewrite Hsnd, Hcount, map_map. reflexivity. }
  split; [exact Hflux|]. apply Hfirst. reflexivity.
Qed.

(** X17: [analyzeSpectral] raises a [TypeError] for every buffer of at
    most 2048 samples (no window fits, and the statistics reduce an empty
    array).  For a longer buffer it returns; the ten feature arrays and the
    time stamps then have one entry per window, the time stamp of window
    [k] is [k * 1024 / sampleRate] (for a positive sample rate), the flux
    of the first window is 0 and no flux is negative. *)
Theorem analyzeSpectral_frames (audioBuffer : Basic.AudioBuffer) :
  let len := length (Basic.channelData audioBuffer) in
  let frames := Framing.frameCount len 2048 1024 in
  ((len <= 2048)%nat -> analyzeSpectral audioBuffer = None) /\
  ((2048 < len)%nat ->
   exists result,
     analyzeSpectral audioBuffer = Some result /\
     (0 < frames)%nat /\
     Forall (fun entry => length (snd entry) = frames) (entries (spectralFeatures result)) /\
     (0 < Q2R (Basic.sampleRate audioBuffer) ->
      timeStamps (spectralFeatures result)
      = map (fun k => INR (k * 1024) / Q2R (Basic.sampleRate audioBuffer)) (seq 0 frames)) /\
     nth 0 (flux (spectralFeatures result)) 0 = 0 /\
     Forall (fun x => 0 <= x) (flux (spectralFeatures result))).
Proof.
  intros len frames. split.
  - intros Hshort. unfold analyzeSpectral.
    change (2048 / 2)%nat with 1024%nat.
    rewrite Framing.frameOffsets_closed_form by lia.
    fold len. replace (Framing.frameCount len 2048 1024) with 0%nat.
    + reflexivity.
    + unfold Framing.frameCount. symmetry. apply Nat.div_small. lia.
  - intros Hlong.
    destruct (analyzeSpectral_returns audioBuffer Hlong)
      as (result & pushed & Hresult & Hseries & _ & _ & _ & Hcount & Hpos & Hstamps & Hflux
          & Hfirst).
    fold len in Hcount. fold frames in Hcount.
    exists result. split; [exact Hresult|]. split; [lia|].
    rewrite Hseries. split.
    { rewrite <- Hcount. apply seriesOf_lengths. }
    split.
    { intros _. cbn [seriesOf timeStamps]. rewrite Hstamps, Hcount. reflexivity. }
    cbn [seriesOf flux]. split.
    + destruct pushed as [|frame rest]; [simpl in Hpos; lia|].
      simpl. apply (Hfirst frame rest). reflexivity.
    + apply List.Forall_forall. intros x Hx. apply in_map_iff in Hx.
      destruct Hx as (frame & <- & Hin).
      rewrite List.Forall_forall in Hflux. now apply Hflux.
Qed.

(** *** The profile of an analysis *)

Lemma sum_zero_all_zero (l : list R) :
  Forall (fun x => 0 <= x) l ->
  forall a, 0 <= a -> fold_left Rplus l a <= 0 -> a = 0 /\ Forall (fun x => x = 0) l.
Proof.
  induction 1 as [|x l Hx _ IH]; intros a Ha Hsum; simpl in Hsum.
  - split; [lra | constructor].
  - destruct (IH (a + x)) as [Hax Hl]; [lra | exact Hsum |].
    split; [lra|]. constructor; [lra | exact Hl].
Qed.

Lemma gtb_false (a b : R) : gtb a b = false -> a <= b.
Proof. unfold gtb. destruct (Rgt_dec a b); [discriminate | intros _; lra]. Qed.

Lemma classify_known (brightness spread noisiness dynamism fluxStd : R) :
  In (classify brightness spread noisiness dynamism fluxStd)
     ["bright_complex"; "dark_simple"; "noisy"; "dynamic"; "bright"; "warm"].
Proof.
  unfold classify.
  repeat match goal with
         | |- context [if ?b then _ else _] => destruct b
         end; simpl; tauto.
Qed.

Lemma classify_calm (brightness spread noisiness dynamism fluxStd : R) :
  classify brightness spread noisiness dynamism fluxStd = "bright"
  \/ classify brightness spread noisiness dynamism fluxStd = "warm" ->
  dynamism <= fluxStd.
Proof.
  unfold classify.
  destruct (gtb brightness 3000 && gtb spread 1000)%bool; [intros [|]; discriminate|].
  destruct (gtb 1000 brightness && gtb 500 spread)%bool; [intros [|]; discriminate|].
  destruct (gtb noisiness 0.3); [intros [|]; discriminate|].
  destruct (gtb dynamism fluxStd) eqn:E; [intros [|]; discriminate|].
  intros _. now apply gtb_false.
Qed.

(** X18: the profile of an analysis.  For a buffer of more than 2048
    samples [getSpectralProfile] of the result of [analyzeSpectral]
    returns a profile whose character is one of the six names of the chain
    (never ['unknown']), and because the [std] of the flux is always 0 the
    characters ['bright'] and ['warm'] are given only when the flux of
    every window is 0. *)
Theorem getSpectralProfile_of_analysis (audioBuffer : Basic.AudioBuffer) :
  (2048 < length (Basic.channelData audioBuffer))%nat ->
  exists result profile,
    analyzeSpectral audioBuffer = Some result /\
    getSpectralProfile result = Some profile /\
    In (character profile)
       ["bright_complex"; "dark_simple"; "noisy"; "dynamic"; "bright"; "warm"] /\
    (character profile = "bright" \/ character profile = "warm" ->
     Forall (fun x => x = 0) (flux (spectralFeatures result))).
Proof.
  intros Hlong.
  destruct (analyzeSpectral_returns audioBuffer Hlong)
    as (result & pushed & Hresult & Hseries & Hstats & _ & _ & _ & Hpos & _ & Hflux & _).
  unfold calculateSpectralStatistics, statisticsOf in Hstats.
  destruct (statisticsOf_returns _ (entries_NoDup (seriesOf pushed)) ∅ _
              (fun feature _ => lookup_empty feature) Hstats) as [_ Hkeys].
  assert (Hkey : forall feature data,
            In (feature, data) (entries (seriesOf pushed)) -> feature <> "timeStamps" ->
            exists s total, statistics result !! feature = Some s /\ std s = 0 /\
                            reduce1 data = Some total /\ mean s = total / INR (length data))
    by exact Hkeys.
  destruct (Hkey "centroid" (centroid (seriesOf pushed))) as (sc & ? & Hc & _);
    [simpl; tauto | discriminate |].
  destruct (Hkey "bandwidth" (bandwidth (seriesOf pushed))) as (sb & ? & Hb & _);
    [simpl; tauto | discriminate |].
  destruct (Hkey "flatness" (flatness (seriesOf pushed))) as (sf & ? & Hf & _);
    [simpl; tauto | discriminate |].
  destruct (Hkey "flux" (flux (seriesOf pushed))) as (sx & total & Hx & Hstd & Htotal & Hmean);
    [simpl; tauto | discriminate |].
  destruct (Hkey "energy" (energy (seriesOf pushed))) as (se & ? & He & _);
    [simpl; tauto | discriminate |].
  exists result. eexists. split; [exact Hresult|].
  unfold getSpectralProfile. rewrite Hc, Hb, Hf, Hx, He.
  split; [reflexivity|]. cbn [character]. split; [apply classify_known|].
  intros Hcalm. apply classify_calm in Hcalm.
  rewrite Hstd, Hmean in Hcalm. rewrite Hseries.
  assert (Hnonneg : Forall (fun x => 0 <= x) (flux (seriesOf pushed))).
  { cbn [seriesOf flux]. apply List.Forall_forall. intros value Hin.
    apply in_map_iff in Hin. destruct Hin as (frame & <- & Hin).
    rewrite List.Forall_forall in Hflux. now apply Hflux. }
  assert (Hn : 0 < INR (length (flux (seriesOf pushed)))).
  { cbn [seriesOf flux]. rewrite length_map. apply lt_0_INR. exact Hpos. }
  assert (Htot : total <= 0).
  { destruct (Rle_lt_dec total 0) as [|Hgt]; [assumption|].
    pose proof (Rdiv_lt_0_compat _ _ Hgt Hn). lra. }
  destruct (flux (seriesOf pushed)) as [|first rest]; [constructor|].
  simpl in Htotal. injection Htotal as <-.
  inversion Hnonneg as [|? ? Hfirst Hrest]; subst.
  destruct (sum_zero_all_zero rest Hrest first Hfirst Htot) as [-> Hzero].
  constructor; [reflexivity | exact Hzero].
Qed.

Definition silence2049 : Basic.AudioBuffer :=
  {| Basic.channelData := repeat 0 2049;
     Basic.sampleRate := 44100%Q;
     Basic.duration := 2049 / 44100 |}.

Lemma getSpectralProfile_of_analysis_witness :
  exists result profile,
    analyzeSpectral silence2049 = Some result /\
    getSpectralProfile result = Some profile /\
    In (character profile)
       ["bright_complex"; "dark_simple"; "noisy"; "dynamic"; "bright"; "warm"] /\
    (character profile = "bright" \/ character profile = "warm" ->
     Forall (fun x => x = 0) (flux (spectralFeatures result))).
Proof.
  apply (getSpectralProfile_of_analysis silence2049).
  unfold silence2049. cbn [Basic.channelData]. rewrite repeat_length. lia.
Defined.

(** *** The events and the trends of an analysis *)

Definition eventFeature (event : SpectralEvent) : string :=
  match event with
  | PeakEvent _ feature _ _ => feature
  | ChangeEvent _ feature _ _ => feature
  end.

Definition eventValue (event : SpectralEvent) : R :=
  match event with
  | PeakEvent _ _ value _ => value
  | ChangeEvent _ _ value _ => value
  end.

Fixpoint sortedByTime (events : list SpectralEvent) : Prop :=
  match events with
  | first :: ((second :: _) as rest) =>
      eventTime first <= eventTime second /\ sortedByTime rest
  | _ => True
  end.

Lemma insertEvent_In (event other : SpectralEvent) (sorted : list SpectralEvent) :
  In other (insertEvent event sorted) <-> other = event \/ In other sorted.
Proof.
  induction sorted as [|first rest IH]; simpl.
  - intuition.
  - destruct (Rlt_dec (eventTime event) (eventTime first)); simpl; [intuition|].
    rewrite IH. intuition.
Qed.

Lemma insertEvent_sorted (event : SpectralEvent) (sorted : list SpectralEvent) :
  sortedByTime sorted -> sortedByTime (insertEvent event sorted).
Proof.
  induction sorted as [|first rest IH]; intros Hsorted; [exact I|].
  cbn [insertEvent]. destruct (Rlt_dec (eventTime event) (eventTime first)) as [Hlt|Hge].
  - split; [lra | exact Hsorted].
  - destruct rest as [|second rest].
    + simpl. split; [lra | exact I].
    + destruct Hsorted as [Hle Hrest]. specialize (IH Hrest).
      cbn [insertEvent] in *.
      destruct (Rlt_dec (eventTime event) (eventTime second)).
      * split; [lra | exact IH].
      * split; [exact Hle | exact IH].
Qed.

Lemma sortEvents_spec (events : list SpectralEvent) :
  sortedByTime (sortEvents events) /\
  forall event, In event (sortEvents events) <-> In event events.
Proof.
  unfold sortEvents.
  assert (Hloop : forall sorted,
            sortedByTime sorted ->
            sortedByTime (fold_left (fun sorted event => insertEvent event sorted) events sorted)
            /\ forall event,
                 In event (fold_left (fun sorted event => insertEvent event sorted) events sorted)
                 <-> In event sorted \/ In event events).
  { induction events as [|e events IH]; intros sorted Hsorted; simpl.
    - split; [exact Hsorted | intuition].
    - destruct (IH (insertEvent e sorted) (insertEvent_sorted e sorted Hsorted)) as [Hs Hin].
      split; [exact Hs|]. intros event. rewrite Hin, insertEvent_In. intuition. }
  destruct (Hloop [] I) as [Hs Hin]. split; [exact Hs|].
  intros event. rewrite Hin. simpl. intuition.
Qed.

(** The standard deviation [detectSpectralEvents] computes for a
    feature. *)
Definition deviation (data : list R) (mean : R) : R :=
  sqrt (Spectral.reduceSum (fun val => (val - mean) * (val - mean)) data
        / INR (length data)).

(** What the loop body has tested before it pushes an event for frame
    [i]. *)
Definition eventAt (data : list R) (mean std : R) (i : nat) (event : SpectralEvent)
  : Prop :=
  match event with
  | PeakEvent _ _ value intensity =>
      value > mean + 2 * std /\ value > nth (i - 1) data 0 /\ value > nth (i + 1) data 0 /\
      intensity = (if Req_dec_T std 0 then None else Some ((value - mean) / std))
  | ChangeEvent _ _ value change =>
      change = value - nth (i - 1) data 0 /\ Rabs change > 2 * std
  end.

Lemma gtb_true (a b : R) : gtb a b = true -> a > b.
Proof. unfold gtb. destruct (Rgt_dec a b); [auto | discriminate]. Qed.

(** An event pushed at frame [i] carries the time stamp and the value of
    that frame, and the frame has passed the test of its kind. *)
Lemma eventsAt_spec (feature : string) (data timeStamps : list R) (mean std : R) (i : nat)
      (event : SpectralEvent) :
  In event (eventsAt feature data timeStamps mean std i) ->
  eventTime event = nth i timeStamps 0 /\ eventFeature event = feature /\
  eventValue event = nth i data 0 /\ eventAt data mean std i event.
Proof.
  unfold eventsAt. intros Hin. apply in_app_or in Hin.
  destruct Hin as [Hin|Hin].
  - destruct (_ && _ && _)%bool eqn:Etest; [|contradiction].
    apply andb_true_iff in Etest. destruct Etest as [Etest E3].
    apply andb_true_iff in Etest. destruct Etest as [E1 E2].
    apply gtb_true in E1, E2, E3.
    destruct Hin as [<-|[]]. cbn [eventTime eventFeature eventValue eventAt].
    repeat split; try reflexivity; assumption.
  - destruct (gtb _ _) eqn:Etest; [|contradiction]. apply gtb_true in Etest.
    destruct Hin as [<-|[]]. cbn [eventTime eventFeature eventValue eventAt].
    repeat split; try reflexivity; assumption.
Qed.

Lemma featureEvents_spec (timeStamps : list R) (feature : string) (data : list R)
      (found : list SpectralEvent) (event : SpectralEvent) :
  featureEvents timeStamps feature data = Some found -> In event found ->
  exists i total,
    (1 <= i)%nat /\ (i + 1 < length data)%nat /\
    reduce1 data = Some total /\
    eventTime event = nth i timeStamps 0 /\ eventFeature event = feature /\
    eventValue event = nth i data 0 /\
    eventAt data (total / INR (length data))
            (deviation data (total / INR (length data))) i event.
Proof.
  unfold featureEvents. destruct (reduce1 data) as [total|]; [|discriminate].
  intros [= <-] Hin. apply in_flat_map in Hin. destruct Hin as (i & Hi & Hin).
  apply in_seq in Hi. exists i, total. split; [lia|]. split; [lia|].
  split; [reflexivity|]. now apply eventsAt_spec in Hin.
Qed.

Lemma events_loop_spec (timeStamps : list R) (features : list (string * list R)) :
  forall (events0 events : list SpectralEvent),
    fold_left
      (fun events '(feature, data) =>
         match events, featureEvents timeStamps feature data with
         | Some events, Some found => Some (events ++ found)
         | _, _ => None
         end)
      features (Some events0) = Some events ->
    forall event, In event events ->
      In event events0 \/
      exists data i total,
        In (eventFeature event, data) features /\ (1 <= i)%nat /\ (i + 1 < length data)%nat /\
        reduce1 data = Some total /\
        eventTime event = nth i timeStamps 0 /\ eventValue event = nth i data 0 /\
        eventAt data (total / INR (length data))
                (deviation data (total / INR (length data))) i event.
Proof.
  induction features as [|[feature data] features IH]; intros events0 events Hfold event Hin.
  - simpl in Hfold. injection Hfold as <-. now left.
  - simpl in Hfold.
    destruct (featureEvents timeStamps feature data) as [found|] eqn:Efound.
    + destruct (IH _ _ Hfold event Hin) as [Hold|(d & i & total & Hd & Hrest)].
      * apply in_app_or in Hold. destruct Hold as [Hold|Hnew]; [now left|].
        right. destruct (featureEvents_spec _ _ _ _ _ Efound Hnew)
          as (i & total & Hlo & Hhi & Htotal & Htime & Hfeature & Hvalue & Htest).
        exists data, i, total. rewrite Hfeature. split; [now left|]. repeat split; assumption.
      * right. exists d, i, total. split; [now right | exact Hrest].
    + exfalso. clear -Hfold. induction features as [|[f d] features IHf]; simpl in Hfold.
      * discriminate.
      * now apply IHf.
Qed.

(** The trends of one feature: one for every frame with 20 frames on
    either side, each the record [trendAt] builds for its frame. *)
Lemma featureTrends_spec (timeStamps data : list R) (trends : list Trend) :
  featureTrends timeStamps data = Some trends ->
  length trends = (length data - 40)%nat /\
  forall k found, nth_error trends k = Some found ->
    trendAt data timeStamps (20 + k) = Some found.
Proof.
  unfold featureTrends. replace (length data - 20 - 20)%nat with (length data - 40)%nat by lia.
  generalize (length data - 40)%nat. intros count.
  assert (Hloop : forall count first trends0 trends,
            length trends0 = (first - 20)%nat -> (20 <= first)%nat ->
            (forall k found, nth_error trends0 k = Some found ->
               trendAt data timeStamps (20 + k) = Some found) ->
            fold_left
              (fun trends i =>
                 match trends, trendAt data timeStamps i with
                 | Some trends, Some found => Some (trends ++ [found])
                 | _, _ => None
                 end)
              (seq first count) (Some trends0) = Some trends ->
            length trends = (first - 20 + count)%nat /\
            forall k found, nth_error trends k = Some found ->
              trendAt data timeStamps (20 + k) = Some found).
  { clear. induction count as [|count IH]; intros first trends0 trends Hlen Hfirst Hall Hfold.
    - simpl in Hfold. injection Hfold as <-. split; [lia | exact Hall].
    - simpl in Hfold. destruct (trendAt data timeStamps first) as [found|] eqn:Efound.
      + destruct (IH (S first) (trends0 ++ [found]) trends) as [Hlen' Hall'].
        * rewrite length_app. simpl. lia.
        * lia.
        * intros k other Hk.
          destruct (Nat.lt_ge_cases k (length trends0)) as [Hold|Hnew].
          -- rewrite nth_error_app1 in Hk by exact Hold. now apply Hall.
          -- rewrite nth_error_app2 in Hk by exact Hnew.
             destruct (k - length trends0)%nat as [|n] eqn:Ek; simpl in Hk.
             ++ injection Hk as <-.
                replace (20 + k)%nat with first by lia. exact Efound.
             ++ destruct n; discriminate.
        * exact Hfold.
        * split; [lia | exact Hall'].
      + exfalso. clear -Hfold. revert Hfold. generalize (S first).
        induction count as [|count IHc]; intros n Hfold; simpl in Hfold; [discriminate|].
        now apply (IHc (S n)). }
  intros Hfold. destruct (Hloop count 20%nat [] trends eq_refl (Nat.le_refl 20)) as [Hlen Hall].
  - intros k found Hk. destruct k; discriminate.
  - exact Hfold.
  - split; [simpl in Hlen; lia | exact Hall].
Qed.

(** The record [trendAt] builds for a frame with 20 frames on either
    side. *)
Lemma trendAt_means (data timeStamps : list R) (k : nat) (found : Trend) :
  (k + 40 <= length data)%nat ->
  trendAt data timeStamps (20 + k) = Some found ->
  exists beforeSum afterSum,
    reduce1 (Framing.slice data k (k + 20)) = Some beforeSum /\
    reduce1 (Framing.slice data (k + 20) (k + 40)) = Some afterSum /\
    time found = nth (20 + k) timeStamps 0 /\
    beforeValue found = beforeSum / 20 /\
    afterValue found = afterSum / 20 /\
    trend found = afterSum / 20 - beforeSum / 20.
Proof.
  intros Hfit. unfold trendAt.
  replace (20 + k - 20)%nat with k by lia.
  replace (20 + k)%nat with (k + 20)%nat by lia.
  replace (k + 20 + 20)%nat with (k + 20 + 20)%nat by lia.
  rewrite (Framing.slice_length data k 20) by lia.
  rewrite (Framing.slice_length data (k + 20) 20) by lia.
  replace (k + 20 + 20)%nat with (k + 40)%nat by lia.
  destruct (reduce1 (Framing.slice data k (k + 20))) as [beforeSum|]; [|discriminate].
  destruct (reduce1 (Framing.slice data (k + 20) (k + 40))) as [afterSum|]; [|discriminate].
  assert (E20 : INR 20 = 20) by (simpl; lra).
  rewrite E20.
  intros [= <-]. exists beforeSum, afterSum.
  cbn [time trend beforeValue afterValue].
  repeat split; reflexivity.
Qed.

Lemma evolution_loop_other (timeStamps : list R) (features : list (string * list R))
      (key : string) :
  ~ In key (map fst features) ->
  forall evolution0 evolution : gmap string (list Trend),
    fold_left
      (fun evolution '(feature, data) =>
         match evolution, featureTrends timeStamps data with
         | Some evolution, Some trends => Some (<[feature := trends]> evolution)
         | _, _ => None
         end)
      features (Some evolution0) = Some evolution ->
    evolution !! key = evolution0 !! key.
Proof.
  induction features as [|[feature data] features IH]; intros Hnot evolution0 evolution Hfold.
  - simpl in Hfold. now injection Hfold as <-.
  - simpl in Hfold. simpl in Hnot.
    destruct (featureTrends timeStamps data) as [trends|].
    + rewrite (IH ltac:(tauto) _ _ Hfold). apply lookup_insert_ne. tauto.
    + exfalso. clear -Hfold. induction features as [|[f d] features IHf]; simpl in Hfold.
      * discriminate.
      * now apply IHf.
Qed.

Lemma evolution_loop_spec (timeStamps : list R) (features : list (string * list R)) :
  List.NoDup (map fst features) ->
  forall evolution0 evolution : gmap string (list Trend),
    fold_left
      (fun evolution '(feature, data) =>
         match evolution, featureTrends timeStamps data with
         | Some evolution, Some trends => Some (<[feature := trends]> evolution)
         | _, _ => None
         end)
      features (Some evolution0) = Some evolution ->
    forall feature data, In (feature, data) features ->
      exists trends,
        evolution !! feature = Some trends /\ featureTrends timeStamps data = Some trends.
Proof.
  induction features as [|[feature data] features IH];
    intros Hnodup evolution0 evolution Hfold key d Hin; [contradiction|].
  inversion Hnodup as [|? ? Hnotin Hnodup']; subst. simpl in Hfold.
  destruct (featureTrends timeStamps data) as [trends|] eqn:Etrends.
  - destruct Hin as [[= <- <-]|Hin].
    + exists trends. split; [|exact Etrends].
      rewrite (evolution_loop_other timeStamps features feature Hnotin _ _ Hfold).
      apply lookup_insert_eq.
    + now apply (IH Hnodup' _ _ Hfold).
  - exfalso. clear -Hfold. induction features as [|[f d'] features IHf]; simpl in Hfold.
    + discriminate.
    + now apply IHf.
Qed.

Lemma tracked_NoDup (spectralFeatures : SpectralSeries) :
  List.NoDup (map fst (trackedFeatures spectralFeatures)).
Proof.
  unfold trackedFeatures. cbn [map fst].
  repeat (apply List.NoDup_cons; [simpl; intuition discriminate|]). apply List.NoDup_nil.
Qed.

(** X30: the events and the trends of an analysis.  For a buffer of more
    than 2048 samples the events of the result are in the order of their
    time stamps.  Every event belongs to one of the five tracked features
    and to a frame [i] that is neither the first nor the last, whose time
    stamp and value it carries; with [mean] and [std] the mean and the
    standard deviation of the feature over all frames, a peak event was
    pushed because the value exceeds [mean + 2 * std] and both neighbours,
    and a change event because the value differs from the one before by
    more than [2 * std], the difference being its [change].  Every tracked
    feature has one trend per frame with 20 frames on either side (none
    when there are at most 40 frames): at the time stamp of its frame,
    with [beforeValue] the sum of the 20 values before the frame divided
    by 20, [afterValue] the sum of the 20 values from the frame on divided
    by 20, and [trend] their difference. *)
Theorem analyzeSpectral_events_and_trends (audioBuffer : Basic.AudioBuffer) :
  (2048 < length (Basic.channelData audioBuffer))%nat ->
  exists result,
    analyzeSpectral audioBuffer = Some result /\
    let frames := Framing.frameCount (length (Basic.channelData audioBuffer)) 2048 1024 in
    let series := spectralFeatures result in
    sortedByTime (events result) /\
    (forall event, In event (events result) ->
       exists data i total,
         In (eventFeature event, data) (trackedFeatures series) /\
         (1 <= i)%nat /\ (i + 1 < frames)%nat /\
         reduce1 data = Some total /\
         eventTime event = nth i (timeStamps series) 0 /\
         eventValue event = nth i data 0 /\
         eventAt data (total / INR frames) (deviation data (total / INR frames)) i event) /\
    (forall feature data, In (feature, data) (trackedFeatures series) ->
       exists trends,
         evolution result !! feature = Some trends /\
         length trends = (frames - 40)%nat /\
         forall k found, nth_error trends k = Some found ->
           exists beforeSum afterSum,
             reduce1 (Framing.slice data k (k + 20)) = Some beforeSum /\
             reduce1 (Framing.slice data (k + 20) (k + 40)) = Some afterSum /\
             time found = nth (20 + k) (timeStamps series) 0 /\
             beforeValue found = beforeSum / 20 /\
             afterValue found = afterSum / 20 /\
             trend found = afterSum / 20 - beforeSum / 20).
Proof.
  intros Hlong.
  destruct (analyzeSpectral_returns audioBuffer Hlong)
    as (result & pushed & Hresult & Hseries & _ & Hevents & Hevolution & Hcount & _).
  exists result. split; [exact Hresult|]. cbv zeta. rewrite Hseries.
  pose proof (tracked_lengths pushed) as Hlengths. rewrite List.Forall_forall in Hlengths.
  unfold detectSpectralEvents in Hevents.
  destruct (fold_left _ (trackedFeatures (seriesOf pushed)) (Some [])) as [found|] eqn:Efound;
    [|discriminate].
  injection Hevents as Hevents.
  destruct (sortEvents_spec found) as [Hsorted Hsame]. rewrite Hevents in Hsorted, Hsame.
  split; [exact Hsorted|]. split.
  - intros event Hin. apply Hsame in Hin.
    destruct (events_loop_spec _ _ _ _ Efound event Hin)
      as [[]|(data & i & total & Hd & Hlo & Hhi & Htotal & Ht & Hv & Htest)].
    exists data, i, total. split; [exact Hd|]. split; [exact Hlo|].
    pose proof (Hlengths _ Hd) as Hlen. cbn [snd] in Hlen.
    rewrite <- Hcount, <- Hlen.
    split; [lia|]. split; [exact Htotal|]. split; [exact Ht|]. split; [exact Hv | exact Htest].
  - intros feature data Hin.
    destruct (evolution_loop_spec _ _ (tracked_NoDup (seriesOf pushed)) _ _ Hevolution
                                  feature data Hin) as (trends & Hlookup & Htrends).
    exists trends. split; [exact Hlookup|].
    destruct (featureTrends_spec _ _ _ Htrends) as [Hlen Hall].
    pose proof (Hlengths _ Hin) as Hdata. cbn [snd] in Hdata.
    split; [lia|].
    intros k entry Hk. apply trendAt_means; [|now apply Hall].
    assert (Hbound : (k < length trends)%nat).
    { apply nth_error_Some. rewrite Hk. discriminate. }
    lia.
Qed.

(** A silent buffer of 43009 samples: 41 frames, hence one trend per
    feature. *)
Definition silence43009 : Basic.AudioBuffer :=
  {| Basic.channelData := repeat 0 (42 * 1024 + 1);
     Basic.sampleRate := 44100%Q;
     Basic.duration := 43009 / 44100 |}.

Lemma analyzeSpectral_events_and_trends_witness :
  exists result,
    analyzeSpectral silence43009 = Some result /\
    let frames := Framing.frameCount (length (Basic.channelData silence43009)) 2048 1024 in
    let series := spectralFeatures result in
    sortedByTime (events result) /\
    (forall event, In event (events result) ->
       exists data i total,
         In (eventFeature event, data) (trackedFeatures series) /\
         (1 <= i)%nat /\ (i + 1 < frames)%nat /\
         reduce1 data = Some total /\
         eventTime event = nth i (timeStamps series) 0 /\
         eventValue event = nth i data 0 /\
         eventAt data (total / INR frames) (deviation data (total / INR frames)) i event) /\
    (forall feature data, In (feature, data) (trackedFeatures series) ->
       exists trends,
         evolution result !! feature = Some trends /\
         length trends = (frames - 40)%nat /\
         forall k found, nth_error trends k = Some found ->
           exists beforeSum afterSum,
             reduce1 (Framing.slice data k (k + 20)) = Some beforeSum /\
             reduce1 (Framing.slice data (k + 20) (k + 40)) = Some afterSum /\
             time found = nth (20 + k) (timeStamps series) 0 /\
             beforeValue found = beforeSum / 20 /\
             afterValue found = afterSum / 20 /\
             trend found = afterSum / 20 - beforeSum / 20).
Proof.
  apply (analyzeSpectral_events_and_trends silence43009).
  unfold silence43009. cbn [Basic.channelData]. rewrite repeat_length. lia.
Defined.

Example silence43009_frames :
  Framing.frameCount (length (Basic.channelData silence43009)) 2048 1024 = 41%nat.
Proof.
  unfold silence43009. cbn [Basic.channelData]. rewrite repeat_length.
  unfold Framing.frameCount.
  replace (42 * 1024 + 1 - 2048 + 1024 - 1)%nat with (41 * 1024)%nat by lia.
  apply Nat.div_mul. lia.
Qed.

End SpectralUtilities.

(** ** The bit-reversal table of the transform *)

Module BitReversal.
#[local] Open Scope Z_scope.

(** The loop of [reverseBits] without the conversions to 32 bits: each
    round moves the lowest bit of [num] to the low end of [result]. *)
Fixpoint reverseLoop (rounds : nat) (result num : Z) : Z :=
  match rounds with
  | O => result
  | S rounds' => reverseLoop rounds' (2 * result + num mod 2) (num / 2)
  end.

Lemma toInt32_small (z : Z) : 0 <= z < 2 ^ 31 -> AudioUtils.toInt32 z = z.
Proof.
  intros Hz. unfold AudioUtils.toInt32.
  change (2 ^ 31) with 2147483648 in *. change (2 ^ 32) with 4294967296.
  rewrite Z.mod_small by lia. lia.
Qed.

(** [(result << 1) | (num & 1)] on naturals is [2 * result + num mod 2]. *)
Lemma shift_or_bit (result num : Z) :
  0 <= result ->
  Z.lor (Z.shiftl result 1) (Z.land num 1) = 2 * result + num mod 2.
Proof.
  intros Hresult.
  change 1 with (Z.ones 1) at 2. rewrite Z.land_ones by lia. change (2 ^ 1) with 2.
  pose proof (Z.mod_pos_bound num 2 ltac:(lia)) as Hbit.
  assert (Hcases : num mod 2 = 0 \/ num mod 2 = 1) by lia.
  destruct result as [|p|p]; [| |lia].
  - destruct Hcases as [-> | ->]; reflexivity.
  - destruct Hcases as [-> | ->]; reflexivity.
Qed.

(** As long as nothing reaches bit 31 the source's loop is
    [reverseLoop]. *)
Lemma reverseBits_loop (rounds : nat) :
  forall (start : nat) (result num : Z),
    0 <= result -> 0 <= num < 2 ^ 31 ->
    (result + 1) * 2 ^ Z.of_nat rounds <= 2 ^ 31 ->
    fst (fold_left
           (fun '(result, num) (_ : nat) =>
              (AudioUtils.toInt32 (Z.lor (Z.shiftl result 1) (Z.land num 1)),
               Z.shiftr (AudioUtils.toInt32 num) 1))
           (seq start rounds) (result, num))
    = reverseLoop rounds result num.
Proof.
  induction rounds as [|rounds IH]; intros start result num Hresult Hnum Hroom.
  - reflexivity.
  - rewrite Nat2Z.inj_succ, Z.pow_succ_r in Hroom by lia.
    assert (Hpow : 0 < 2 ^ Z.of_nat rounds) by (apply Z.pow_pos_nonneg; lia).
    pose proof (Z.mod_pos_bound num 2 ltac:(lia)) as Hbit.
    simpl fold_left. simpl reverseLoop.
    rewrite shift_or_bit by exact Hresult.
    rewrite (toInt32_small num) by exact Hnum.
    rewrite Z.shiftr_div_pow2 by lia. change (2 ^ 1) with 2.
    rewrite toInt32_small by nia.
    apply IH.
    + lia.
    + split; [apply Z.div_pos; lia|].
      apply Z.div_lt_upper_bound; lia.
    + nia.
Qed.

(** Bit [j] of the result: the bits of [num] in reverse below [rounds],
    the bits of [result] above. *)
Lemma reverseLoop_testbit (rounds : nat) :
  forall (result num j : Z),
    0 <= j ->
    Z.testbit (reverseLoop rounds result num) j
    = if j <? Z.of_nat rounds
      then Z.testbit num (Z.of_nat rounds - 1 - j)
      else Z.testbit result (j - Z.of_nat rounds).
Proof.
  induction rounds as [|rounds IH]; intros result num j Hj.
  - change (Z.of_nat 0) with 0. cbn [reverseLoop].
    destruct (Z.ltb_spec j 0); [lia|]. now rewrite Z.sub_0_r.
  - simpl reverseLoop. rewrite IH by exact Hj. rewrite Nat2Z.inj_succ.
    assert (Ebit : num mod 2 = Z.b2z (Z.testbit num 0)) by (symmetry; apply Z.bit0_mod).
    rewrite Ebit.
    destruct (Z.ltb_spec j (Z.of_nat rounds)) as [Hlow|Hhigh].
    + destruct (Z.ltb_spec j (Z.succ (Z.of_nat rounds))); [|lia].
      rewrite <- Z.div2_div, Z.div2_spec, Z.shiftr_spec by lia. f_equal. lia.
    + destruct (Z.ltb_spec j (Z.succ (Z.of_nat rounds))) as [Hlast|Habove].
      * replace (j - Z.of_nat rounds) with 0 by lia.
        rewrite Z.testbit_0_r. f_equal. lia.
      * replace (j - Z.of_nat rounds) with (Z.succ (j - Z.succ (Z.of_nat rounds))) by lia.
        rewrite Z.testbit_succ_r by lia. reflexivity.
Qed.

Lemma reverseLoop_range (rounds : nat) :
  forall (result num : Z),
    0 <= result -> 0 <= num ->
    0 <= reverseLoop rounds result num < (result + 1) * 2 ^ Z.of_nat rounds.
Proof.
  induction rounds as [|rounds IH]; intros result num Hresult Hnum.
  - simpl. lia.
  - simpl reverseLoop. rewrite Nat2Z.inj_succ, Z.pow_succ_r by lia.
    pose proof (Z.mod_pos_bound num 2 ltac:(lia)) as Hbit.
    assert (Hpow : 0 < 2 ^ Z.of_nat rounds) by (apply Z.pow_pos_nonneg; lia).
    destruct (IH (2 * result + num mod 2) (num / 2)) as [Hlo Hhi];
      [lia | apply Z.div_pos; lia |].
    split; [exact Hlo | nia].
Qed.

Lemma reverseBits_reverseLoop (num bits : Z) :
  0 <= bits <= 31 -> 0 <= num < 2 ^ bits ->
  AudioUtils.reverseBits num bits = reverseLoop (Z.to_nat bits) 0 num.
Proof.
  intros Hbits Hnum. unfold AudioUtils.reverseBits.
  assert (Hle : 2 ^ bits <= 2 ^ 31) by (apply Z.pow_le_mono_r; lia).
  apply reverseBits_loop; [lia | lia |].
  rewrite Z2Nat.id by lia. lia.
Qed.

(** Below the rounds, bit [j] of the reversal is bit [rounds - 1 - j]. *)
Lemma reverseLoop_bits (rounds : nat) (num j : Z) :
  0 <= j ->
  Z.testbit (reverseLoop rounds 0 num) j
  = if j <? Z.of_nat rounds then Z.testbit num (Z.of_nat rounds - 1 - j) else false.
Proof.
  intros Hj. rewrite reverseLoop_testbit by exact Hj.
  destruct (j <? Z.of_nat rounds); [reflexivity | apply Z.bits_0].
Qed.

(** Reversing twice gives the number back. *)
Lemma reverseLoop_twice (rounds : nat) (num : Z) :
  0 <= num < 2 ^ Z.of_nat rounds ->
  reverseLoop rounds 0 (reverseLoop rounds 0 num) = num.
Proof.
  intros Hnum. apply Z.bits_inj'. intros j Hj.
  rewrite reverseLoop_bits by exact Hj.
  destruct (Z.ltb_spec j (Z.of_nat rounds)) as [Hlow|Hhigh].
  - rewrite reverseLoop_bits by lia.
    destruct (Z.ltb_spec (Z.of_nat rounds - 1 - j) (Z.of_nat rounds)); [|lia].
    f_equal. lia.
  - symmetry. rewrite <- (Z.mod_small num (2 ^ Z.of_nat rounds)) by exact Hnum.
    apply Z.mod_pow2_bits_high. lia.
Qed.

(** X19: [reverseBits(num, bits)] for [bits <= 31] and [num < 2 ^ bits]
    stays below [2 ^ bits], has bit [j] equal to bit [bits - 1 - j] of
    [num], and reversing twice gives [num] back: the table of bit-reversal
    indices is a permutation that is its own inverse. *)
Theorem reverseBits_involution (num bits : Z) :
  0 <= bits <= 31 -> 0 <= num < 2 ^ bits ->
  0 <= AudioUtils.reverseBits num bits < 2 ^ bits /\
  (forall j, 0 <= j < bits ->
     Z.testbit (AudioUtils.reverseBits num bits) j = Z.testbit num (bits - 1 - j)) /\
  AudioUtils.reverseBits (AudioUtils.reverseBits num bits) bits = num.
Proof.
  intros Hbits Hnum.
  rewrite (reverseBits_reverseLoop num bits Hbits Hnum).
  pose proof (reverseLoop_range (Z.to_nat bits) 0 num ltac:(lia) ltac:(lia)) as Hrange.
  rewrite Z2Nat.id in Hrange by lia. rewrite Z.add_0_l, Z.mul_1_l in Hrange.
  split; [exact Hrange|]. split.
  - intros j Hj. rewrite reverseLoop_bits by lia. rewrite Z2Nat.id by lia.
    destruct (Z.ltb_spec j bits); [reflexivity | lia].
  - rewrite (reverseBits_reverseLoop _ bits Hbits Hrange).
    apply reverseLoop_twice. rewrite Z2Nat.id by lia. exact Hnum.
Qed.

Lemma reverseBits_involution_witness :
  0 <= AudioUtils.reverseBits 6 4 < 2 ^ 4 /\
  (forall j, 0 <= j < 4 ->
     Z.testbit (AudioUtils.reverseBits 6 4) j = Z.testbit 6 (4 - 1 - j)) /\
  AudioUtils.reverseBits (AudioUtils.reverseBits 6 4) 4 = 6.
Proof. apply (reverseBits_involution 6 4); lia. Defined.

(** With 32 bits the loop leaves the 32-bit range: the reversal of 1 is
    [-2 ^ 31]. *)
Example reverseBits_32 : AudioUtils.reverseBits 1 32 = - 2 ^ 31.
Proof. vm_compute. reflexivity. Qed.

End BitReversal.

(** ** The filters of the audio utilities *)

Module AudioFilters.
Import Lqa.
#[local] Open Scope Q_scope.

(** The indices [j] of the inner loop
    [for (j = Math.max(0, i - halfWindow);
          j <= Math.min(data.length - 1, i + halfWindow); j++)]. *)
Definition windowIndices (len halfWindow i : nat) : list nat :=
  let first := Nat.max 0 (i - halfWindow) in
  let last := Nat.min (len - 1) (i + halfWindow) in
  seq first (last + 1 - first).

(** [medianFilter(data, windowSize)]. *)
Definition medianFilter (data : list Q) (windowSize : nat) : list Q :=
  let halfWindow := (windowSize / 2)%nat in
  map (fun i =>
         let window := map (fun j => nth j data 0)
                           (windowIndices (length data) halfWindow i) in
         let sorted := Beat.sortNumeric window in
         let medianIndex := (length sorted / 2)%nat in
         nth medianIndex sorted 0)
      (seq 0 (length data)).

(** The window of an index of the array holds that index, and only
    indices of the array at most [halfWindow] away. *)
Lemma windowIndices_spec (len halfWindow i j : nat) :
  (i < len)%nat ->
  In j (windowIndices len halfWindow i) <->
  (i - halfWindow <= j <= i + halfWindow /\ j < len)%nat.
Proof.
  intros Hi. unfold windowIndices. rewrite in_seq. lia.
Qed.

Lemma windowIndices_nonempty (len halfWindow i : nat) :
  (i < len)%nat -> (1 <= length (windowIndices len halfWindow i))%nat.
Proof. intros Hi. unfold windowIndices. rewrite length_seq. lia. Qed.

(** X21: [medianFilter] keeps the length of the data, and every entry of
    the result is a sample of the data at most [floor(windowSize / 2)]
    places away. *)
Theorem medianFilter_picks (data : list Q) (windowSize : nat) :
  length (medianFilter data windowSize) = length data /\
  forall i, (i < length data)%nat ->
    exists j,
      (i - windowSize / 2 <= j <= i + windowSize / 2)%nat /\ (j < length data)%nat /\
      nth i (medianFilter data windowSize) 0 = nth j data 0.
Proof.
  unfold medianFilter. split.
  - now rewrite length_map, length_seq.
  - intros i Hi.
    rewrite (ChromaUtilities.nth_map_in _ _ i 0 0%nat) by (rewrite length_seq; exact Hi).
    rewrite seq_nth by exact Hi. simpl (0 + i)%nat.
    set (indices := windowIndices (length data) (windowSize / 2) i).
    set (window := map (fun j => nth j data 0) indices).
    assert (Hlen : length (Beat.sortNumeric window) = length indices).
    { rewrite <- (Permutation_length (Beat.sortNumeric_perm window)).
      unfold window. apply length_map. }
    pose proof (windowIndices_nonempty (length data) (windowSize / 2) i Hi) as Hne.
    fold indices in Hne.
    assert (Hin : In (nth (length (Beat.sortNumeric window) / 2) (Beat.sortNumeric window) 0)
                     window).
    { apply (Permutation_in _ (Permutation_sym (Beat.sortNumeric_perm window))).
      apply nth_In. rewrite Hlen. apply Nat.div_lt; lia. }
    unfold window in Hin at 3. apply in_map_iff in Hin. destruct Hin as (j & Ej & Hj).
    apply windowIndices_spec in Hj; [|exact Hi].
    exists j. split; [lia|]. split; [lia|]. symmetry. exact Ej.
Qed.

Example medianFilter_removes_spike :
  medianFilter [1; 1; 9; 1; 1] 3 = [1; 1; 1; 1; 1].
Proof. reflexivity. Qed.

End AudioFilters.

(** ** The tempo estimate of the audio utilities *)

Module AudioTools.
Import Lqa.
#[local] Open Scope Q_scope.

(** *** [estimateTempo] *)

(** [Math.round]: the nearest integer, halves upwards. *)
Definition Math_round (x : Q) : Z := Qfloor (x + (1 # 2)).

(** [histogram.set(bpm, (histogram.get(bpm) || 0) + 1)] on a [Map], whose
    keys stay in the order of their first insertion. *)
Fixpoint bump (bpm : Z) (histogram : list (Z * nat)) : list (Z * nat) :=
  match histogram with
  | [] => [(bpm, 1%nat)]
  | (key, count) :: rest =>
      if (key =? bpm)%Z then (key, S count) :: rest
      else (key, count) :: bump bpm rest
  end.

(** [Math.round(60 / interval)]; an interval of 0 gives [Infinity], which
    like the 0 computed here is outside [[60, 200]]. *)
Definition intervalBpm (interval : Q) : Z := Math_round (60 / interval).

Definition inRange (bpm : Z) : bool := ((60 <=? bpm) && (bpm <=? 200))%Z.

Definition tempoHistogram (intervals : list Q) : list (Z * nat) :=
  fold_left
    (fun histogram interval =>
       let bpm := intervalBpm interval in
       if inRange bpm then bump bpm histogram else histogram)
    intervals [].

(** The loop [for (const [bpm, count] of histogram)]. *)
Definition mostCommon (histogram : list (Z * nat)) : nat * Z :=
  fold_left
    (fun '(maxCount, estimatedTempo) '(bpm, count) =>
       if (maxCount <? count)%nat then (count, bpm) else (maxCount, estimatedTempo))
    histogram (0%nat, 0%Z).

(** [estimateTempo(beatTimes)]. *)
Definition estimateTempo (beatTimes : list Q) : Z :=
  if (length beatTimes <? 2)%nat then 0%Z
  else snd (mostCommon (tempoHistogram (Beat.beatIntervals beatTimes))).

(** The number of intervals whose tempo rounds to [bpm]. *)
Definition votes (intervals : list Q) (bpm : Z) : nat :=
  length (filter (fun interval => (intervalBpm interval =? bpm)%Z) intervals).

(** [histogram.get(bpm) || 0]. *)
Fixpoint getCount (bpm : Z) (histogram : list (Z * nat)) : nat :=
  match histogram with
  | [] => 0%nat
  | (key, count) :: rest => if (key =? bpm)%Z then count else getCount bpm rest
  end.

Lemma getCount_bump (bpm other : Z) (histogram : list (Z * nat)) :
  getCount other (bump bpm histogram)
  = if (bpm =? other)%Z then S (getCount other histogram) else getCount other histogram.
Proof.
  induction histogram as [|[key count] rest IH]; simpl.
  - rewrite Z.eqb_sym. destruct (Z.eqb_spec other bpm); reflexivity.
  - destruct (Z.eqb_spec key bpm) as [->|Hkey]; simpl.
    + destruct (Z.eqb_spec bpm other); reflexivity.
    + destruct (Z.eqb_spec key other) as [->|Hother].
      * destruct (Z.eqb_spec bpm other); [congruence | reflexivity].
      * exact IH.
Qed.

Lemma bump_keys (bpm key : Z) (histogram : list (Z * nat)) :
  In key (map fst (bump bpm histogram)) <-> key = bpm \/ In key (map fst histogram).
Proof.
  induction histogram as [|[k count] rest IH]; simpl.
  - intuition.
  - destruct (Z.eqb_spec k bpm) as [->|Hk]; simpl; [intuition|].
    rewrite IH. intuition.
Qed.

Lemma bump_NoDup (bpm : Z) (histogram : list (Z * nat)) :
  NoDup (map fst histogram) -> NoDup (map fst (bump bpm histogram)).
Proof.
  induction histogram as [|[k count] rest IH]; simpl; intros Hnodup.
  - constructor; [intros [] | constructor].
  - inversion Hnodup as [|? ? Hnotin Hrest]; subst.
    destruct (Z.eqb_spec k bpm) as [->|Hk]; simpl.
    + constructor; assumption.
    + constructor; [|apply IH, Hrest].
      rewrite bump_keys. intros [E|Hin]; [congruence | contradiction].
Qed.

Lemma bump_positive (bpm : Z) (histogram : list (Z * nat)) :
  Forall (fun entry => (1 <= snd entry)%nat) histogram ->
  Forall (fun entry => (1 <= snd entry)%nat) (bump bpm histogram).
Proof.
  induction 1 as [|[k count] rest Hcount Hrest IH]; simpl.
  - constructor; [simpl; lia | constructor].
  - destruct (Z.eqb_spec k bpm); constructor; simpl in *; try lia; assumption.
Qed.

(** With distinct keys an entry holds the count of its key. *)
Lemma entry_getCount (histogram : list (Z * nat)) (key : Z) (count : nat) :
  NoDup (map fst histogram) -> In (key, count) histogram -> getCount key histogram = count.
Proof.
  induction histogram as [|[k c] rest IH]; simpl; intros Hnodup Hin; [contradiction|].
  inversion Hnodup as [|? ? Hnotin Hrest]; subst.
  destruct Hin as [[= -> ->]|Hin].
  - now rewrite Z.eqb_refl.
  - destruct (Z.eqb_spec k key) as [->|Hk]; [|now apply IH].
    exfalso. apply Hnotin. apply in_map_iff. exists (key, count). now split.
Qed.

Lemma getCount_entry (histogram : list (Z * nat)) (key : Z) :
  (1 <= getCount key histogram)%nat -> In (key, getCount key histogram) histogram.
Proof.
  induction histogram as [|[k c] rest IH]; simpl; intros Hcount; [lia|].
  destruct (Z.eqb_spec k key) as [->|Hk]; [now left | right; now apply IH].
Qed.

(** The histogram counts the votes of the tempi in range, each under one
    key. *)
Lemma tempoHistogram_spec (intervals : list Q) :
  let histogram := tempoHistogram intervals in
  NoDup (map fst histogram) /\
  Forall (fun entry => (1 <= snd entry)%nat) histogram /\
  forall bpm, getCount bpm histogram = if inRange bpm then votes intervals bpm else 0%nat.
Proof.
  unfold tempoHistogram. induction intervals as [|interval intervals IH] using rev_ind.
  - simpl. split; [constructor|]. split; [constructor|].
    intros bpm. now destruct (inRange bpm).
  - rewrite fold_left_app.
    destruct IH as (Hnodup & Hpos & Hcount).
    set (histogram := fold_left _ intervals []) in *. cbn [fold_left].
    assert (Hvotes : forall bpm,
              votes (intervals ++ [interval]) bpm
              = if (intervalBpm interval =? bpm)%Z then S (votes intervals bpm)
                else votes intervals bpm).
    { intros bpm. unfold votes. rewrite filter_app, length_app. simpl.
      destruct (intervalBpm interval =? bpm)%Z; simpl; lia. }
    destruct (inRange (intervalBpm interval)) eqn:Erange.
    + split; [apply bump_NoDup, Hnodup|]. split; [apply bump_positive, Hpos|].
      intros bpm. rewrite getCount_bump, Hcount, Hvotes.
      destruct (Z.eqb_spec (intervalBpm interval) bpm) as [<-|Hne]; [|reflexivity].
      now rewrite Erange.
    + split; [exact Hnodup|]. split; [exact Hpos|].
      intros bpm. rewrite Hcount, Hvotes.
      destruct (Z.eqb_spec (intervalBpm interval) bpm) as [<-|Hne]; [|reflexivity].
      now rewrite Erange.
Qed.

(** The scan keeps the first entry with the greatest count. *)
Lemma mostCommon_loop (histogram : list (Z * nat)) :
  forall (maxCount : nat) (estimatedTempo : Z),
    let result :=
      fold_left
        (fun '(maxCount, estimatedTempo) '(bpm, count) =>
           if (maxCount <? count)%nat then (count, bpm) else (maxCount, estimatedTempo))
        histogram (maxCount, estimatedTempo) in
    (maxCount <= fst result)%nat /\
    Forall (fun entry => (snd entry <= fst result)%nat) histogram /\
    (result = (maxCount, estimatedTempo) \/ In (snd result, fst result) histogram).
Proof.
  induction histogram as [|[bpm count] rest IH]; intros maxCount estimatedTempo; simpl.
  - split; [lia|]. split; [constructor | now left].
  - destruct (Nat.ltb_spec maxCount count) as [Hlt|Hge].
    + destruct (IH count bpm) as (Hle & Hall & Hin).
      split; [lia|]. split; [constructor; [exact Hle | exact Hall]|].
      right. destruct Hin as [->|Hin]; [now left | now right].
    + destruct (IH maxCount estimatedTempo) as (Hle & Hall & Hin).
      split; [exact Hle|]. split; [constructor; [simpl; lia | exact Hall]|].
      destruct Hin as [E|Hin]; [now left | right; now right].
Qed.

Lemma beatIntervals_short (beatTimes : list Q) :
  (length beatTimes < 2)%nat -> Beat.beatIntervals beatTimes = [].
Proof. destruct beatTimes as [|a [|b rest]]; simpl; intros; [reflexivity | reflexivity | lia]. Qed.

Lemma inRange_spec (bpm : Z) : inRange bpm = true <-> (60 <= bpm <= 200)%Z.
Proof. unfold inRange. rewrite andb_true_iff, Z.leb_le, Z.leb_le. tauto. Qed.


(** Three intervals of half a second and one of a second: 120. *)
Example estimateTempo_120 : estimateTempo [0; 1 # 2; 1; 2; 5 # 2] = 120%Z.
Proof. reflexivity. Qed.

(** Of two tempi with the same number of intervals the one met first is
    returned. *)
Example estimateTempo_tie : estimateTempo [0; 1; 3 # 2; 5 # 2; 3] = 60%Z.
Proof. reflexivity. Qed.

End AudioTools.

(** ** Fades *)

Module AudioFades.
Import stdpp.base stdpp.list.
Import Lqa.
#[local] Open Scope Q_scope.

(** [result[i] *= i / fadeInSamples]. *)
Definition fadeInStep (fadeInSamples : nat) (result : list Q) (i : nat) : list Q :=
  let factor := inject_Z (Z.of_nat i) / inject_Z (Z.of_nat fadeInSamples) in
  <[i := nth i result 0 * factor]> result.

(** [result[result.length - 1 - i] *= i / fadeOutSamples]. *)
Definition fadeOutStep (fadeOutSamples : nat) (result : list Q) (i : nat) : list Q :=
  let factor := inject_Z (Z.of_nat i) / inject_Z (Z.of_nat fadeOutSamples) in
  let index := (length result - 1 - i)%nat in
  <[index := nth index result 0 * factor]> result.

(** [applyFade(data, fadeInSamples, fadeOutSamples)]. *)
Definition applyFade (data : list Q) (fadeInSamples fadeOutSamples : nat) : list Q :=
  let result := data in
  let result :=
    fold_left (fadeInStep fadeInSamples)
              (seq 0 (Nat.min fadeInSamples (length result))) result in
  fold_left (fadeOutStep fadeOutSamples)
            (seq 0 (Nat.min fadeOutSamples (length result))) result.

Lemma nth_insert_ne {A : Type} (l : list A) (i j : nat) (x d : A) :
  i <> j -> nth j (<[i := x]> l) d = nth j l d.
Proof.
  revert i j. induction l as [|y l IH]; intros i j Hij; [reflexivity|].
  destruct i as [|i]; destruct j as [|j]; simpl; try reflexivity; try lia.
  apply IH. lia.
Qed.

Lemma nth_insert_eq {A : Type} (l : list A) (i : nat) (x d : A) :
  (i < length l)%nat -> nth i (<[i := x]> l) d = x.
Proof.
  revert i. induction l as [|y l IH]; intros i Hi; [simpl in Hi; lia|].
  destruct i as [|i]; simpl; [reflexivity|]. apply IH. simpl in Hi. lia.
Qed.

(** The array after [k] rounds of the fade-in loop. *)
Lemma fadeIn_loop (data : list Q) (fadeInSamples k : nat) :
  (k <= length data)%nat ->
  let result := fold_left (fadeInStep fadeInSamples) (seq 0 k) data in
  length result = length data /\
  forall j, nth j result 0
            = if (j <? k)%nat
              then nth j data 0 * (inject_Z (Z.of_nat j) / inject_Z (Z.of_nat fadeInSamples))
              else nth j data 0.
Proof.
  induction k as [|k IH]; intros Hk.
  - simpl. split; [reflexivity|]. intros j. reflexivity.
  - rewrite seq_S, fold_left_app. simpl.
    destruct IH as [Hlen Hnth]; [lia|].
    set (result := fold_left (fadeInStep fadeInSamples) (seq 0 k) data) in *.
    unfold fadeInStep. split; [now rewrite length_insert|].
    intros j. destruct (Nat.eq_dec k j) as [<-|Hne].
    + rewrite nth_insert_eq by lia. rewrite Hnth.
      destruct (Nat.ltb_spec k k); [lia|]. destruct (Nat.ltb_spec k (S k)); [reflexivity | lia].
    + rewrite nth_insert_ne by exact Hne. rewrite Hnth.
      destruct (Nat.ltb_spec j k); destruct (Nat.ltb_spec j (S k)); try reflexivity; lia.
Qed.

(** The array after [k] rounds of the fade-out loop. *)
Lemma fadeOut_loop (data : list Q) (fadeOutSamples k : nat) :
  (k <= length data)%nat ->
  let result := fold_left (fadeOutStep fadeOutSamples) (seq 0 k) data in
  length result = length data /\
  forall j, nth j result 0
            = if ((j <? length data) && (length data - 1 - j <? k))%nat
              then nth j data 0 * (inject_Z (Z.of_nat (length data - 1 - j))
                                   / inject_Z (Z.of_nat fadeOutSamples))
              else nth j data 0.
Proof.
  induction k as [|k IH]; intros Hk.
  - simpl. split; [reflexivity|]. intros j. now rewrite andb_false_r.
  - rewrite seq_S, fold_left_app. simpl.
    destruct IH as [Hlen Hnth]; [lia|].
    set (result := fold_left (fadeOutStep fadeOutSamples) (seq 0 k) data) in *.
    unfold fadeOutStep. rewrite Hlen. split; [now rewrite length_insert|].
    intros j. destruct (Nat.eq_dec (length data - 1 - k)%nat j) as [<-|Hne].
    + rewrite nth_insert_eq by lia. rewrite Hnth.
      replace (length data - 1 - (length data - 1 - k))%nat with k by lia.
      destruct (Nat.ltb_spec (length data - 1 - k)%nat (length data)); [|lia].
      destruct (Nat.ltb_spec k k); [lia|]. destruct (Nat.ltb_spec k (S k)); [|lia].
      reflexivity.
    + rewrite nth_insert_ne by exact Hne. rewrite Hnth.
      destruct (Nat.ltb_spec j (length data)); [|reflexivity]. simpl.
      destruct (Nat.ltb_spec (length data - 1 - j)%nat k);
        destruct (Nat.ltb_spec (length data - 1 - j)%nat (S k)); try reflexivity; lia.
Qed.

(** A sample times a factor from 0 to 1 is no louder. *)
Lemma faded_no_louder (x : Q) (i n : nat) :
  (i < n)%nat ->
  Qabs (x * (inject_Z (Z.of_nat i) / inject_Z (Z.of_nat n))) <= Qabs x.
Proof.
  intros Hin.
  assert (Hn : 0 < inject_Z (Z.of_nat n)).
  { change 0 with (inject_Z 0). rewrite <- Zlt_Qlt. lia. }
  assert (Hi : 0 <= inject_Z (Z.of_nat i)).
  { change 0 with (inject_Z 0). rewrite <- Zle_Qle. lia. }
  assert (Hle : inject_Z (Z.of_nat i) <= inject_Z (Z.of_nat n)).
  { rewrite <- Zle_Qle. lia. }
  assert (Hlo : 0 <= inject_Z (Z.of_nat i) / inject_Z (Z.of_nat n)).
  { apply Qle_shift_div_l; [exact Hn | lra]. }
  assert (Hhi : inject_Z (Z.of_nat i) / inject_Z (Z.of_nat n) <= 1).
  { apply Qle_shift_div_r; [exact Hn | lra]. }
  rewrite Qabs_Qmult.
  assert (E : Qabs (inject_Z (Z.of_nat i) / inject_Z (Z.of_nat n))
              == inject_Z (Z.of_nat i) / inject_Z (Z.of_nat n)) by (apply Qabs_pos; exact Hlo).
  rewrite E. pose proof (Qabs_nonneg x). nra.
Qed.

(** X24: [applyFade] keeps the length, makes no sample louder, leaves the
    samples between the two fades as they are, and with a fade of at least
    one sample the first (fade in) or last (fade out) sample becomes 0. *)
Theorem applyFade_envelope (data : list Q) (fadeInSamples fadeOutSamples : nat) :
  let result := applyFade data fadeInSamples fadeOutSamples in
  length result = length data /\
  (forall j, Qabs (nth j result 0) <= Qabs (nth j data 0)) /\
  (forall j, (fadeInSamples <= j)%nat -> (j + fadeOutSamples < length data)%nat ->
             nth j result 0 = nth j data 0) /\
  ((0 < fadeInSamples)%nat -> nth 0 result 0 == 0) /\
  ((0 < fadeOutSamples)%nat -> nth (length data - 1) result 0 == 0).
Proof.
  intros result. subst result. unfold applyFade.
  destruct (fadeIn_loop data fadeInSamples (Nat.min fadeInSamples (length data)))
    as [Hlen1 Hin]; [lia|].
  set (faded := fold_left (fadeInStep fadeInSamples) _ data) in *.
  destruct (fadeOut_loop faded fadeOutSamples (Nat.min fadeOutSamples (length faded)))
    as [Hlen2 Hout]; [lia|].
  set (result := fold_left (fadeOutStep fadeOutSamples) _ faded) in *.
  rewrite Hlen1 in Hout.
  assert (Hfaded : forall j, Qabs (nth j faded 0) <= Qabs (nth j data 0)).
  { intros j. rewrite Hin. destruct (Nat.ltb_spec j (Nat.min fadeInSamples (length data))).
    - apply faded_no_louder. lia.
    - apply Qle_refl. }
  split; [lia|]. split; [|split; [|split]].
  - intros j. rewrite Hout.
    destruct ((j <? length data) && (length data - 1 - j <? Nat.min fadeOutSamples (length data)))%nat
      eqn:E.
    + apply andb_true_iff in E. destruct E as [_ E]. apply Nat.ltb_lt in E.
      eapply Qle_trans; [apply faded_no_louder; lia | apply Hfaded].
    + apply Hfaded.
  - intros j Hlo Hhi. rewrite Hout, Hin.
    destruct (Nat.ltb_spec j (length data)); [|lia]. simpl.
    destruct (Nat.ltb_spec (length data - 1 - j)%nat (Nat.min fadeOutSamples (length data))); [lia|].
    destruct (Nat.ltb_spec j (Nat.min fadeInSamples (length data))); [lia | reflexivity].
  - intros Hfade. destruct (Nat.eq_dec (length data) 0%nat) as [Hempty|Hne].
    + rewrite nth_overflow by lia. reflexivity.
    + assert (E0 : nth 0 faded 0 == 0).
      { rewrite Hin.
        destruct (Nat.ltb_spec 0%nat (Nat.min fadeInSamples (length data))); [|lia].
        change (inject_Z (Z.of_nat 0)) with 0. unfold Qdiv. ring. }
      rewrite Hout.
      destruct ((0 <? length data)
                && (length data - 1 - 0 <? Nat.min fadeOutSamples (length data)))%nat.
      * rewrite E0. ring.
      * exact E0.
  - intros Hfade. destruct (Nat.eq_dec (length data) 0%nat) as [Hempty|Hne].
    + rewrite nth_overflow by lia. reflexivity.
    + rewrite Hout.
      destruct (Nat.ltb_spec (length data - 1)%nat (length data)); [|lia]. simpl.
      replace (length data - 1 - (length data - 1))%nat with 0%nat by lia.
      destruct (Nat.ltb_spec 0%nat (Nat.min fadeOutSamples (length data))); [|lia].
      change (inject_Z (Z.of_nat 0)) with 0. unfold Qdiv. ring.
Qed.

Example applyFade_values :
  Forall2 Qeq (applyFade [1; 1; 1; 1; 1; 1] 2 3) [0; 1 # 2; 1; 2 # 3; 1 # 3; 0].
Proof. repeat constructor. Qed.

End AudioFades.

(** ** The signals of the beat analysis *)

Module BeatSignals.
#[local] Open Scope R_scope.

(** [calculateEnergyWindows(channelData, windowSize, hopSize)]: the root
    mean square of every window; [None] when the loop over the windows
    does not end. *)
Definition calculateEnergyWindows (channelData : list R) (windowSize hopSize : nat)
  : option (list R) :=
  option_map
    (map (fun i =>
            let energy :=
              fold_left (fun energy j =>
                           let sample := nth (i + j) channelData 0 in
                           energy + sample * sample)
                        (seq 0 windowSize) 0 in
            sqrt (energy / INR windowSize)))
    (Framing.frameOffsets (length channelData) windowSize hopSize).

(** [calculateSpectrum(windowedData)] of the beat analysis: the magnitudes
    of the direct transform for [k < N / 2], without a window of its
    own. *)
Definition calculateSpectrum (windowedData : list R) : list R :=
  let N := length windowedData in
  map (fun k =>
         let '(real, imag) :=
           fold_left (fun '(real, imag) n =>
                        let angle := -2 * PI * INR k * INR n / INR N in
                        (real + nth n windowedData 0 * cos angle,
                         imag + nth n windowedData 0 * sin angle))
                     (seq 0 N) (0, 0) in
         sqrt (real * real + imag * imag))
      (seq 0 ((N + 1) / 2)).

(** The spectral flux pushed for a window: the sum of the increases over
    the previous spectrum, 0 for the first window. *)
Definition onsetFlux (spectrum : list R) (prevSpectrum : option (list R)) : R :=
  match prevSpectrum with
  | Some prevSpectrum =>
      fold_left (fun flux j =>
                   let diff := nth j spectrum 0 - nth j prevSpectrum 0 in
                   flux + Rmax 0 diff)
                (seq 0 (length spectrum)) 0
  | None => 0
  end.

(** One round of the loop of [detectOnsets]. *)
Definition onsetStep (channelData : list R) (state : list R * option (list R)) (i : nat)
  : list R * option (list R) :=
  let fftSize := 1024%nat in
  let '(onsetData, prevSpectrum) := state in
  let window := Framing.slice channelData i (i + fftSize) in
  let windowedData :=
    map (fun '(idx, sample) => sample * 0.5 * (1 - cos (2 * PI * INR idx / (INR fftSize - 1))))
        (combine (seq 0 (length window)) window) in
  let spectrum := calculateSpectrum windowedData in
  (onsetData ++ [onsetFlux spectrum prevSpectrum], Some spectrum).

(** [detectOnsets(channelData, sampleRate, windowSize, hopSize)]; neither
    the sample rate nor the window size is used. *)
Definition detectOnsets (channelData : list R) (hopSize : nat) : option (list R) :=
  option_map
    (fun offsets => fst (fold_left (onsetStep channelData) offsets ([], None)))
    (Framing.frameOffsets (length channelData) 1024 hopSize).

(** The sum of squares accumulated over a window is not negative. *)
Lemma energy_loop (channelData : list R) (i : nat) (indices : list nat) :
  forall energy : R,
    0 <= energy ->
    0 <= fold_left (fun energy j =>
                      let sample := nth (i + j) channelData 0 in
                      energy + sample * sample)
                   indices energy.
Proof.
  induction indices as [|j indices IH]; intros energy Henergy; simpl; [exact Henergy|].
  apply IH. pose proof (Rle_0_sqr (nth (i + j) channelData 0)) as Hsq.
  unfold Rsqr in Hsq. lra.
Qed.

Lemma onsetFlux_nonneg (spectrum : list R) (prevSpectrum : option (list R)) :
  0 <= onsetFlux spectrum prevSpectrum.
Proof.
  unfold onsetFlux. destruct prevSpectrum as [prevSpectrum|]; [|lra].
  assert (Hloop : forall indices flux, 0 <= flux ->
            0 <= fold_left (fun flux j =>
                              let diff := nth j spectrum 0 - nth j prevSpectrum 0 in
                              flux + Rmax 0 diff) indices flux).
  { induction indices as [|j indices IH]; intros flux Hflux; simpl; [exact Hflux|].
    apply IH. pose proof (Rmax_l 0 (nth j spectrum 0 - nth j prevSpectrum 0)). lra. }
  apply Hloop. lra.
Qed.

Lemma onsetLoop_spec (channelData : list R) (offsets : list nat) :
  forall onsetData prevSpectrum,
    exists new,
      fst (fold_left (onsetStep channelData) offsets (onsetData, prevSpectrum))
      = onsetData ++ new /\
      length new = length offsets /\
      Forall (fun flux => 0 <= flux) new /\
      (prevSpectrum = None -> nth 0 new 0 = 0).
Proof.
  induction offsets as [|i offsets IH]; intros onsetData prevSpectrum.
  - exists []. simpl. rewrite app_nil_r. repeat split. constructor.
  - simpl fold_left.
    set (spectrum := calculateSpectrum _).
    destruct (IH (onsetData ++ [onsetFlux spectrum prevSpectrum]) (Some spectrum))
      as (new & Hfst & Hlen & Hflux & _).
    exists (onsetFlux spectrum prevSpectrum :: new).
    split; [rewrite Hfst, <- app_assoc; reflexivity|].
    split; [simpl; now rewrite Hlen|].
    split; [constructor; [apply onsetFlux_nonneg | exact Hflux]|].
    intros ->. reflexivity.
Qed.

(** X26: the two signals [analyzeBeats] computes from the samples.  With a
    window and a hop of at least one sample both loops end; there is one
    energy per window of [windowSize] samples and one onset value per
    window of 1024 samples, taken every [hopSize] samples; no energy and no
    onset value is negative, and the onset value of the first window,
    which has no previous spectrum to compare with, is 0. *)
Theorem beat_signals (channelData : list R) (windowSize hopSize : nat) :
  (1 <= windowSize)%nat -> (1 <= hopSize)%nat ->
  exists energyData onsetData,
    calculateEnergyWindows channelData windowSize hopSize = Some energyData /\
    detectOnsets channelData hopSize = Some onsetData /\
    length energyData = Framing.frameCount (length channelData) windowSize hopSize /\
    length onsetData = Framing.frameCount (length channelData) 1024 hopSize /\
    Forall (fun energy => 0 <= energy) energyData /\
    Forall (fun flux => 0 <= flux) onsetData /\
    ((1024 < length channelData)%nat -> nth_error onsetData 0 = Some 0).
Proof.
  intros Hwindow Hhop.
  unfold calculateEnergyWindows, detectOnsets.
  rewrite !Framing.frameOffsets_closed_form by exact Hhop. cbn [option_map].
  destruct (onsetLoop_spec channelData
              (map (fun k => (k * hopSize)%nat)
                   (seq 0 (Framing.frameCount (length channelData) 1024 hopSize))) [] None)
    as (onsetData & Hfst & Hlen & Hflux & Hfirst).
  eexists. exists onsetData.
  split; [reflexivity|]. split; [rewrite Hfst; reflexivity|].
  split; [now rewrite !length_map, length_seq|].
  rewrite length_map, length_seq in Hlen.
  split; [exact Hlen|].
  split; [|split; [exact Hflux|]].
  - apply Forall_forall. intros energy Hin.
    apply in_map_iff in Hin. destruct Hin as (i & <- & _). apply sqrt_pos.
  - intros Hlong.
    assert (Hcount : (0 < Framing.frameCount (length channelData) 1024 hopSize)%nat).
    { apply Framing.frameCount_outside; [exact Hhop | simpl; lia]. }
    destruct onsetData as [|flux rest]; [simpl in Hlen; lia|].
    simpl. f_equal. exact (Hfirst eq_refl).
Qed.

(** 1026 samples, all 1, with a hop of one sample: 1014 energies over
    windows of 12 samples and two onset values. *)
Lemma beat_signals_witness :
  exists energyData onsetData,
    calculateEnergyWindows (repeat 1 1026) 12 1 = Some energyData /\
    detectOnsets (repeat 1 1026) 1 = Some onsetData /\
    length energyData = Framing.frameCount (length (repeat 1 1026)) 12 1 /\
    length onsetData = Framing.frameCount (length (repeat 1 1026)) 1024 1 /\
    Forall (fun energy => 0 <= energy) energyData /\
    Forall (fun flux => 0 <= flux) onsetData /\
    ((1024 < length (repeat 1 1026))%nat -> nth_error onsetData 0 = Some 0).
Proof. apply (beat_signals (repeat 1 1026) 12 1); lia. Defined.

Example beat_signals_counts :
  Framing.frameCount (length (repeat 1 1026)) 12 1 = 1014%nat
  /\ Framing.frameCount (length (repeat 1 1026)) 1024 1 = 2%nat.
Proof. split; vm_compute; reflexivity. Qed.

(** With a hop of 0, as [analyzeBeats] computes it for a sample rate below
    87 Hz, the loop over the windows never ends. *)
Example calculateEnergyWindows_hop0 (channelData : list R) (windowSize : nat) :
  (windowSize < length channelData)%nat ->
  calculateEnergyWindows channelData windowSize 0 = None.
Proof.
  intros Hlen. unfold calculateEnergyWindows, Framing.frameOffsets.
  now rewrite Framing.frameLoop_hop0_diverges.
Qed.

End BeatSignals.

(** ** The fast Fourier transform *)

(** *** The transform computed by a network of butterflies *)

Module Fourier.
#[local] Open Scope R_scope.

(** Complex numbers as pairs, the roots of unity, finite sums, the
    reversal of [s] bits, and the effect of one stage of butterflies of
    half span [half] on an array seen as a function of the index. *)
Definition C : Type := (R * R)%type.
Definition Cadd (a b : C) : C := (fst a + fst b, snd a + snd b).
Definition Csub (a b : C) : C := (fst a - fst b, snd a - snd b).
Definition Cmul (a b : C) : C :=
  (fst a * fst b - snd a * snd b, fst a * snd b + snd a * fst b).

Definition omega (n k : nat) : C :=
  (cos (-2 * PI * INR k / INR n), sin (-2 * PI * INR k / INR n)).

Fixpoint Csum (f : nat -> C) (n : nat) : C :=
  match n with
  | O => (0, 0)
  | S n' => Cadd (Csum f n') (f n')
  end.

Fixpoint rev (s m : nat) : nat :=
  match s with
  | O => 0%nat
  | S s' => ((m mod 2) * 2 ^ s' + rev s' (m / 2))%nat
  end.

Definition stageFun (half : nat) (a : nat -> C) (m : nat) : C :=
  let r := (m mod (2 * half))%nat in
  if (r <? half)%nat
  then Cadd (a m) (Cmul (omega (2 * half) r) (a (m + half)%nat))
  else Csub (a (m - half)%nat) (Cmul (omega (2 * half) (r - half)) (a m)).

Fixpoint stages (s : nat) (a0 : nat -> C) : nat -> C :=
  match s with
  | O => a0
  | S s' => stageFun (2 ^ s') (stages s' a0)
  end.

Ltac Cring := unfold Cadd, Csub, Cmul; apply injective_projections; simpl; ring.

Lemma Csum_ext (f g : nat -> C) (n : nat) :
  (forall m, (m < n)%nat -> f m = g m) -> Csum f n = Csum g n.
Proof.
  induction n as [|n IH]; intros Hfg; simpl; [reflexivity|].
  rewrite IH by (intros m Hm; apply Hfg; lia). rewrite Hfg by lia. reflexivity.
Qed.

Lemma Csum_add (f g : nat -> C) (n : nat) :
  Csum (fun m => Cadd (f m) (g m)) n = Cadd (Csum f n) (Csum g n).
Proof.
  induction n as [|n IH]; simpl; [Cring|]. rewrite IH. Cring.
Qed.

Lemma Csum_sub (f g : nat -> C) (n : nat) :
  Csum (fun m => Csub (f m) (g m)) n = Csub (Csum f n) (Csum g n).
Proof.
  induction n as [|n IH]; simpl; [Cring|]. rewrite IH. Cring.
Qed.

Lemma Csum_scale (c : C) (f : nat -> C) (n : nat) :
  Csum (fun m => Cmul c (f m)) n = Cmul c (Csum f n).
Proof.
  induction n as [|n IH]; simpl; [Cring|]. rewrite IH. Cring.
Qed.

(** A sum over [2 * h] indices, split into the even and the odd ones. *)
Lemma Csum_even_odd (f : nat -> C) (h : nat) :
  Csum f (2 * h) = Cadd (Csum (fun m => f (2 * m)%nat) h) (Csum (fun m => f (2 * m + 1)%nat) h).
Proof.
  induction h as [|h IH]; [simpl; Cring|].
  replace (2 * S h)%nat with (S (S (2 * h))) by lia.
  cbn [Csum]. rewrite IH.
  replace (S (2 * h)) with (2 * h + 1)%nat by lia.
  replace (2 * S h)%nat with (S (S (2 * h))) by lia.
  cbn [Csum]. Cring.
Qed.

Lemma omega_add (n a b : nat) : omega n (a + b) = Cmul (omega n a) (omega n b).
Proof.
  unfold omega, Cmul. simpl fst. simpl snd. rewrite plus_INR.
  replace (-2 * PI * (INR a + INR b) / INR n)
    with (-2 * PI * INR a / INR n + -2 * PI * INR b / INR n) by (unfold Rdiv; ring).
  rewrite cos_plus, sin_plus. f_equal; ring.
Qed.

Lemma omega_double (h j : nat) : (0 < h)%nat -> omega (2 * h) (2 * j) = omega h j.
Proof.
  intros Hh. unfold omega. rewrite !mult_INR. replace (INR 2) with 2 by (simpl; lra).
  assert (INR h <> 0) by (apply not_0_INR; lia).
  replace (-2 * PI * (2 * INR j) / (2 * INR h)) with (-2 * PI * INR j / INR h)
    by (field; assumption).
  reflexivity.
Qed.

Lemma omega_full (h m : nat) : (0 < h)%nat -> omega h (h * m) = (1, 0).
Proof.
  intros Hh. unfold omega. rewrite mult_INR.
  assert (INR h <> 0) by (apply not_0_INR; lia).
  replace (-2 * PI * (INR h * INR m) / INR h) with (- (0 + 2 * INR m * PI))
    by (field; assumption).
  rewrite cos_neg, sin_neg, cos_period, sin_period, cos_0, sin_0. f_equal. ring.
Qed.

Lemma omega_half (h : nat) : (0 < h)%nat -> omega (2 * h) h = (-1, 0).
Proof.
  intros Hh. unfold omega. rewrite mult_INR. replace (INR 2) with 2 by (simpl; lra).
  assert (INR h <> 0) by (apply not_0_INR; lia).
  replace (-2 * PI * INR h / (2 * INR h)) with (- PI) by (field; assumption).
  rewrite cos_neg, sin_neg, cos_PI, sin_PI. f_equal. ring.
Qed.

Lemma omega_zero (n : nat) : omega n 0 = (1, 0).
Proof.
  unfold omega. simpl (INR 0).
  replace (-2 * PI * 0 / INR n) with 0 by (unfold Rdiv; ring).
  now rewrite cos_0, sin_0.
Qed.

Lemma rev_even (s m : nat) : rev (S s) (2 * m) = rev s m.
Proof.
  change (rev (S s) (2 * m)) with (((2 * m) mod 2) * 2 ^ s + rev s ((2 * m) / 2))%nat.
  replace (2 * m)%nat with (m * 2)%nat by lia.
  rewrite Nat.Div0.mod_mul, Nat.div_mul by lia. lia.
Qed.

Lemma rev_odd (s m : nat) : rev (S s) (2 * m + 1) = (2 ^ s + rev s m)%nat.
Proof.
  change (rev (S s) (2 * m + 1))
    with (((2 * m + 1) mod 2) * 2 ^ s + rev s ((2 * m + 1) / 2))%nat.
  replace (2 * m + 1)%nat with (1 + m * 2)%nat by lia.
  rewrite Nat.Div0.mod_add, Nat.div_add by lia.
  change (1 mod 2)%nat with 1%nat. change (1 / 2)%nat with 0%nat.
  rewrite Nat.add_0_l. lia.
Qed.

Lemma rev_lt (s m : nat) : (rev s m < 2 ^ s)%nat.
Proof.
  revert m. induction s as [|s IH]; intros m; [simpl; lia|].
  change (rev (S s) m) with ((m mod 2) * 2 ^ s + rev s (m / 2))%nat.
  rewrite Nat.pow_succ_r'.
  pose proof (IH (m / 2)%nat). pose proof (Nat.mod_upper_bound m 2 ltac:(lia)).
  nia.
Qed.

(** After [s] stages every block of [2 ^ s] entries holds the transform of
    the entries it started with, taken in bit-reversed order. *)
Lemma stages_dft (a0 : nat -> C) (s : nat) :
  forall b k, (k < 2 ^ s)%nat ->
    stages s a0 (b * 2 ^ s + k)
    = Csum (fun m => Cmul (a0 (b * 2 ^ s + rev s m)%nat) (omega (2 ^ s) (m * k))) (2 ^ s).
Proof.
  induction s as [|s IH]; intros b k Hk.
  - simpl in *. replace k with 0%nat by lia.
    rewrite omega_zero. Cring.
  - assert (Hh : (0 < 2 ^ s)%nat) by (apply Nat.neq_0_lt_0, Nat.pow_nonzero; lia).
    set (h := (2 ^ s)%nat) in *.
    assert (E2 : (2 ^ S s = 2 * h)%nat) by (simpl; unfold h; lia).
    change (stages (S s) a0) with (stageFun h (stages s a0)).
    rewrite E2 in *. unfold stageFun.
    assert (Emod : ((b * (2 * h) + k) mod (2 * h) = k)%nat).
    { rewrite Nat.add_comm, Nat.Div0.mod_add. apply Nat.mod_small. exact Hk. }
    rewrite Emod, Csum_even_odd.
    assert (Heven : forall k', (k' < h)%nat -> forall c : nat,
              Csum (fun m => Cmul (a0 (b * (2 * h) + rev (S s) (2 * m))%nat)
                                  (omega (2 * h) (2 * m * (k' + c * h)))) h
              = stages s a0 (2 * b * h + k')).
    { intros k' Hk' c. rewrite (IH (2 * b)%nat k' Hk').
      apply Csum_ext. intros m Hm. rewrite rev_even.
      replace (b * (2 * h))%nat with (2 * b * h)%nat by lia. f_equal.
      replace (2 * m * (k' + c * h))%nat with (2 * (m * k' + h * (m * c)))%nat by lia.
      rewrite omega_double, omega_add, omega_full by exact Hh. Cring. }
    assert (Hodd : forall k', (k' < h)%nat -> forall c : nat,
              Csum (fun m => Cmul (a0 (b * (2 * h) + rev (S s) (2 * m + 1))%nat)
                                  (omega (2 * h) ((2 * m + 1) * (k' + c * h)))) h
              = Cmul (omega (2 * h) (k' + c * h)) (stages s a0 ((2 * b + 1) * h + k'))).
    { intros k' Hk' c. rewrite (IH (2 * b + 1)%nat k' Hk'), <- Csum_scale.
      apply Csum_ext. intros m Hm. rewrite rev_odd. fold h.
      replace (b * (2 * h) + (h + rev s m))%nat with ((2 * b + 1) * h + rev s m)%nat by lia.
      replace ((2 * m + 1) * (k' + c * h))%nat
        with (2 * (m * k' + h * (m * c)) + (k' + c * h))%nat by lia.
      rewrite (omega_add (2 * h)), omega_double, omega_add, omega_full by exact Hh. Cring. }
    destruct (Nat.ltb_spec k h) as [Hlow|Hhigh].
    + pose proof (Heven k Hlow 0%nat) as He. pose proof (Hodd k Hlow 0%nat) as Ho.
      simpl (0 * h)%nat in He, Ho. rewrite Nat.add_0_r in He, Ho.
      rewrite He, Ho.
      replace (b * (2 * h) + k)%nat with (2 * b * h + k)%nat by lia.
      replace (2 * b * h + k + h)%nat with ((2 * b + 1) * h + k)%nat by lia.
      reflexivity.
    + pose proof (Heven (k - h)%nat ltac:(lia) 1%nat) as He.
      pose proof (Hodd (k - h)%nat ltac:(lia) 1%nat) as Ho.
      replace (k - h + 1 * h)%nat with k in He, Ho by lia.
      rewrite He, Ho.
      replace (b * (2 * h) + k - h)%nat with (2 * b * h + (k - h))%nat by lia.
      replace (b * (2 * h) + k)%nat with ((2 * b + 1) * h + (k - h))%nat at 1 by lia.
      replace (omega (2 * h) k) with (omega (2 * h) ((k - h) + h)) by (f_equal; lia).
      rewrite omega_add, omega_half by exact Hh. Cring.
Qed.

End Fourier.

(** *** [FFT.forward] *)

Module FFTForward.
Import stdpp.base stdpp.list.
Import Fourier.
#[local] Open Scope R_scope.

Definition zeroTwiddle : AudioUtils.Twiddle :=
  {| AudioUtils.real := 0; AudioUtils.imag := 0 |}.

(** The body of the innermost loop: one butterfly on the arrays [real] and
    [imag]. *)
Definition butterfly (twiddleFactors : list AudioUtils.Twiddle)
           (twiddleStride butterflyHalfSpan butterflyStart : nat)
           (state : list R * list R) (k : nat) : list R * list R :=
  let '(real, imag) := state in
  let i := (butterflyStart + k)%nat in
  let j := (i + butterflyHalfSpan)%nat in
  let twiddleIndex := (k * twiddleStride)%nat in
  let twiddle := nth twiddleIndex twiddleFactors zeroTwiddle in
  let tempReal := AudioUtils.real twiddle * nth j real 0
                  - AudioUtils.imag twiddle * nth j imag 0 in
  let tempImag := AudioUtils.real twiddle * nth j imag 0
                  + AudioUtils.imag twiddle * nth j real 0 in
  let realI := nth i real 0 in
  let imagI := nth i imag 0 in
  (<[j := realI - tempReal]> (<[i := realI + tempReal]> real),
   <[j := imagI - tempImag]> (<[i := imagI + tempImag]> imag)).

(** One stage: [butterflySpan = 1 << stage], which is [2 ^ stage] up to
    stage 30 (at stage 31 the shift gives a negative span), and the loops
    over the blocks and over the butterflies of a block. *)
Definition stagePass (N : nat) (twiddleFactors : list AudioUtils.Twiddle)
           (state : list R * list R) (stage : nat) : list R * list R :=
  let butterflySpan := (2 ^ stage)%nat in
  let butterflyHalfSpan := (butterflySpan / 2)%nat in
  let twiddleStride := (N / butterflySpan)%nat in
  fold_left
    (fun state butterflyStart =>
       fold_left (butterfly twiddleFactors twiddleStride butterflyHalfSpan butterflyStart)
                 (seq 0 butterflyHalfSpan) state)
    (map (fun block => (block * butterflySpan)%nat)
         (seq 0 ((N + butterflySpan - 1) / butterflySpan)))
    state.

(** [forward(inputReal, inputImag = null)]: the pair [{ real, imag }].
    The inputs hold [size] samples. *)
Definition forward (fft : AudioUtils.FFT) (inputReal : list R) (inputImag : option (list R))
  : list R * list R :=
  let N := Z.to_nat (AudioUtils.size fft) in
  let permuted (input : list R) :=
    map (fun i => nth (Z.to_nat (nth i (AudioUtils.bitReversalIndices fft) 0%Z)) input 0)
        (seq 0 N) in
  let real := permuted inputReal in
  let imag := match inputImag with
              | Some inputImag => permuted inputImag
              | None => map (fun _ => 0) (seq 0 N)
              end in
  fold_left (stagePass N (AudioUtils.twiddleFactors fft))
            (seq 1 (Z.to_nat (AudioUtils.log2Size fft))) (real, imag).

(** [getMagnitudeSpectrum] and [getPowerSpectrum]: the first half of the
    transform. *)
Definition getMagnitudeSpectrum (fft : AudioUtils.FFT) (inputReal : list R)
           (inputImag : option (list R)) : list R :=
  let result := forward fft inputReal inputImag in
  map (fun i => sqrt (nth i (fst result) 0 * nth i (fst result) 0
                      + nth i (snd result) 0 * nth i (snd result) 0))
      (seq 0 (Z.to_nat (AudioUtils.size fft / 2))).

Definition getPowerSpectrum (fft : AudioUtils.FFT) (inputReal : list R)
           (inputImag : option (list R)) : list R :=
  let result := forward fft inputReal inputImag in
  map (fun i => nth i (fst result) 0 * nth i (fst result) 0
                + nth i (snd result) 0 * nth i (snd result) 0)
      (seq 0 (Z.to_nat (AudioUtils.size fft / 2))).

(** Entry [m] of the two arrays, as a complex number. *)
Definition entry (state : list R * list R) (m : nat) : C :=
  (nth m (fst state) 0, nth m (snd state) 0).

Definition twiddleAt (twiddleFactors : list AudioUtils.Twiddle) (index : nat) : C :=
  let twiddle := nth index twiddleFactors zeroTwiddle in
  (AudioUtils.real twiddle, AudioUtils.imag twiddle).

(** A stage with the twiddle factors [w], on functions. *)
Definition stageWith (half : nat) (w : nat -> C) (a : nat -> C) (m : nat) : C :=
  let r := (m mod (2 * half))%nat in
  if (r <? half)%nat
  then Cadd (a m) (Cmul (w r) (a (m + half)%nat))
  else Csub (a (m - half)%nat) (Cmul (w (r - half)%nat) (a m)).

(** **** One butterfly *)

Lemma butterfly_spec (twiddleFactors : list AudioUtils.Twiddle)
      (stride half start k N : nat) (state : list R * list R) :
  length (fst state) = N -> length (snd state) = N ->
  (0 < half)%nat -> (start + k + half < N)%nat ->
  let i := (start + k)%nat in
  let j := (i + half)%nat in
  let w := twiddleAt twiddleFactors (k * stride) in
  let state' := butterfly twiddleFactors stride half start state k in
  length (fst state') = N /\ length (snd state') = N /\
  entry state' i = Cadd (entry state i) (Cmul w (entry state j)) /\
  entry state' j = Csub (entry state i) (Cmul w (entry state j)) /\
  forall m, m <> i -> m <> j -> entry state' m = entry state m.
Proof.
  destruct state as [real imag]. simpl fst. simpl snd.
  intros Hreal Himag Hhalf Hfit i j w state'. subst state'. unfold butterfly.
  fold i. fold j. cbn [fst snd].
  split; [now rewrite !length_insert|]. split; [now rewrite !length_insert|].
  unfold entry. cbn [fst snd].
  split; [|split].
  - rewrite !(AudioFades.nth_insert_ne _ j i) by (unfold j; lia).
    rewrite !AudioFades.nth_insert_eq by (unfold i; lia).
    reflexivity.
  - rewrite !AudioFades.nth_insert_eq by (rewrite length_insert; unfold j, i; lia).
    reflexivity.
  - intros m Hi Hj.
    rewrite !(AudioFades.nth_insert_ne _ j m) by congruence.
    rewrite !(AudioFades.nth_insert_ne _ i m) by congruence.
    reflexivity.
Qed.

Ltac nat_cases :=
  repeat match goal with
         | |- context [(?a <=? ?b)%nat] => destruct (Nat.leb_spec a b)
         | |- context [(?a <? ?b)%nat] => destruct (Nat.ltb_spec a b)
         end;
  cbn [andb]; try lia.

(** **** The butterflies of one block

    After [k0] butterflies of the block at [start] the entries
    [start, ..., start + k0 - 1] and their partners half a span further
    hold their new values; all others are as they were. *)
Lemma block_spec (twiddleFactors : list AudioUtils.Twiddle)
      (stride half start N : nat) (state : list R * list R) :
  length (fst state) = N -> length (snd state) = N ->
  (0 < half)%nat -> (start + 2 * half <= N)%nat ->
  forall k0, (k0 <= half)%nat ->
    let state' := fold_left (butterfly twiddleFactors stride half start) (seq 0 k0) state in
    length (fst state') = N /\ length (snd state') = N /\
    forall m,
      entry state' m
      = if ((start <=? m) && (m <? start + k0))%nat
        then Cadd (entry state m)
                  (Cmul (twiddleAt twiddleFactors ((m - start) * stride))
                        (entry state (m + half)))
        else if ((start + half <=? m) && (m <? start + half + k0))%nat
             then Csub (entry state (m - half))
                       (Cmul (twiddleAt twiddleFactors ((m - start - half) * stride))
                             (entry state m))
             else entry state m.
Proof.
  intros Hreal Himag Hhalf Hfit. induction k0 as [|k0 IH]; intros Hk0.
  - simpl. split; [exact Hreal|]. split; [exact Himag|]. intros m. nat_cases; reflexivity.
  - rewrite seq_S, fold_left_app. cbn [fold_left]. simpl (0 + k0)%nat.
    destruct IH as (Hreal1 & Himag1 & Hentries); [lia|].
    set (state1 := fold_left (butterfly twiddleFactors stride half start) (seq 0 k0) state) in *.
    destruct (butterfly_spec twiddleFactors stride half start k0 N state1 Hreal1 Himag1 Hhalf)
      as (Hreal2 & Himag2 & Hi & Hj & Hother); [lia|].
    split; [exact Hreal2|]. split; [exact Himag2|].
    intros m.
    destruct (Nat.eq_dec m (start + k0)%nat) as [->|Hmi].
    + rewrite Hi, !Hentries. nat_cases. repeat f_equal; lia.
    + destruct (Nat.eq_dec m (start + k0 + half)%nat) as [->|Hmj].
      * rewrite Hj, !Hentries. nat_cases. repeat f_equal; lia.
      * rewrite Hother by assumption. rewrite Hentries. nat_cases; reflexivity.
Qed.

(** **** The blocks of one stage *)

Lemma blocks_spec (twiddleFactors : list AudioUtils.Twiddle)
      (stride half N : nat) (state : list R * list R) :
  length (fst state) = N -> length (snd state) = N -> (0 < half)%nat ->
  forall blocks, (blocks * (2 * half) <= N)%nat ->
    let state' :=
      fold_left
        (fun state start =>
           fold_left (butterfly twiddleFactors stride half start) (seq 0 half) state)
        (map (fun block => (block * (2 * half))%nat) (seq 0 blocks)) state in
    length (fst state') = N /\ length (snd state') = N /\
    forall m,
      entry state' m
      = if (m <? blocks * (2 * half))%nat
        then stageWith half (fun r => twiddleAt twiddleFactors (r * stride)) (entry state) m
        else entry state m.
Proof.
  intros Hreal Himag Hhalf. induction blocks as [|blocks IH]; intros Hfit.
  - simpl. split; [exact Hreal|]. split; [exact Himag|]. intros m. reflexivity.
  - rewrite seq_S, map_app, fold_left_app. cbn [map fold_left]. simpl (0 + blocks)%nat.
    destruct IH as (Hreal1 & Himag1 & Hentries); [lia|].
    set (state1 := fold_left _ (map _ (seq 0 blocks)) state) in *.
    destruct (block_spec twiddleFactors stride half (blocks * (2 * half))%nat N state1
                Hreal1 Himag1 Hhalf ltac:(lia) half (Nat.le_refl half))
      as (Hreal2 & Himag2 & Hblock).
    split; [exact Hreal2|]. split; [exact Himag2|].
    intros m. rewrite Hblock. unfold stageWith.
    set (start := (blocks * (2 * half))%nat) in *.
    assert (Hmod : (start <= m < start + 2 * half)%nat ->
                   (m mod (2 * half) = m - start)%nat).
    { intros Hm. replace m with ((m - start) + blocks * (2 * half))%nat at 1 by (unfold start; lia).
      rewrite Nat.Div0.mod_add. apply Nat.mod_small. lia. }
    destruct (Nat.lt_ge_cases m start) as [Hbefore|Hfrom].
    + rewrite !Hentries. unfold stageWith. fold start. nat_cases; reflexivity.
    + destruct (Nat.lt_ge_cases m (start + 2 * half)%nat) as [Hin|Hafter].
      * rewrite !Hentries. fold start. rewrite (Hmod ltac:(lia)).
        nat_cases; reflexivity.
      * rewrite !Hentries. fold start. nat_cases; reflexivity.
Qed.

(** **** One stage *)

Lemma pow2_pos (s : nat) : (0 < 2 ^ s)%nat.
Proof. apply Nat.neq_0_lt_0, Nat.pow_nonzero. lia. Qed.

Lemma stagePass_spec (twiddleFactors : list AudioUtils.Twiddle)
      (N blocks s : nat) (state : list R * list R) :
  length (fst state) = N -> length (snd state) = N ->
  N = (blocks * 2 ^ S s)%nat ->
  let state' := stagePass N twiddleFactors state (S s) in
  length (fst state') = N /\ length (snd state') = N /\
  forall m, (m < N)%nat ->
    entry state' m
    = stageWith (2 ^ s) (fun r => twiddleAt twiddleFactors (r * (N / 2 ^ S s))) (entry state) m.
Proof.
  intros Hreal Himag HN state'. subst state'. unfold stagePass.
  pose proof (pow2_pos s) as Hpos.
  assert (Espan : (2 ^ S s = 2 * 2 ^ s)%nat) by (rewrite Nat.pow_succ_r'; reflexivity).
  assert (Ehalf : (2 ^ S s / 2 = 2 ^ s)%nat).
  { rewrite Espan, Nat.mul_comm. apply Nat.div_mul. lia. }
  assert (Eblocks : ((N + 2 ^ S s - 1) / 2 ^ S s = blocks)%nat).
  { rewrite HN. symmetry. apply Nat.div_unique with (r := (2 ^ S s - 1)%nat); lia. }
  rewrite Ehalf, Eblocks.
  destruct (blocks_spec twiddleFactors (N / 2 ^ S s) (2 ^ s) N state Hreal Himag Hpos blocks)
    as (Hreal' & Himag' & Hentries); [lia|].
  split; [exact Hreal'|]. split; [exact Himag'|].
  intros m Hm. pose proof (Hentries m) as Hentry.
  destruct (Nat.ltb_spec m (blocks * (2 * 2 ^ s))%nat); [exact Hentry | lia].
Qed.

(** **** The tables of the constructor *)

Lemma FFT_new_pow2 (L : nat) :
  (1 <= L <= 31)%nat ->
  AudioUtils.FFT_new (2 ^ Z.of_nat L)
  = inr {| AudioUtils.size := 2 ^ Z.of_nat L;
           AudioUtils.log2Size := Z.of_nat L;
           AudioUtils.bitReversalIndices :=
             map (fun i => AudioUtils.reverseBits (Z.of_nat i) (Z.of_nat L))
                 (seq 0 (Z.to_nat (2 ^ Z.of_nat L)));
           AudioUtils.twiddleFactors :=
             map (fun i =>
                    let angle := -2 * PI * INR i / IZR (2 ^ Z.of_nat L) in
                    {| AudioUtils.real := cos angle; AudioUtils.imag := sin angle |})
                 (seq 0 (Z.to_nat (2 ^ Z.of_nat L / 2))) |}.
Proof.
  intros HL. unfold AudioUtils.FFT_new, AudioUtils.FFT_tables.
  rewrite AudioUtils.log2_if_integer_pow2 by lia.
  rewrite AudioUtils.validArrayLength_integer.
  2:{ split; [apply Z.pow_nonneg; lia | apply Z.pow_lt_mono_r; lia]. }
  rewrite AudioUtils.validArrayLength_half by lia.
  reflexivity.
Qed.

Lemma size_nat (L : nat) : Z.to_nat (2 ^ Z.of_nat L) = (2 ^ L)%nat.
Proof.
  rewrite <- (Nat2Z.id (2 ^ L)). f_equal.
  rewrite Nat2Z.inj_pow. reflexivity.
Qed.

Lemma half_size_nat (L : nat) : (1 <= L)%nat -> Z.to_nat (2 ^ Z.of_nat L / 2) = (2 ^ (L - 1))%nat.
Proof.
  intros HL. replace L with (S (L - 1)) at 1 by lia.
  rewrite Nat2Z.inj_succ, Z.pow_succ_r by lia.
  rewrite Z.mul_comm, Z.div_mul by lia. apply size_nat.
Qed.

(** The twiddle factor read by butterfly [r] of a stage of span [2 ^ S s]
    is the [r]-th power of the root of unity of that order. *)
Lemma twiddle_omega (L s r : nat) :
  (S s <= L)%nat -> (r < 2 ^ s)%nat ->
  twiddleAt
    (map (fun i =>
            let angle := -2 * PI * INR i / IZR (2 ^ Z.of_nat L) in
            {| AudioUtils.real := cos angle; AudioUtils.imag := sin angle |})
         (seq 0 (Z.to_nat (2 ^ Z.of_nat L / 2))))
    (r * (2 ^ L / 2 ^ S s))
  = omega (2 * 2 ^ s) r.
Proof.
  intros Hs Hr. unfold twiddleAt.
  rewrite half_size_nat by lia.
  assert (EL : (2 ^ L = 2 ^ S s * 2 ^ (L - S s))%nat).
  { rewrite <- Nat.pow_add_r. f_equal. lia. }
  assert (Estride : (2 ^ L / 2 ^ S s = 2 ^ (L - S s))%nat).
  { rewrite EL, Nat.mul_comm. apply Nat.div_mul. pose proof (pow2_pos (S s)). lia. }
  assert (Ehalf : (2 ^ (L - 1) = 2 ^ s * 2 ^ (L - S s))%nat).
  { rewrite <- Nat.pow_add_r. f_equal. lia. }
  rewrite Estride.
  pose proof (pow2_pos (L - S s)) as Hpos.
  rewrite (ChromaUtilities.nth_map_in _ _ _ zeroTwiddle 0%nat)
    by (rewrite length_seq, Ehalf; nia).
  rewrite seq_nth by (rewrite Ehalf; nia). cbn [AudioUtils.real AudioUtils.imag].
  unfold omega.
  assert (Eangle : -2 * PI * INR (0 + r * 2 ^ (L - S s)) / IZR (2 ^ Z.of_nat L)
                   = -2 * PI * INR r / INR (2 * 2 ^ s)).
  { rewrite <- Nat2Z.inj_pow with (n := 2%nat), <- INR_IZR_INZ.
    rewrite EL, Nat.pow_succ_r'. simpl (0 + _)%nat. rewrite !mult_INR.
    assert (INR (2 ^ (L - S s)) <> 0) by (apply not_0_INR; lia).
    assert (INR (2 ^ s) <> 0) by (apply not_0_INR; pose proof (pow2_pos s); lia).
    replace (INR 2) with 2 by (simpl; lra). field. split; assumption. }
  rewrite Eangle. reflexivity.
Qed.

(** **** All stages *)

Lemma stages_run (L : nat) (twiddleFactors : list AudioUtils.Twiddle)
      (state : list R * list R) :
  twiddleFactors
  = map (fun i =>
           let angle := -2 * PI * INR i / IZR (2 ^ Z.of_nat L) in
           {| AudioUtils.real := cos angle; AudioUtils.imag := sin angle |})
        (seq 0 (Z.to_nat (2 ^ Z.of_nat L / 2))) ->
  length (fst state) = (2 ^ L)%nat -> length (snd state) = (2 ^ L)%nat ->
  forall s, (s <= L)%nat ->
    let state' := fold_left (stagePass (2 ^ L) twiddleFactors) (seq 1 s) state in
    length (fst state') = (2 ^ L)%nat /\ length (snd state') = (2 ^ L)%nat /\
    forall m, (m < 2 ^ L)%nat -> entry state' m = stages s (entry state) m.
Proof.
  intros Etw Hreal Himag. induction s as [|s IH]; intros Hs.
  - simpl. split; [exact Hreal|]. split; [exact Himag|]. reflexivity.
  - rewrite seq_S, fold_left_app. cbn [fold_left]. simpl (1 + s)%nat.
    destruct IH as (Hreal1 & Himag1 & Hentries); [lia|].
    set (state1 := fold_left (stagePass (2 ^ L) twiddleFactors) (seq 1 s) state) in *.
    assert (EL : (2 ^ L = 2 ^ (L - S s) * 2 ^ S s)%nat).
    { rewrite <- Nat.pow_add_r. f_equal. lia. }
    destruct (stagePass_spec twiddleFactors (2 ^ L) (2 ^ (L - S s)) s state1 Hreal1 Himag1 EL)
      as (Hreal2 & Himag2 & Hstage).
    split; [exact Hreal2|]. split; [exact Himag2|].
    intros m Hm. rewrite (Hstage m Hm).
    change (stages (S s) (entry state)) with (stageFun (2 ^ s) (stages s (entry state))).
    unfold stageWith, stageFun.
    pose proof (pow2_pos s) as Hpos. pose proof (pow2_pos (L - S s)) as Hblocks.
    set (half := (2 ^ s)%nat) in *.
    assert (Espan : (2 ^ S s = 2 * half)%nat) by (rewrite Nat.pow_succ_r'; reflexivity).
    rewrite Espan in EL.
    pose proof (Nat.div_mod_eq m (2 * half)) as Hdiv.
    pose proof (Nat.mod_upper_bound m (2 * half) ltac:(lia)) as Hmod.
    set (r := (m mod (2 * half))%nat) in *.
    set (q := (m / (2 * half))%nat) in *.
    assert (Hq : (q < 2 ^ (L - S s))%nat) by nia.
    destruct (Nat.ltb_spec r half) as [Hlow|Hhigh].
    + rewrite (Hentries m Hm), (Hentries (m + half)%nat) by nia.
      rewrite Etw, twiddle_omega by (assumption || lia). reflexivity.
    + rewrite (Hentries m Hm), (Hentries (m - half)%nat) by lia.
      rewrite Etw, twiddle_omega by (unfold half in *; lia). reflexivity.
Qed.

(** **** The bit-reversal permutation *)

(** The loop of [reverseBits] computes [rev]. *)
Lemma reverseLoop_rev (rounds : nat) :
  forall (result : Z) (m : nat),
    BitReversal.reverseLoop rounds result (Z.of_nat m)
    = (result * 2 ^ Z.of_nat rounds + Z.of_nat (rev rounds m))%Z.
Proof.
  induction rounds as [|rounds IH]; intros result m.
  - simpl. lia.
  - cbn [BitReversal.reverseLoop].
    change 2%Z with (Z.of_nat 2) at 2 3.
    rewrite <- Nat2Z.inj_mod, <- Nat2Z.inj_div, IH.
    change (rev (S rounds) m) with ((m mod 2) * 2 ^ rounds + rev rounds (m / 2))%nat.
    rewrite Nat2Z.inj_succ, Z.pow_succ_r by lia.
    rewrite Nat2Z.inj_add, Nat2Z.inj_mul, Nat2Z.inj_pow. simpl (Z.of_nat 2). lia.
Qed.

Lemma reverseBits_rev (L i : nat) :
  (L <= 31)%nat -> (i < 2 ^ L)%nat ->
  Z.to_nat (AudioUtils.reverseBits (Z.of_nat i) (Z.of_nat L)) = rev L i.
Proof.
  intros HL Hi.
  rewrite BitReversal.reverseBits_reverseLoop.
  - rewrite Nat2Z.id, reverseLoop_rev. rewrite Z.mul_0_l, Z.add_0_l. apply Nat2Z.id.
  - lia.
  - assert (Z.of_nat (2 ^ L) = 2 ^ Z.of_nat L)%Z by (rewrite Nat2Z.inj_pow; reflexivity).
    lia.
Qed.

Lemma rev_twice (L m : nat) : (m < 2 ^ L)%nat -> rev L (rev L m) = m.
Proof.
  intros Hm. apply Nat2Z.inj.
  pose proof (reverseLoop_rev L 0 (rev L m)) as Houter.
  pose proof (reverseLoop_rev L 0 m) as Hinner.
  rewrite Z.mul_0_l, Z.add_0_l in Houter, Hinner.
  rewrite <- Houter, <- Hinner.
  apply BitReversal.reverseLoop_twice.
  assert (Z.of_nat (2 ^ L) = 2 ^ Z.of_nat L)%Z by (rewrite Nat2Z.inj_pow; reflexivity).
  lia.
Qed.

(** The samples of the two inputs as complex numbers; without
    [inputImag] the imaginary parts are 0. *)
Definition sample (inputReal : list R) (inputImag : option (list R)) (n : nat) : C :=
  (nth n inputReal 0,
   match inputImag with
   | Some inputImag => nth n inputImag 0
   | None => 0
   end).

(** X27: [forward] computes the discrete Fourier transform.  For a
    transform of size [N = 2 ^ L] with [1 <= L <= 30] and inputs of [N]
    samples the constructor succeeds, the arrays [real] and [imag]
    returned by [forward] have [N] entries, and entry [k] is the sum over
    [n < N] of [x[n] * e^(-2 pi i k n / N)], where [x[n]] is
    [inputReal[n] + i * inputImag[n]] (real numbers, exact arithmetic). *)
Theorem forward_is_DFT (L : nat) (inputReal : list R) (inputImag : option (list R)) :
  (1 <= L <= 30)%nat ->
  length inputReal = (2 ^ L)%nat ->
  match inputImag with
  | Some inputImag => length inputImag = (2 ^ L)%nat
  | None => True
  end ->
  exists fft,
    AudioUtils.FFT_new (2 ^ Z.of_nat L) = inr fft /\
    let result := forward fft inputReal inputImag in
    length (fst result) = (2 ^ L)%nat /\ length (snd result) = (2 ^ L)%nat /\
    forall k, (k < 2 ^ L)%nat ->
      entry result k
      = Csum (fun n => Cmul (sample inputReal inputImag n) (omega (2 ^ L) (n * k))) (2 ^ L).
Proof.
  intros HL Hreal Himag.
  eexists. split; [apply FFT_new_pow2; lia|].
  unfold forward.
  cbn [AudioUtils.size AudioUtils.log2Size AudioUtils.bitReversalIndices
       AudioUtils.twiddleFactors].
  rewrite size_nat, Nat2Z.id.
  set (table := map (fun i => AudioUtils.reverseBits (Z.of_nat i) (Z.of_nat L)) (seq 0 (2 ^ L))).
  set (permuted := fun input : list R =>
                     map (fun i => nth (Z.to_nat (nth i table 0%Z)) input 0) (seq 0 (2 ^ L))).
  set (imag0 := match inputImag with
                | Some inputImag0 => permuted inputImag0
                | None => map (fun _ => 0) (seq 0 (2 ^ L))
                end).
  assert (Htable : forall i, (i < 2 ^ L)%nat -> Z.to_nat (nth i table 0%Z) = rev L i).
  { intros i Hi. unfold table.
    rewrite (ChromaUtilities.nth_map_in _ _ i 0%Z 0%nat) by (rewrite length_seq; exact Hi).
    rewrite seq_nth by exact Hi. apply reverseBits_rev; [lia | exact Hi]. }
  assert (Hpermuted : forall input i, (i < 2 ^ L)%nat ->
            nth i (permuted input) 0 = nth (rev L i) input 0).
  { intros input i Hi. unfold permuted.
    rewrite (ChromaUtilities.nth_map_in _ _ i 0 0%nat) by (rewrite length_seq; exact Hi).
    rewrite seq_nth by exact Hi. simpl (0 + i)%nat. now rewrite Htable. }
  assert (Hstart : forall i, (i < 2 ^ L)%nat ->
            entry (permuted inputReal, imag0) i = sample inputReal inputImag (rev L i)).
  { intros i Hi. unfold entry, sample. cbn [fst snd]. f_equal.
    - now apply Hpermuted.
    - unfold imag0. destruct inputImag as [inputImag0|].
      + now apply Hpermuted.
      + rewrite (ChromaUtilities.nth_map_in _ _ i 0 0%nat) by (rewrite length_seq; exact Hi).
        reflexivity. }
  assert (Hlen0 : length (fst (permuted inputReal, imag0)) = (2 ^ L)%nat
                  /\ length (snd (permuted inputReal, imag0)) = (2 ^ L)%nat).
  { cbn [fst snd]. split.
    - unfold permuted. now rewrite length_map, length_seq.
    - unfold imag0, permuted. destruct inputImag; now rewrite length_map, length_seq. }
  destruct Hlen0 as [Hlen_real Hlen_imag].
  destruct (stages_run L _ (permuted inputReal, imag0) eq_refl Hlen_real Hlen_imag L
                       (Nat.le_refl L)) as (Hreal' & Himag' & Hentries).
  split; [exact Hreal'|]. split; [exact Himag'|].
  intros k Hk. etransitivity; [exact (Hentries k Hk)|].
  pose proof (stages_dft (entry (permuted inputReal, imag0)) L 0 k Hk) as Hdft.
  simpl (0 * 2 ^ L + k)%nat in Hdft. rewrite Hdft.
  apply Csum_ext. intros m Hm. f_equal.
  simpl (0 * 2 ^ L + rev L m)%nat.
  rewrite Hstart by apply rev_lt. now rewrite rev_twice.
Qed.

Lemma forward_is_DFT_witness :
  exists fft,
    AudioUtils.FFT_new (2 ^ Z.of_nat 2) = inr fft /\
    let result := forward fft [1; 2; 3; 4] None in
    length (fst result) = (2 ^ 2)%nat /\ length (snd result) = (2 ^ 2)%nat /\
    forall k, (k < 2 ^ 2)%nat ->
      entry result k
      = Csum (fun n => Cmul (sample [1; 2; 3; 4] None n) (omega (2 ^ 2) (n * k))) (2 ^ 2).
Proof.
  apply (forward_is_DFT 2 [1; 2; 3; 4] None).
  - lia.
  - reflexivity.
  - exact I.
Defined.

(** The magnitudes are the square roots of the powers. *)
Lemma getMagnitudeSpectrum_power (fft : AudioUtils.FFT) (inputReal : list R)
      (inputImag : option (list R)) :
  getMagnitudeSpectrum fft inputReal inputImag
  = map sqrt (getPowerSpectrum fft inputReal inputImag).
Proof. unfold getMagnitudeSpectrum, getPowerSpectrum. now rewrite map_map. Qed.

End FFTForward.

(** ** Pitch detection *)

Module PitchDetection.
#[local] Open Scope R_scope.

Record Pitch : Type := mkPitch {
  frequency : R;
  confidence : R;
  period : nat
}.

(** The three sums of the inner loop, for [i < buffer.length - period]. *)
Definition correlationSums (buffer : list R) (period : nat) : R * R * R :=
  fold_left
    (fun '(correlation, norm1, norm2) i =>
       (correlation + nth i buffer 0 * nth (i + period) buffer 0,
        norm1 + nth i buffer 0 * nth i buffer 0,
        norm2 + nth (i + period) buffer 0 * nth (i + period) buffer 0))
    (seq 0 (length buffer - period)) (0, 0, 0).

(** [correlation / Math.sqrt(norm1 * norm2)]; [None] is the [NaN] of
    [0 / 0]. *)
Definition normalizedCorrelation (buffer : list R) (period : nat) : option R :=
  let '(correlation, norm1, norm2) := correlationSums buffer period in
  if Req_dec_T (norm1 * norm2) 0 then None
  else Some (correlation / sqrt (norm1 * norm2)).

(** One round of the loop over the periods; a comparison with [NaN] is
    false. *)
Definition pitchStep (buffer : list R) (state : R * nat) (period : nat) : R * nat :=
  match normalizedCorrelation buffer period with
  | Some normalized => if Rgt_dec normalized (fst state) then (normalized, period) else state
  | None => state
  end.

(** The loop over the periods from [minPeriod] to [maxPeriod] and the
    value returned; [None] is [null]. *)
Definition pitchOver (buffer : list R) (sampleRate : R) (minPeriod maxPeriod : nat)
  : option Pitch :=
  let best := fold_left (pitchStep buffer) (seq minPeriod (maxPeriod + 1 - minPeriod))
                        (0, 0%nat) in
  let bestCorrelation := fst best in
  let bestPeriod := snd best in
  if (0 <? bestPeriod)%nat
  then Some {| frequency := sampleRate / INR bestPeriod;
               confidence := bestCorrelation;
               period := bestPeriod |}
  else None.

(** [autocorrelationPitch(buffer, sampleRate, minFreq, maxFreq)] for
    positive rates and frequencies: the loop runs between the periods
    [Math.floor(sampleRate / maxFreq)] and
    [Math.floor(sampleRate / minFreq)]. *)
Definition autocorrelationPitch (buffer : list R) (sampleRate minFreq maxFreq : Q)
  : option Pitch :=
  let minPeriod := Z.to_nat (Qfloor (sampleRate / maxFreq)) in
  let maxPeriod := Z.to_nat (Qfloor (sampleRate / minFreq)) in
  pitchOver buffer (Q2R sampleRate) minPeriod maxPeriod.

(** The scan over the periods keeps the greatest correlation met so far,
    at the first period that reaches it. *)
Lemma pitch_loop (buffer : list R) (periods : list nat) :
  forall (bestCorrelation : R) (bestPeriod : nat),
    let best := fold_left (pitchStep buffer) periods (bestCorrelation, bestPeriod) in
    bestCorrelation <= fst best /\
    (forall q c, In q periods -> normalizedCorrelation buffer q = Some c -> c <= fst best) /\
    (best = (bestCorrelation, bestPeriod) \/
     (In (snd best) periods /\ normalizedCorrelation buffer (snd best) = Some (fst best)
      /\ bestCorrelation < fst best)).
Proof.
  induction periods as [|p periods IH]; intros bestCorrelation bestPeriod.
  - simpl. split; [lra|]. split; [intros q c []|]. now left.
  - simpl fold_left. unfold pitchStep at 2. cbn [fst].
    destruct (normalizedCorrelation buffer p) as [normalized|] eqn:Ep.
    + destruct (Rgt_dec normalized bestCorrelation) as [Hgt|Hle].
      * destruct (IH normalized p) as (Hmono & Hall & Hbest).
        cbv zeta in *. split; [lra|]. split.
        -- intros q c [<-|Hq] Hc; [rewrite Ep in Hc; injection Hc as <-; exact Hmono|].
           now apply (Hall q).
        -- right. destruct Hbest as [E|(Hin & Hcorr & Hlt)].
           ++ rewrite E. cbn [fst snd]. split; [now left|]. split; [exact Ep | lra].
           ++ split; [now right|]. split; [exact Hcorr | lra].
      * destruct (IH bestCorrelation bestPeriod) as (Hmono & Hall & Hbest).
        cbv zeta in *. split; [exact Hmono|]. split.
        -- intros q c [<-|Hq] Hc; [rewrite Ep in Hc; injection Hc as <-; lra|].
           now apply (Hall q).
        -- destruct Hbest as [E|(Hin & Hcorr & Hlt)]; [now left|].
           right. split; [now right|]. split; assumption.
    + destruct (IH bestCorrelation bestPeriod) as (Hmono & Hall & Hbest).
      cbv zeta in *. split; [exact Hmono|]. split.
      * intros q c [<-|Hq] Hc; [rewrite Ep in Hc; discriminate|]. now apply (Hall q).
      * destruct Hbest as [E|(Hin & Hcorr & Hlt)]; [now left|].
        right. split; [now right|]. split; assumption.
Qed.

(** X28: the pitch found by autocorrelation, for the loop bounds
    [minPeriod] and [maxPeriod] the function has computed.  A pitch that is
    returned has a period of at least one sample between the two bounds,
    the frequency [sampleRate / period], and as confidence the normalized
    correlation computed at that period, which is positive and not
    exceeded by the one computed at any other period of the range.  [null]
    is returned when no period of the range has a positive correlation, or
    when the range starts at period 0. *)
Theorem autocorrelationPitch_best
        (buffer : list R) (sampleRate : R) (minPeriod maxPeriod : nat) :
  match pitchOver buffer sampleRate minPeriod maxPeriod with
  | Some pitch =>
      (minPeriod <= period pitch <= maxPeriod)%nat /\ (1 <= period pitch)%nat /\
      frequency pitch = sampleRate / INR (period pitch) /\
      normalizedCorrelation buffer (period pitch) = Some (confidence pitch) /\
      0 < confidence pitch /\
      forall q c, (minPeriod <= q <= maxPeriod)%nat ->
                  normalizedCorrelation buffer q = Some c -> c <= confidence pitch
  | None =>
      minPeriod = 0%nat \/
      forall q c, (minPeriod <= q <= maxPeriod)%nat ->
                  normalizedCorrelation buffer q = Some c -> c <= 0
  end.
Proof.
  unfold pitchOver.
  destruct (pitch_loop buffer (seq minPeriod (maxPeriod + 1 - minPeriod)) 0 0%nat)
    as (Hmono & Hall & Hbest).
  cbv zeta in Hmono, Hall, Hbest.
  set (best := fold_left (pitchStep buffer) (seq minPeriod (maxPeriod + 1 - minPeriod))
                         (0, 0%nat)) in *.
  assert (Hrange : forall q c, (minPeriod <= q <= maxPeriod)%nat ->
                     normalizedCorrelation buffer q = Some c -> c <= fst best).
  { intros q c Hq. apply Hall. apply in_seq. lia. }
  destruct (Nat.ltb_spec 0 (snd best)) as [Hpos|Hzero].
  - cbn [period frequency confidence].
    destruct Hbest as [E|(Hin & Hcorr & Hlt)].
    { rewrite E in Hpos. simpl in Hpos. lia. }
    apply in_seq in Hin.
    split; [lia|]. split; [lia|]. split; [reflexivity|]. split; [exact Hcorr|].
    split; [lra | exact Hrange].
  - destruct Hbest as [E|(Hin & Hcorr & Hlt)].
    + right. intros q c Hq Hc. rewrite E in Hrange. now apply (Hrange q c).
    + left. apply in_seq in Hin. lia.
Qed.

(** Two periods of a wave of four samples, at 8 samples per second and
    scanned for periods of 2 to 4 samples: period 4 is found. *)
Example autocorrelationPitch_square :
  option_map period (autocorrelationPitch [1; 0; -1; 0; 1; 0; -1; 0] 8 2 4) = Some 4%nat.
Proof.
  unfold autocorrelationPitch.
  change (Z.to_nat (Qfloor (8 / 4))) with 2%nat.
  change (Z.to_nat (Qfloor (8 / 2))) with 4%nat.
  unfold pitchOver. simpl seq. cbn [fold_left].
  assert (E2 : normalizedCorrelation [1; 0; -1; 0; 1; 0; -1; 0] 2 = Some (-3 / sqrt (3 * 3))).
  { unfold normalizedCorrelation, correlationSums. simpl.
    replace (0 + 1 * -1 + 0 * 0 + -1 * 1 + 0 * 0 + 1 * -1 + 0 * 0) with (-3) by lra.
    replace (0 + 1 * 1 + 0 * 0 + -1 * -1 + 0 * 0 + 1 * 1 + 0 * 0) with 3 by lra.
    replace (0 + -1 * -1 + 0 * 0 + 1 * 1 + 0 * 0 + -1 * -1 + 0 * 0) with 3 by lra.
    destruct (Req_dec_T (3 * 3) 0); [lra | reflexivity]. }
  assert (E3 : normalizedCorrelation [1; 0; -1; 0; 1; 0; -1; 0] 3 = Some (0 / sqrt (3 * 2))).
  { unfold normalizedCorrelation, correlationSums. simpl.
    replace (0 + 1 * 0 + 0 * 1 + -1 * 0 + 0 * -1 + 1 * 0) with 0 by lra.
    replace (0 + 1 * 1 + 0 * 0 + -1 * -1 + 0 * 0 + 1 * 1) with 3 by lra.
    replace (0 + 0 * 0 + 1 * 1 + 0 * 0 + -1 * -1 + 0 * 0) with 2 by lra.
    destruct (Req_dec_T (3 * 2) 0); [lra | reflexivity]. }
  assert (E4 : normalizedCorrelation [1; 0; -1; 0; 1; 0; -1; 0] 4 = Some (2 / sqrt (2 * 2))).
  { unfold normalizedCorrelation, correlationSums. simpl.
    replace (0 + 1 * 1 + 0 * 0 + -1 * -1 + 0 * 0) with 2 by lra.
    destruct (Req_dec_T (2 * 2) 0); [lra | reflexivity]. }
  rewrite sqrt_square in E2, E4 by lra.
  unfold pitchStep. rewrite E2. cbn [fst].
  destruct (Rgt_dec (-3 / 3) 0) as [H|_]; [lra|].
  rewrite E3. cbn [fst].
  destruct (Rgt_dec (0 / sqrt (3 * 2)) 0) as [H|_].
  { unfold Rdiv in H. rewrite Rmult_0_l in H. lra. }
  rewrite E4. cbn [fst].
  destruct (Rgt_dec (2 / 2) 0) as [_|H]; [|lra].
  reflexivity.
Qed.

End PitchDetection.

